(** * Round orchestration engine of the D&D bot: a shallow embedding

    The development follows the Python sources:
    - [config/settings.py]      : the [Settings] constants;
    - [bot/game/validation.py]  : [StatValidator.validate_stat_allocation];
    - [bot/game/models.py]      : the tables of the persistent store;
    - [bot/game/state.py]       : [GameStateManager];
    - [bot/ai/ollama_client.py] : [OllamaClient._fallback_narrative];
    - [bot/game/engine.py]      : [GameEngine].

    Python integers are unbounded, hence [Z].  A [datetime] is the number of
    microseconds since the epoch, a [timedelta] a number of microseconds.
    Tables are lists of rows in insertion order.  The dictionary
    [GameEngine.active_rounds] is a [gmap Z bool]. *)

From stdpp Require Import base numbers list strings gmap fin_maps sorting pretty.

Local Open Scope Z_scope.

(* ===================================================================== *)
(** * config/settings.py *)
(* ===================================================================== *)

Definition STAT_POINT_BUY_MAX : Z := 27.
Definition STAT_MAX : Z := 15.
Definition STAT_MIN : Z := 8.

Definition STAT_POINT_COSTS : gmap Z Z :=
  list_to_map
    [(8, 0); (9, 1); (10, 2); (11, 3); (12, 4); (13, 5);
     (14, 7); (15, 9); (16, 12); (17, 15); (18, 19)].

(** The two settings read from the process environment. *)
Record Settings := mkSettings {
  ROUND_TIMEOUT_SECONDS : Z;
  MIN_PLAYERS_FOR_ROUND : Z
}.

(** The values used when the environment does not set them. *)
Definition default_settings : Settings :=
  {| ROUND_TIMEOUT_SECONDS := 300; MIN_PLAYERS_FOR_ROUND := 1 |}.

(* ===================================================================== *)
(** * bot/game/validation.py *)
(* ===================================================================== *)

(** A [Dict[str, int]]: the items in insertion order. *)
Definition StatDict := list (string * Z).

(** [key in d] *)
Definition dict_mem (key : string) (d : StatDict) : bool :=
  existsb (fun kv => String.eqb (fst kv) key) d.

(** [str(n)] for an integer. *)
Definition str_of_int (n : Z) : string := pretty n.

Definition required_stats : list string :=
  ["STR"; "DEX"; "CON"; "INT"; "WIS"; "CHA"].

(** First loop: the first required stat that is missing, if any. *)
Fixpoint first_missing (required : list string) (stats : StatDict)
  : option string :=
  match required with
  | [] => None
  | stat :: rest =>
      if negb (dict_mem stat stats) then Some ("Missing stat: " +:+ stat)
      else first_missing rest stats
  end.

(** Second loop: the limits of each item, in the order of the dictionary. *)
Fixpoint first_out_of_limits (items : StatDict) : option string :=
  match items with
  | [] => None
  | (stat_name, value) :: rest =>
      if STAT_MAX <? value then
        Some (stat_name +:+ " exceeds maximum: " +:+ str_of_int value
              +:+ " (max: " +:+ str_of_int STAT_MAX +:+ ")")
      else if value <? STAT_MIN then
        Some (stat_name +:+ " below minimum: " +:+ str_of_int value
              +:+ " (min: " +:+ str_of_int STAT_MIN +:+ ")")
      else first_out_of_limits rest
  end.

(** Third loop: the running total of the point costs, or the message of the
    first item whose value has no cost. *)
Fixpoint total_points_from (total_points : Z) (items : StatDict)
  : Z + string :=
  match items with
  | [] => inl total_points
  | (stat_name, value) :: rest =>
      match STAT_POINT_COSTS !! value with
      | Some cost => total_points_from (total_points + cost) rest
      | None =>
          inr (stat_name +:+ " has invalid value: " +:+ str_of_int value
               +:+ " (valid range: 8-15)")
      end
  end.

(** [StatValidator.validate_stat_allocation]: the pair
    [(is_valid, error_message)]. *)
Definition validate_stat_allocation (stats : StatDict)
  : bool * option string :=
  match first_missing required_stats stats with
  | Some msg => (false, Some msg)
  | None =>
      match first_out_of_limits stats with
      | Some msg => (false, Some msg)
      | None =>
          match total_points_from 0 stats with
          | inr msg => (false, Some msg)
          | inl total_points =>
              if STAT_POINT_BUY_MAX <? total_points then
                (false,
                 Some ("Total points exceeded: " +:+ str_of_int total_points
                       +:+ "/" +:+ str_of_int STAT_POINT_BUY_MAX
                       +:+ ". Please redistribute your stat points."))
              else (true, None)
          end
      end
  end.

(** The two allocations of the stat-validation test of [test_cli.py]
    (there named [valid_stats]) and of the specification. *)
Definition example_stats : StatDict :=
  [("STR", 15); ("DEX", 12); ("CON", 14); ("INT", 10); ("WIS", 13); ("CHA", 13)].

Definition all_18_stats : StatDict :=
  [("STR", 18); ("DEX", 18); ("CON", 18); ("INT", 18); ("WIS", 18); ("CHA", 18)].


(* ===================================================================== *)
(** * bot/game/models.py *)
(* ===================================================================== *)

Inductive GameStatus := WAITING | ACTIVE | PAUSED | ENDED.

(** [GameStatus.value] *)
Definition status_value (s : GameStatus) : string :=
  match s with
  | WAITING => "waiting"
  | ACTIVE => "active"
  | PAUSED => "paused"
  | ENDED => "ended"
  end.

Inductive LogType := NARRATIVE | COMBAT | SYSTEM.

(** [LogType.value] *)
Definition log_type_value (t : LogType) : string :=
  match t with
  | NARRATIVE => "narrative"
  | COMBAT => "combat"
  | SYSTEM => "system"
  end.

(** Table [players] (the columns read by the engine and by the snapshot). *)
Record Player := mkPlayer {
  p_id : Z;
  p_platform_user_id : string;
  p_name : string;
  p_class_name : string;
  p_stats : StatDict;
  p_hp : Z;
  p_max_hp : Z
}.

(** Table [games]. *)
Record Game := mkGame {
  g_id : Z;
  g_name : option string;
  g_status : GameStatus;
  g_current_location : option string;
  g_campaign_name : option string
}.

(** Table [game_players]. *)
Record GamePlayer := mkGamePlayer {
  gp_game_id : Z;
  gp_player_id : Z
}.

(** Table [game_sessions]; an encounter is opaque to the engine. *)
Record GameSession := mkGameSession {
  s_game_id : Z;
  round_number : Z;
  current_turn : option Z;
  active_encounters : list string;
  updated_at : Z
}.

(** Table [actions]. *)
Record Action := mkAction {
  a_id : Z;
  a_game_id : Z;
  a_player_id : Z;
  a_action_text : string;
  a_timestamp : Z;
  processed : bool
}.

(** Table [game_logs]. *)
Record GameLog := mkGameLog {
  l_game_id : Z;
  message : string;
  l_timestamp : Z;
  log_type : LogType
}.

(** The durable state: what has been committed to the database. *)
Record DB := mkDB {
  tbl_games : list Game;
  tbl_game_sessions : list GameSession;
  tbl_players : list Player;
  tbl_game_players : list GamePlayer;
  tbl_actions : list Action;
  tbl_game_logs : list GameLog
}.

(* ===================================================================== *)
(** * The dictionaries exchanged by the state manager and the engine *)
(* ===================================================================== *)

(** An item of [game_state["pending_actions"]].  The ISO string of the
    source is kept as the instant it denotes; the strings of one table
    compare as their instants do. *)
Record PendingAction := mkPendingAction {
  pa_id : Z;
  pa_player_id : Z;
  pa_action_text : string;
  pa_timestamp : Z
}.

(** An item of [game_state["recent_logs"]]. *)
Record RecentLog := mkRecentLog {
  rl_message : string;
  rl_type : string;
  rl_timestamp : Z
}.

(** The dictionary returned by [get_game_state]; an item of ["players"] has
    the columns of [Player]. *)
Record GameState := mkGameState {
  gs_game_id : Z;
  gs_name : option string;
  gs_status : string;
  gs_current_location : option string;
  gs_campaign_name : option string;
  gs_round_number : Z;
  gs_current_turn : option Z;
  gs_active_encounters : list string;
  gs_players : list Player;
  gs_pending_actions : list PendingAction;
  gs_recent_logs : list RecentLog
}.

(** An item of [player_actions]. *)
Record PlayerAction := mkPlayerAction {
  player_name : string;
  action_text : string
}.

(* ===================================================================== *)
(** * Effects: the store, the logger, exceptions *)
(* ===================================================================== *)

(** The calls to the database made during a round.  Each may raise. *)
Inductive Stage :=
  | StLoad            (* the game and session queries of get_game_state *)
  | StCreateSession   (* the commit of the lazily created session *)
  | StSnapshot        (* the other queries of get_game_state *)
  | StLookup          (* the player query of engine.py line 94 *)
  | StMark            (* mark_actions_processed *)
  | StSession         (* the session query and commit, lines 126-131 *)
  | StLog             (* log_game_event *)
  | StQueue.          (* the commit of queue_action *)

Inductive Exn := DbError (st : Stage).

(** What the awaited [ai_callback] does: it returns a string or [None], or
    it raises. *)
Inductive CallbackResult :=
  | CbReturn (narrative : option string)
  | CbRaise.

(** The records written through [logger]. *)
Inductive LogRecord :=
  | LogAlreadyProcessing (game_id : Z)              (* warning, line 46 *)
  | LogNotActive (game_id : Z)                      (* warning, line 56 *)
  | LogNoPending (game_id : Z)                      (* info, line 63 *)
  | LogPlayerNotFound (player_id action_id : Z)     (* warning, line 102 *)
  | LogGenerating (count : nat)                     (* info, line 108 *)
  | LogGenerated (head : string)                    (* info, line 111 *)
  | LogEmptyNarrative                               (* warning, line 113 *)
  | LogAIError                                      (* error, line 115 *)
  | LogNoCallback                                   (* warning, line 118 *)
  | LogRoundError (game_id : Z) (e : Exn).          (* error, line 144 *)

(** What a call receives from outside: the settings, which database calls
    raise, the readings of [datetime.utcnow()], and the AI callback of the
    engine with what it answers. *)
Record Env := mkEnv {
  settings : Settings;
  faults : Stage -> bool;
  utcnow_check : Z;          (* line 184 *)
  utcnow_update : Z;         (* line 130 *)
  utcnow_default : Z;        (* the column defaults of the rows inserted *)
  ai_callback : option (GameState -> list PlayerAction -> CallbackResult)
}.

(** The state a call acts on. *)
#[projections(primitive=yes)]
Record World := mkWorld {
  active_rounds : gmap Z bool;
  db : DB;
  logged : list LogRecord
}.

Inductive Res (A : Type) :=
  | Ok (a : A)
  | Raised (e : Exn).
Arguments Ok {A} a.
Arguments Raised {A} e.

Definition M (A : Type) : Type := Env -> World -> Res A * World.

Definition ret {A} (a : A) : M A := fun _ w => (Ok a, w).

Definition bind {A B} (m : M A) (k : A -> M B) : M B :=
  fun env w =>
    match m env w with
    | (Ok a, w') => k a env w'
    | (Raised e, w') => (Raised e, w')
    end.

#[global] Instance M_ret : MRet M := @ret.
#[global] Instance M_bind : MBind M := fun A B k m => bind m k.

(** [try: body / except Exception as e: handler e] *)
Definition try_except {A} (body : M A) (handler : Exn -> M A) : M A :=
  fun env w =>
    match body env w with
    | (Ok a, w') => (Ok a, w')
    | (Raised e, w') => handler e env w'
    end.

(** [try: body / finally: final] *)
Definition try_finally {A} (body : M A) (final : M unit) : M A :=
  fun env w =>
    match body env w with
    | (r, w') =>
        match final env w' with
        | (Ok _, w'') => (r, w'')
        | (Raised e, w'') => (Raised e, w'')
        end
    end.

Definition ask : M Env := fun env w => (Ok env, w).

Definition read_db : M DB := fun _ w => (Ok (db w), w).

Definition write_db (f : DB -> DB) : M unit :=
  fun _ w =>
    (Ok tt, {| active_rounds := active_rounds w; db := f (db w);
               logged := logged w |}).

(** A call to the database: raises when the environment says so, before
    anything is written. *)
Definition db_call (st : Stage) : M unit :=
  fun env w => if faults env st then (Raised (DbError st), w) else (Ok tt, w).

Definition logger (r : LogRecord) : M unit :=
  fun _ w =>
    (Ok tt, {| active_rounds := active_rounds w; db := db w;
               logged := logged w ++ [r] |}).

Definition read_active_rounds : M (gmap Z bool) :=
  fun _ w => (Ok (active_rounds w), w).

Definition write_active_rounds (f : gmap Z bool -> gmap Z bool) : M unit :=
  fun _ w =>
    (Ok tt, {| active_rounds := f (active_rounds w); db := db w;
               logged := logged w |}).

(* ===================================================================== *)
(** * bot/game/state.py: GameStateManager *)
(* ===================================================================== *)

(** [x in xs] for a list of integers, also SQL's [IN]. *)
Definition in_list (x : Z) (xs : list Z) : bool := existsb (Z.eqb x) xs.

(** [query(Game).filter_by(id=game_id).first()] *)
Definition find_game (game_id : Z) (d : DB) : option Game :=
  List.find (fun g => g_id g =? game_id) (tbl_games d).

(** [query(GameSession).filter_by(game_id=game_id).first()] *)
Definition find_session (game_id : Z) (d : DB) : option GameSession :=
  List.find (fun s => s_game_id s =? game_id) (tbl_game_sessions d).

(** [query(Player).filter_by(id=player_id).first()] *)
Definition find_player (player_id : Z) (players : list Player)
  : option Player :=
  List.find (fun p => p_id p =? player_id) players.

(** [db.add(session)] *)
Definition add_session (s : GameSession) (d : DB) : DB :=
  {| tbl_games := tbl_games d;
     tbl_game_sessions := tbl_game_sessions d ++ [s];
     tbl_players := tbl_players d;
     tbl_game_players := tbl_game_players d;
     tbl_actions := tbl_actions d;
     tbl_game_logs := tbl_game_logs d |}.

(** [db.add(log)] *)
Definition add_log (l : GameLog) (d : DB) : DB :=
  {| tbl_games := tbl_games d;
     tbl_game_sessions := tbl_game_sessions d;
     tbl_players := tbl_players d;
     tbl_game_players := tbl_game_players d;
     tbl_actions := tbl_actions d;
     tbl_game_logs := tbl_game_logs d ++ [l] |}.

(** [db.add(action)] *)
Definition add_action (a : Action) (d : DB) : DB :=
  {| tbl_games := tbl_games d;
     tbl_game_sessions := tbl_game_sessions d;
     tbl_players := tbl_players d;
     tbl_game_players := tbl_game_players d;
     tbl_actions := tbl_actions d ++ [a];
     tbl_game_logs := tbl_game_logs d |}.

(** [ORDER BY actions.timestamp ASC] *)
Definition older_first (a b : Action) : Prop := a_timestamp a ≤ a_timestamp b.
#[global] Instance older_first_dec : RelDecision older_first :=
  fun a b => decide (a_timestamp a ≤ a_timestamp b).

(** [ORDER BY game_logs.timestamp DESC] *)
Definition newer_first (a b : GameLog) : Prop := l_timestamp b ≤ l_timestamp a.
#[global] Instance newer_first_dec : RelDecision newer_first :=
  fun a b => decide (l_timestamp b ≤ l_timestamp a).

(** The players of a game (lines 41-43). *)
Definition players_of_game (game_id : Z) (d : DB) : list Player :=
  let game_players :=
    List.filter (fun gp => gp_game_id gp =? game_id) (tbl_game_players d) in
  let player_ids := map gp_player_id game_players in
  match player_ids with
  | [] => []
  | _ => List.filter (fun p => in_list (p_id p) player_ids) (tbl_players d)
  end.

(** The pending actions of a game, oldest first, serialized (lines 50-64). *)
Definition pending_actions_of_game (game_id : Z) (d : DB)
  : list PendingAction :=
  let pending_actions_db :=
    merge_sort older_first
      (List.filter (fun a => (a_game_id a =? game_id) && negb (processed a))
                   (tbl_actions d)) in
  map (fun a => {| pa_id := a_id a; pa_player_id := a_player_id a;
                   pa_action_text := a_action_text a;
                   pa_timestamp := a_timestamp a |})
      pending_actions_db.

(** The ten most recent log entries of a game (lines 46-47, 88-95). *)
Definition recent_logs_of_game (game_id : Z) (d : DB) : list RecentLog :=
  let recent_logs :=
    take 10 (merge_sort newer_first
               (List.filter (fun l => l_game_id l =? game_id)
                            (tbl_game_logs d))) in
  map (fun l => {| rl_message := message l;
                   rl_type := log_type_value (log_type l);
                   rl_timestamp := l_timestamp l |})
      recent_logs.

(** The dictionary built at lines 66-96. *)
Definition make_state (game_id : Z) (game : Game) (session : GameSession)
    (d : DB) : GameState :=
  {| gs_game_id := g_id game;
     gs_name := g_name game;
     gs_status := status_value (g_status game);
     gs_current_location := g_current_location game;
     gs_campaign_name := g_campaign_name game;
     gs_round_number := round_number session;
     gs_current_turn := current_turn session;
     gs_active_encounters := active_encounters session;
     gs_players := players_of_game game_id d;
     gs_pending_actions := pending_actions_of_game game_id d;
     gs_recent_logs := recent_logs_of_game game_id d |}.

(** The session of line 36. *)
Definition new_session (game_id : Z) (now : Z) : GameSession :=
  {| s_game_id := game_id; round_number := 1; current_turn := None;
     active_encounters := []; updated_at := now |}.

(** [GameStateManager.get_game_state]; the empty dictionary is [None]. *)
Definition get_game_state (game_id : Z) : M (option GameState) :=
  db_call StLoad;;
  d ← read_db;
  match find_game game_id d with
  | None => mret None
  | Some game =>
      session ←
        match find_session game_id d with
        | Some session => mret session
        | None =>
            env ← ask;
            let session := new_session game_id (utcnow_default env) in
            db_call StCreateSession;;
            write_db (add_session session);;
            mret session
        end;
      db_call StSnapshot;;
      d ← read_db;
      mret (Some (make_state game_id game session d))
  end.

(** [GameStateManager.log_game_event] *)
Definition log_game_event (game_id : Z) (msg : string) (t : LogType)
  : M unit :=
  env ← ask;
  db_call StLog;;
  write_db (add_log {| l_game_id := game_id; message := msg;
                       l_timestamp := utcnow_default env; log_type := t |}).

(** The [UPDATE actions SET processed = true WHERE game_id = ... AND id IN
    ...] of [mark_actions_processed]. *)
Definition set_processed (game_id : Z) (action_ids : list Z) (d : DB) : DB :=
  {| tbl_games := tbl_games d;
     tbl_game_sessions := tbl_game_sessions d;
     tbl_players := tbl_players d;
     tbl_game_players := tbl_game_players d;
     tbl_actions :=
       map (fun a =>
              if (a_game_id a =? game_id) && in_list (a_id a) action_ids
              then {| a_id := a_id a; a_game_id := a_game_id a;
                      a_player_id := a_player_id a;
                      a_action_text := a_action_text a;
                      a_timestamp := a_timestamp a; processed := true |}
              else a)
           (tbl_actions d);
     tbl_game_logs := tbl_game_logs d |}.

(** [GameStateManager.mark_actions_processed] *)
Definition mark_actions_processed (game_id : Z) (action_ids : list Z)
  : M unit :=
  db_call StMark;;
  write_db (set_processed game_id action_ids).

(* ===================================================================== *)
(** * bot/ai/ollama_client.py *)
(* ===================================================================== *)

(** [OllamaClient._fallback_narrative] *)
Definition _fallback_narrative (player_actions : list PlayerAction) : string :=
  match player_actions with
  | [] => "*The party waits, watching the world around them...*"
  | _ =>
      let action_summary :=
        String.concat ", "
          (map (fun a => player_name a +:+ " " +:+ action_text a)
               player_actions) in
      "*The party acts: " +:+ action_summary +:+ ". The world responds...*"
  end.

(** What the POST of [generate_story] comes to: a response, with its
    status and, when the status is 200, the response text as lines 59-67
    clean it (for another status the text is not read), or an exception, an
    [aiohttp.ClientError] or another one. *)
Inductive HttpOutcome :=
  | HttpResponse (status : Z) (generated_text : string)
  | HttpClientError
  | HttpOtherError.

(** [OllamaClient.generate_story]: the response text for status 200; every
    other status and every exception is answered by [_fallback_narrative]. *)
Definition generate_story (outcome : HttpOutcome) (game_state : GameState)
    (player_actions : list PlayerAction) : string :=
  match outcome with
  | HttpResponse status generated_text =>
      if status =? 200 then generated_text
      else _fallback_narrative player_actions
  | HttpClientError => _fallback_narrative player_actions
  | HttpOtherError => _fallback_narrative player_actions
  end.

(** [DnDBot.ai_story_callback] of [main.py]: the callback given to the
    engine. *)
Definition ai_story_callback (outcome : HttpOutcome)
  : GameState -> list PlayerAction -> CallbackResult :=
  fun game_state player_actions =>
    CbReturn (Some (generate_story outcome game_state player_actions)).

(* ===================================================================== *)
(** * bot/game/engine.py: GameEngine *)
(* ===================================================================== *)

(** The truth value of [narrative]: neither [None] nor the empty string. *)
Definition truthy (narrative : option string) : bool :=
  match narrative with
  | Some (String _ _) => true
  | _ => false
  end.

(** The truth value of a list. *)
Definition nonempty {A} (l : list A) : bool :=
  match l with
  | [] => false
  | _ :: _ => true
  end.

Definition newline : string := String (Ascii.ascii_of_nat 10) EmptyString.

(** [min(pending_actions, key=lambda x: x["timestamp"])] on [first :: rest]:
    the first item among those of least timestamp. *)
Fixpoint min_by_timestamp (best : PendingAction) (rest : list PendingAction)
  : PendingAction :=
  match rest with
  | [] => best
  | x :: rest' =>
      if pa_timestamp x <? pa_timestamp best then min_by_timestamp x rest'
      else min_by_timestamp best rest'
  end.

(** [timedelta(seconds=n)] *)
Definition timedelta_seconds (n : Z) : Z := n * 1000000.

(** [GameEngine._should_process_round]; [now] is the reading of
    [datetime.utcnow()] at line 184. *)
Definition _should_process_round (cfg : Settings) (now : Z)
    (game_state : GameState) (pending_actions : list PendingAction)
    (force : bool) : bool :=
  if force then true
  else if negb (nonempty pending_actions) then false
  else
    let players := gs_players game_state in
    let num_players := Z.of_nat (length players) in
    let num_actions := Z.of_nat (length pending_actions) in
    if MIN_PLAYERS_FOR_ROUND cfg <=? num_actions then
      let unique_acting_players :=
        Z.of_nat (size (list_to_set (map pa_player_id pending_actions)
                        : gset Z)) in
      if num_players <=? unique_acting_players then true
      else
        match pending_actions with
        | [] => false
        | first :: rest =>
            let oldest_action := min_by_timestamp first rest in
            let action_time := pa_timestamp oldest_action in
            let time_since_oldest := now - action_time in
            if timedelta_seconds (ROUND_TIMEOUT_SECONDS cfg)
               <=? time_since_oldest
            then true else false
        end
    else false.

(** The loop of lines 80-102, with its two accumulators. *)
Fixpoint collect_actions (players : list Player)
    (pending_actions : list PendingAction)
    (player_actions : list PlayerAction) (action_ids : list Z)
  : M (list PlayerAction * list Z) :=
  match pending_actions with
  | [] => mret (player_actions, action_ids)
  | action_data :: rest =>
      let player_id := pa_player_id action_data in
      match find_player player_id players with
      | Some player =>
          collect_actions players rest
            (player_actions ++
               [{| player_name := p_name player;
                   action_text := pa_action_text action_data |}])
            (action_ids ++ [pa_id action_data])
      | None =>
          db_call StLookup;;
          d ← read_db;
          match find_player player_id (tbl_players d) with
          | Some player_obj =>
              collect_actions players rest
                (player_actions ++
                   [{| player_name := p_name player_obj;
                       action_text := pa_action_text action_data |}])
                (action_ids ++ [pa_id action_data])
          | None =>
              logger (LogPlayerNotFound player_id (pa_id action_data));;
              collect_actions players rest player_actions action_ids
          end
      end
  end.

(** Lines 52-102 of [process_round]: [None] is one of the three early
    [return None]; otherwise the snapshot and the batch to resolve. *)
Definition select_actions (game_id : Z) (force : bool)
  : M (option (GameState * list PlayerAction * list Z)) :=
  game_state ← get_game_state game_id;
  match game_state with
  | None => logger (LogNotActive game_id);; mret None
  | Some game_state =>
      if negb (String.eqb (gs_status game_state) "active") then
        logger (LogNotActive game_id);; mret None
      else
        let pending_actions := gs_pending_actions game_state in
        if negb (nonempty pending_actions) && negb force then
          logger (LogNoPending game_id);; mret None
        else
          let players := gs_players game_state in
          env ← ask;
          let should_process :=
            _should_process_round (settings env) (utcnow_check env)
              game_state pending_actions force in
          if negb should_process then mret None
          else
            batch ← collect_actions players pending_actions [] [];
            mret (Some (game_state, batch.1, batch.2))
  end.

(** The narrative of lines 116 and 119. *)
Definition actions_unfold_narrative (player_actions : list PlayerAction)
  : string :=
  "*The actions unfold: "
  +:+ String.concat ", " (map action_text player_actions) +:+ "*".

(** Lines 110-116: what follows the [await] of the callback. *)
Definition after_callback (player_actions : list PlayerAction)
    (answer : CallbackResult) : M (option string) :=
  match answer with
  | CbReturn narrative =>
      (if truthy narrative then
         logger (LogGenerated (String.substring 0 100 (default "" narrative)))
       else logger LogEmptyNarrative);;
      mret narrative
  | CbRaise =>
      logger LogAIError;;
      mret (Some (actions_unfold_narrative player_actions))
  end.

(** Lines 104-119. *)
Definition generate_narrative (game_state : GameState)
    (player_actions : list PlayerAction) : M (option string) :=
  env ← ask;
  if nonempty player_actions then
    match ai_callback env with
    | Some callback =>
        logger (LogGenerating (length player_actions));;
        after_callback player_actions (callback game_state player_actions)
    | None =>
        logger LogNoCallback;;
        mret (Some (actions_unfold_narrative player_actions))
    end
  else mret None.

(** The first element satisfying [p] replaced by its image. *)
Fixpoint update_first {A} (p : A -> bool) (f : A -> A) (l : list A)
  : list A :=
  match l with
  | [] => []
  | x :: rest => if p x then f x :: rest else x :: update_first p f rest
  end.

(** Lines 128-131 on the session row of the game. *)
Definition advance_round (game_id : Z) (now : Z) (d : DB) : DB :=
  {| tbl_games := tbl_games d;
     tbl_game_sessions :=
       update_first (fun s => s_game_id s =? game_id)
         (fun s => {| s_game_id := s_game_id s;
                      round_number := round_number s + 1;
                      current_turn := None;
                      active_encounters := active_encounters s;
                      updated_at := now |})
         (tbl_game_sessions d);
     tbl_players := tbl_players d;
     tbl_game_players := tbl_game_players d;
     tbl_actions := tbl_actions d;
     tbl_game_logs := tbl_game_logs d |}.

(** The text logged at lines 135-139. *)
Definition round_message (game_state : GameState) (narrative : option string)
  : string :=
  "**Round " +:+ str_of_int (gs_round_number game_state) +:+ "**"
  +:+ newline +:+ default "" narrative.

(** Lines 121-141: three writes, each committed on its own. *)
Definition commit_round (game_id : Z) (game_state : GameState)
    (narrative : option string) (action_ids : list Z) : M (option string) :=
  (if nonempty action_ids then mark_actions_processed game_id action_ids
   else mret tt);;
  db_call StSession;;
  d ← read_db;
  match find_session game_id d with
  | Some _ =>
      env ← ask;
      write_db (advance_round game_id (utcnow_update env))
  | None => mret tt
  end;;
  (if truthy narrative then
     log_game_event game_id (round_message game_state narrative) NARRATIVE
   else mret tt);;
  mret narrative.

(** The [try ... except Exception ... finally] of lines 51 and 143-147 around
    a body. *)
Definition guarded (game_id : Z) (body : M (option string))
  : M (option string) :=
  try_finally
    (try_except body
       (fun e => logger (LogRoundError game_id e);; mret None))
    (write_active_rounds (delete game_id)).

(** Lines 52-141: the body of the [try]. *)
Definition round_body (game_id : Z) (force : bool) : M (option string) :=
  plan ← select_actions game_id force;
  match plan with
  | None => mret None
  | Some (game_state, player_actions, action_ids) =>
      narrative ← generate_narrative game_state player_actions;
      commit_round game_id game_state narrative action_ids
  end.

(** [GameEngine.process_round], run without another coroutine in between. *)
Definition process_round (game_id : Z) (force : bool) : M (option string) :=
  active ← read_active_rounds;
  match active !! game_id with
  | Some _ => logger (LogAlreadyProcessing game_id);; mret None
  | None =>
      write_active_rounds (<[game_id := true]>);;
      guarded game_id (round_body game_id force)
  end.

(** [GameEngine.queue_action] *)
Definition next_action_id (d : DB) : Z :=
  1 + fold_right Z.max 0 (map a_id (tbl_actions d)).

Definition queue_action (game_id player_id : Z) (text : string) : M Action :=
  env ← ask;
  d ← read_db;
  let action :=
    {| a_id := next_action_id d; a_game_id := game_id;
       a_player_id := player_id; a_action_text := text;
       a_timestamp := utcnow_default env; processed := false |} in
  db_call StQueue;;
  write_db (add_action action);;
  mret action.

(* ===================================================================== *)
(** * process_round as a coroutine *)
(* ===================================================================== *)

(** A coroutine gives up control at an [await] only.  [process_round] has
    one, at line 109: a call runs from its entry to that [await] in one
    piece, and from the answer of the callback to its end in another. *)

(** A call suspended at line 109, with the answer it will receive. *)
Record Awaiting := mkAwaiting {
  aw_game_id : Z;
  aw_game_state : GameState;
  aw_player_actions : list PlayerAction;
  aw_action_ids : list Z;
  aw_answer : CallbackResult
}.

Inductive Started :=
  | Finished (result : option string)
  | Suspended (k : Awaiting).

(** A finished piece: its result is the result of the call. *)
Definition finish (body : M (option string)) : M Started :=
  result ← body; mret (Finished result).

(** Lines 51-109 once the token is taken: to the end of the call, or to the
    [await] when there is a batch and a callback. *)
Definition start_guarded (game_id : Z) (force : bool) : M Started :=
  fun env w =>
    match select_actions game_id force env w with
    | (Ok (Some (game_state, player_actions, action_ids)), w1) =>
        match nonempty player_actions, ai_callback env with
        | true, Some callback =>
            (logger (LogGenerating (length player_actions));;
             mret (Suspended
               {| aw_game_id := game_id; aw_game_state := game_state;
                  aw_player_actions := player_actions;
                  aw_action_ids := action_ids;
                  aw_answer := callback game_state player_actions |}))
              env w1
        | _, _ =>
            finish (guarded game_id
              (narrative ← generate_narrative game_state player_actions;
               commit_round game_id game_state narrative action_ids)) env w1
        end
    | (Ok None, w1) => finish (guarded game_id (mret None)) env w1
    | (Raised e, w1) =>
        finish (guarded game_id (fun _ w' => (Raised e, w'))) env w1
    end.

(** From the entry of [process_round] to its end or to the [await]. *)
Definition start_round (game_id : Z) (force : bool) : M Started :=
  active ← read_active_rounds;
  match active !! game_id with
  | Some _ => logger (LogAlreadyProcessing game_id);; mret (Finished None)
  | None =>
      write_active_rounds (<[game_id := true]>);;
      start_guarded game_id force
  end.

(** From the answer of the callback to the end of [process_round]. *)
Definition resume_round (k : Awaiting) : M (option string) :=
  guarded (aw_game_id k)
    (narrative ← after_callback (aw_player_actions k) (aw_answer k);
     commit_round (aw_game_id k) (aw_game_state k) narrative
       (aw_action_ids k)).

(** One engine, its store, and the calls of [process_round] in flight. *)
Record System := mkSystem {
  sys_world : World;
  in_flight : list Awaiting
}.

(** What the event loop may run next. *)
Inductive Event :=
  | EvStart (game_id : Z) (force : bool) (env : Env)
  | EvResume (n : nat) (env : Env)
  | EvQueue (game_id player_id : Z) (text : string) (env : Env).

Definition step (ev : Event) (s : System) : System :=
  match ev with
  | EvStart game_id force env =>
      match start_round game_id force env (sys_world s) with
      | (Ok (Suspended k), w') =>
          {| sys_world := w'; in_flight := in_flight s ++ [k] |}
      | (_, w') => {| sys_world := w'; in_flight := in_flight s |}
      end
  | EvResume n env =>
      match in_flight s !! n with
      | Some k =>
          {| sys_world := (resume_round k env (sys_world s)).2;
             in_flight := delete n (in_flight s) |}
      | None => s
      end
  | EvQueue game_id player_id text env =>
      {| sys_world := (queue_action game_id player_id text env (sys_world s)).2;
         in_flight := in_flight s |}
  end.

(** The states of a freshly built engine ([active_rounds = {}]) after any
    schedule. *)
Inductive reachable : System -> Prop :=
  | reachable_init (d : DB) :
      reachable {| sys_world := {| active_rounds := ∅; db := d; logged := [] |};
                   in_flight := [] |}
  | reachable_step (ev : Event) (s : System) :
      reachable s -> reachable (step ev s).

(* ===================================================================== *)
(** * Sequences of engine operations *)
(* ===================================================================== *)

Inductive EngineOp :=
  | OpProcessRound (game_id : Z) (force : bool) (env : Env)
  | OpQueueAction (game_id player_id : Z) (text : string) (env : Env).

Definition run_op (op : EngineOp) (w : World) : World :=
  match op with
  | OpProcessRound game_id force env => (process_round game_id force env w).2
  | OpQueueAction game_id player_id text env =>
      (queue_action game_id player_id text env w).2
  end.

Definition run_ops (ops : list EngineOp) (w : World) : World :=
  fold_left (fun w op => run_op op w) ops w.

(** The token taken (line 49). *)
Definition acquire (game_id : Z) (w : World) : World :=
  {| active_rounds := <[game_id := true]> (active_rounds w);
     db := db w; logged := logged w |}.

(** A call of [process_round] resolves a round when it gets the token,
    lines 52-102 select a batch, and neither [mark_actions_processed] (run
    for a batch with ids) nor the session commit raises. *)
Definition resolves_round (game_id : Z) (force : bool) (env : Env) (w : World)
  : bool :=
  match active_rounds w !! game_id with
  | Some _ => false
  | None =>
      match select_actions game_id force env (acquire game_id w) with
      | (Ok (Some (_, _, action_ids)), _) =>
          negb (nonempty action_ids && faults env StMark)
          && negb (faults env StSession)
      | _ => false
      end
  end.

(** The number of rounds of a game resolved by a sequence of operations. *)
Fixpoint resolved_rounds (game_id : Z) (ops : list EngineOp) (w : World)
  : Z :=
  match ops with
  | [] => 0
  | op :: rest =>
      (match op with
       | OpProcessRound g force env =>
           if (g =? game_id) && resolves_round g force env w then 1 else 0
       | OpQueueAction _ _ _ _ => 0
       end)
      + resolved_rounds game_id rest (run_op op w)
  end.

(** The round number of a game: that of its session, and the [1] its
    session is created with as long as it has none. *)
Definition round_of (game_id : Z) (d : DB) : Z :=
  match find_session game_id d with
  | Some s => round_number s
  | None => 1
  end.

(** [GameStateManager.get_all_active_games] *)
Definition get_all_active_games (d : DB) : list Game :=
  List.filter (fun g => match g_status g with ACTIVE => true | _ => false end)
              (tbl_games d).

(** [GameEngine.process_all_active_games]: one [process_round(game.id)] for
    each game listed at the start, each with its own environment. *)
Definition process_all_ops (envs : Z -> Env) (w : World) : list EngineOp :=
  map (fun game => OpProcessRound (g_id game) false (envs (g_id game)))
      (get_all_active_games (db w)).

Definition process_all_active_games (envs : Z -> Env) (w : World) : World :=
  run_ops (process_all_ops envs w) w.

(* ===================================================================== *)
(** * Strings *)
(* ===================================================================== *)

(** [needle in hay] *)
Fixpoint str_contains (needle hay : string) : bool :=
  if String.prefix needle hay then true
  else
    match hay with
    | EmptyString => false
    | String _ rest => str_contains needle rest
    end.

(* ===================================================================== *)
(** * The statements compared with the code *)
(* ===================================================================== *)

(** The least timestamp of a non-empty list of pending actions. *)
Definition oldest_timestamp (first : PendingAction)
    (rest : list PendingAction) : Z :=
  fold_right Z.min (pa_timestamp first) (map pa_timestamp rest).

(** Quorum as the specification words it: every participant of the roster
    has at least one pending action. *)
Definition quorum_complete (roster : list Player)
    (pending : list PendingAction) : bool :=
  forallb (fun p => existsb (fun a => pa_player_id a =? p_id p) pending)
          roster.

(** The scheduler as stated: force; no pending action; the minimum; quorum;
    otherwise exactly when the age of the oldest pending action exceeds the
    timeout. *)
Definition stated_should_resolve (cfg : Settings) (now : Z)
    (roster : list Player) (pending : list PendingAction) (force : bool)
  : bool :=
  if force then true
  else
    match pending with
    | [] => false
    | first :: rest =>
        if MIN_PLAYERS_FOR_ROUND cfg <=? Z.of_nat (length pending) then
          if quorum_complete roster pending then true
          else timedelta_seconds (ROUND_TIMEOUT_SECONDS cfg)
               <? now - oldest_timestamp first rest
        else false
    end.

(** The scheduler as the code computes it: quorum counts the distinct
    participant ids among the pending actions against the size of the
    roster, and the timeout is reached when the age is at least
    [ROUND_TIMEOUT_SECONDS]. *)
Definition counted_should_resolve (cfg : Settings) (now : Z)
    (roster : list Player) (pending : list PendingAction) (force : bool)
  : bool :=
  force
  || match pending with
     | [] => false
     | first :: rest =>
         (MIN_PLAYERS_FOR_ROUND cfg <=? Z.of_nat (length pending))
         && ((length roster <=?
                length (remove_dups (map pa_player_id pending)))%nat
             || (timedelta_seconds (ROUND_TIMEOUT_SECONDS cfg)
                 <=? now - oldest_timestamp first rest))
     end.

(** The three writes of the commit, each applied to the durable state. *)
Definition marked (game_id : Z) (action_ids : list Z) (d : DB) : DB :=
  if nonempty action_ids then set_processed game_id action_ids d else d.

Definition advanced (game_id : Z) (now : Z) (d : DB) : DB :=
  match find_session game_id d with
  | Some _ => advance_round game_id now d
  | None => d
  end.

Definition narrated (game_id : Z) (game_state : GameState)
    (narrative : option string) (now : Z) (d : DB) : DB :=
  if truthy narrative then
    add_log {| l_game_id := game_id;
               message := round_message game_state narrative;
               l_timestamp := now; log_type := NARRATIVE |} d
  else d.

(** A world with other log records and the token of a game released. *)
Definition released (game_id : Z) (w : World) : World :=
  {| active_rounds := delete game_id (active_rounds w);
     db := db w; logged := logged w |}.

Definition set_db (d : DB) (w : World) : World :=
  {| active_rounds := active_rounds w; db := d; logged := logged w |}.

Definition with_logged (rs : list LogRecord) (w : World) : World :=
  {| active_rounds := active_rounds w; db := db w;
     logged := logged w ++ rs |}.

(* ===================================================================== *)
(** * Concrete inputs *)
(* ===================================================================== *)

Definition thorne : Player :=
  {| p_id := 1; p_platform_user_id := "user-1"; p_name := "Thorne";
     p_class_name := "Paladin"; p_stats := [("STR", 15); ("CON", 14)];
     p_hp := 20; p_max_hp := 20 |}.

Definition mira : Player :=
  {| p_id := 2; p_platform_user_id := "user-2"; p_name := "Mira";
     p_class_name := "Wizard"; p_stats := [("INT", 15); ("CON", 10)];
     p_hp := 12; p_max_hp := 12 |}.

Definition game_with (st : GameStatus) : Game :=
  {| g_id := 1; g_name := Some "Game in #general"; g_status := st;
     g_current_location := Some "Starting Location";
     g_campaign_name := Some "Test Campaign" |}.

Definition attack : Action :=
  {| a_id := 1; a_game_id := 1; a_player_id := 1;
     a_action_text := "attacks"; a_timestamp := 0; processed := false |}.

(** An active game in round 1 with one player and one pending action. *)
Definition demo_db : DB :=
  {| tbl_games := [game_with ACTIVE];
     tbl_game_sessions :=
       [{| s_game_id := 1; round_number := 1; current_turn := Some 1;
           active_encounters := []; updated_at := 0 |}];
     tbl_players := [thorne];
     tbl_game_players := [{| gp_game_id := 1; gp_player_id := 1 |}];
     tbl_actions := [attack];
     tbl_game_logs := [] |}.

(** The same game with every action resolved. *)
Definition idle_db : DB :=
  {| tbl_games := [game_with ACTIVE];
     tbl_game_sessions := tbl_game_sessions demo_db;
     tbl_players := [thorne];
     tbl_game_players := [{| gp_game_id := 1; gp_player_id := 1 |}];
     tbl_actions := [];
     tbl_game_logs := [] |}.

(** A paused game whose session has not been created. *)
Definition paused_db : DB :=
  {| tbl_games := [game_with PAUSED];
     tbl_game_sessions := [];
     tbl_players := [thorne];
     tbl_game_players := [{| gp_game_id := 1; gp_player_id := 1 |}];
     tbl_actions := [attack];
     tbl_game_logs := [] |}.

(** An active game whose session has not been created, with one pending
    action. *)
Definition new_game_db : DB :=
  {| tbl_games := [game_with ACTIVE];
     tbl_game_sessions := [];
     tbl_players := [thorne];
     tbl_game_players := [{| gp_game_id := 1; gp_player_id := 1 |}];
     tbl_actions := [attack];
     tbl_game_logs := [] |}.

Definition fresh (d : DB) : World :=
  {| active_rounds := ∅; db := d; logged := [] |}.

Definition no_fault : Stage -> bool := fun _ => false.

Definition fault_at (st : Stage) : Stage -> bool :=
  fun st' =>
    match st, st' with
    | StLoad, StLoad | StCreateSession, StCreateSession
    | StSnapshot, StSnapshot | StLookup, StLookup | StMark, StMark
    | StSession, StSession | StLog, StLog | StQueue, StQueue => true
    | _, _ => false
    end.

Definition env_of (f : Stage -> bool)
    (cb : option (GameState -> list PlayerAction -> CallbackResult)) : Env :=
  {| settings := default_settings; faults := f; utcnow_check := 5000000;
     utcnow_update := 6000000; utcnow_default := 7000000;
     ai_callback := cb |}.

Definition raising_callback : GameState -> list PlayerAction -> CallbackResult :=
  fun _ _ => CbRaise.

Definition silent_callback : GameState -> list PlayerAction -> CallbackResult :=
  fun _ _ => CbReturn None.

(** A round, an action queued, and a forced round. *)
Definition demo_ops : list EngineOp :=
  [OpProcessRound 1 false (env_of no_fault None);
   OpQueueAction 1 1 "looks around" (env_of no_fault None);
   OpProcessRound 1 true (env_of no_fault (Some raising_callback))].

(** A fresh engine on [demo_db] after a first call of [process_round] that
    awaits its callback, and that call. *)
Definition racing_system : System :=
  step (EvStart 1 false (env_of no_fault (Some raising_callback)))
    {| sys_world := fresh demo_db; in_flight := [] |}.

Definition first_call : Awaiting :=
  {| aw_game_id := 1;
     aw_game_state :=
       make_state 1 (game_with ACTIVE)
         {| s_game_id := 1; round_number := 1; current_turn := Some 1;
            active_encounters := []; updated_at := 0 |} demo_db;
     aw_player_actions :=
       [{| player_name := "Thorne"; action_text := "attacks" |}];
     aw_action_ids := [1];
     aw_answer := CbRaise |}.

(** A snapshot with a given roster, for the scheduler. *)
Definition roster_state (roster : list Player) (pending : list PendingAction)
  : GameState :=
  {| gs_game_id := 1; gs_name := None; gs_status := "active";
     gs_current_location := None; gs_campaign_name := None;
     gs_round_number := 1; gs_current_turn := None;
     gs_active_encounters := []; gs_players := roster;
     gs_pending_actions := pending; gs_recent_logs := [] |}.

Definition pending_attack (player_id : Z) (aid : Z) : PendingAction :=
  {| pa_id := aid; pa_player_id := player_id; pa_action_text := "attacks";
     pa_timestamp := 0 |}.

(* ===================================================================== *)
(** * bot/game/validation.py: the other validators *)
(* ===================================================================== *)

Definition DEFAULT_MOVEMENT_SPEED : Z := 30.

(** [StatValidator.get_stat_modifier]; [//] rounds down, as [Z.div] does
    for a positive divisor. *)
Definition get_stat_modifier (stat_value : Z) : Z := (stat_value - 10) / 2.

(** [d.get(key, default)] *)
Fixpoint dict_get (key : string) (default : Z) (d : StatDict) : Z :=
  match d with
  | [] => default
  | (k, v) :: rest => if String.eqb k key then v else dict_get key default rest
  end.

(** The sum of [handle_dm_validate] (admin.py lines 271-274) and of
    [test_stat_validation]: [STAT_POINT_COSTS.get(value, 0)] over the
    values. *)
Definition points_used (stats : StatDict) : Z :=
  fold_right (fun kv acc => default 0 (STAT_POINT_COSTS !! kv.2) + acc) 0 stats.

(** [ActionValidator.validate_action]; [current_turn] is
    [game_state.get("current_turn")], [turn_order] the optional list. *)
Definition validate_action (player : Player) (action_text : string)
    (current_turn : option Z) (turn_order : option (list Z))
  : bool * option string :=
  if p_hp player <=? 0 then
    (false, Some "You are unconscious and cannot act!")
  else
    let enforced :=
      match turn_order with
      | Some (_ :: _) => true
      | _ => false
      end in
    if enforced then
      match current_turn with
      | Some current_player_id =>
          if negb (current_player_id =? 0)
             && negb (p_id player =? current_player_id)
          then (false, Some "It's not your turn!")
          else (true, None)
      | None => (true, None)
      end
    else (true, None).

(** [ValidationSystem.validate_player_action]: no turn order is passed. *)
Definition validate_player_action (player : Player) (action_text : string)
    (current_turn : option Z) : bool * option string :=
  validate_action player action_text current_turn None.

(** [ActionValidator.validate_movement] *)
Definition validate_movement (player : Player) (distance : Z)
  : bool * option string :=
  let movement_speed := DEFAULT_MOVEMENT_SPEED in
  if movement_speed <? distance then
    (false,
     Some ("Movement exceeds your speed: " +:+ str_of_int distance
           +:+ "ft (max: " +:+ str_of_int movement_speed +:+ "ft). "
           +:+ "Use dash action to move " +:+ str_of_int (movement_speed * 2)
           +:+ "ft total."))
  else (true, None).

(** [ActionValidator.validate_hp_change] *)
Definition validate_hp_change (player : Player) (change : Z)
    (is_healing : bool) : bool * option string :=
  if is_healing then
    if p_max_hp player <? p_hp player + change then
      (false,
       Some ("Healing exceeds max HP: " +:+ str_of_int (p_hp player + change)
             +:+ "/" +:+ str_of_int (p_max_hp player)))
    else (true, None)
  else
    let con_value := dict_get "CON" 10 (p_stats player) in
    let death_threshold := - con_value in
    let new_hp := p_hp player - change in
    if new_hp <? death_threshold then
      (false,
       Some ("Damage would cause death: HP would go to " +:+ str_of_int new_hp
             +:+ " (death at " +:+ str_of_int death_threshold +:+ ")"))
    else (true, None).

(* ===================================================================== *)
(** * bot/commands/parser.py: extract_stats_from_args *)
(* ===================================================================== *)

(** [c.upper()] on an ASCII character. *)
Definition ascii_upper (c : Ascii.ascii) : Ascii.ascii :=
  let n := Ascii.nat_of_ascii c in
  if (97 <=? n)%nat && (n <=? 122)%nat then Ascii.ascii_of_nat (n - 32)
  else c.

Fixpoint str_upper (s : string) : string :=
  match s with
  | EmptyString => EmptyString
  | String c rest => String (ascii_upper c) (str_upper rest)
  end.

Definition stat_names : list string :=
  ["str"; "dex"; "con"; "int"; "wis"; "cha"].

(** The loop of [extract_stats_from_args]; [int] is Python's [int] on
    strings, [None] when it raises [ValueError]; the dictionary [stats] in
    insertion order. *)
Fixpoint extract_stats_loop (int : string -> option Z)
    (names : list string) (args : gmap string string) (stats : StatDict)
  : option StatDict :=
  match names with
  | [] => Some stats
  | stat :: rest =>
      match args !! stat with
      | Some text =>
          match int text with
          | Some value =>
              extract_stats_loop int rest args
                (stats ++ [(str_upper stat, value)])
          | None => None
          end
      | None => extract_stats_loop int rest args stats
      end
  end.

(** [CommandParser.extract_stats_from_args] *)
Definition extract_stats_from_args (int : string -> option Z)
    (args : gmap string string) : option StatDict :=
  match extract_stats_loop int stat_names args [] with
  | Some [] => None
  | Some stats => Some stats
  | None => None
  end.

(* ===================================================================== *)
(** * bot/game/state.py: the other operations of GameStateManager *)
(* ===================================================================== *)

(** A call of the state manager outside a round: it returns, with what is
    then committed, or the database raises and nothing is committed. *)
Inductive Committed (A : Type) :=
  | Returned (a : A) (d : DB)
  | DbRaised.
Arguments Returned {A} a d.
Arguments DbRaised {A}.

(** [db.add(game_player)] *)
Definition add_game_player (gp : GamePlayer) (d : DB) : DB :=
  {| tbl_games := tbl_games d;
     tbl_game_sessions := tbl_game_sessions d;
     tbl_players := tbl_players d;
     tbl_game_players := tbl_game_players d ++ [gp];
     tbl_actions := tbl_actions d;
     tbl_game_logs := tbl_game_logs d |}.

(** [GameStateManager.add_player_to_game] *)
Definition add_player_to_game (game_id player_id : Z) (db_fails : bool)
    (d : DB) : Committed bool :=
  if db_fails then DbRaised
  else
    match List.find (fun gp => (gp_game_id gp =? game_id)
                               && (gp_player_id gp =? player_id))
                    (tbl_game_players d) with
    | Some _ => Returned false d
    | None =>
        Returned true
          (add_game_player {| gp_game_id := game_id;
                              gp_player_id := player_id |} d)
    end.

(** [game.current_location = location] on the row found. *)
Definition set_location (game_id : Z) (location : string) (d : DB) : DB :=
  {| tbl_games :=
       update_first (fun g => g_id g =? game_id)
         (fun g => {| g_id := g_id g; g_name := g_name g;
                      g_status := g_status g;
                      g_current_location := Some location;
                      g_campaign_name := g_campaign_name g |})
         (tbl_games d);
     tbl_game_sessions := tbl_game_sessions d;
     tbl_players := tbl_players d;
     tbl_game_players := tbl_game_players d;
     tbl_actions := tbl_actions d;
     tbl_game_logs := tbl_game_logs d |}.

(** [GameStateManager.update_game_location] *)
Definition update_game_location (game_id : Z) (location : string)
    (db_fails : bool) (d : DB) : Committed unit :=
  if db_fails then DbRaised
  else
    match find_game game_id d with
    | Some _ => Returned tt (set_location game_id location d)
    | None => Returned tt d
    end.

(** The assignments of lines 147-154 of state.py on a session. *)
Definition assign_session (round_number' : option Z)
    (current_turn' : option Z) (active_encounters' : option (list string))
    (now : Z) (s : GameSession) : GameSession :=
  {| s_game_id := s_game_id s;
     round_number := default (round_number s) round_number';
     current_turn :=
       match current_turn' with
       | Some t => Some t
       | None => current_turn s
       end;
     active_encounters := default (active_encounters s) active_encounters';
     updated_at := now |}.

Definition set_sessions (l : list GameSession) (d : DB) : DB :=
  {| tbl_games := tbl_games d;
     tbl_game_sessions := l;
     tbl_players := tbl_players d;
     tbl_game_players := tbl_game_players d;
     tbl_actions := tbl_actions d;
     tbl_game_logs := tbl_game_logs d |}.

(** [GameStateManager.update_game_session]; [now] is the reading of the
    clock. *)
Definition update_game_session (game_id : Z) (round_number' : option Z)
    (current_turn' : option Z) (active_encounters' : option (list string))
    (now : Z) (db_fails : bool) (d : DB) : Committed unit :=
  if db_fails then DbRaised
  else
    match find_session game_id d with
    | Some _ =>
        Returned tt
          (set_sessions
             (update_first (fun s => s_game_id s =? game_id)
                (assign_session round_number' current_turn'
                   active_encounters' now)
                (tbl_game_sessions d)) d)
    | None =>
        Returned tt
          (add_session
             (assign_session round_number' current_turn' active_encounters'
                now (new_session game_id now)) d)
    end.

(* ===================================================================== *)
(** * Views of the store used in the statements *)
(* ===================================================================== *)

(** The serialization of lines 56-64 of state.py. *)
Definition pending_of (a : Action) : PendingAction :=
  {| pa_id := a_id a; pa_player_id := a_player_id a;
     pa_action_text := a_action_text a; pa_timestamp := a_timestamp a |}.

(** An action row and a later state of it: the same action, and processed
    if it was. *)
Definition same_action_later (a a' : Action) : Prop :=
  a_id a' = a_id a /\ a_game_id a' = a_game_id a
  /\ a_player_id a' = a_player_id a
  /\ a_action_text a' = a_action_text a
  /\ a_timestamp a' = a_timestamp a
  /\ (processed a = true -> processed a' = true).

(** The action table grows at its end, and its rows change as above. *)
Definition actions_extend (old new : list Action) : Prop :=
  exists kept added, new = kept ++ added /\ Forall2 same_action_later old kept.

(** The number of calls of [process_round] in a sequence. *)
Definition count_rounds (ops : list EngineOp) : nat :=
  length (List.filter (fun op => match op with
                                 | OpProcessRound _ _ _ => true
                                 | OpQueueAction _ _ _ _ => false
                                 end) ops).

(** Whether the player of a pending action is found, in the roster or in
    the table of players (lines 82-95 of engine.py). *)
Definition player_of (roster all_players : list Player) (a : PendingAction)
  : option Player :=
  match find_player (pa_player_id a) roster with
  | Some player => Some player
  | None => find_player (pa_player_id a) all_players
  end.

(** A pending action as lines 80-102 of engine.py resolve it: the player
    action and the id, when its player is found. *)
Definition resolve_action (roster all_players : list Player)
    (a : PendingAction) : option (PlayerAction * Z) :=
  match player_of roster all_players a with
  | Some player =>
      Some ({| player_name := p_name player;
               action_text := pa_action_text a |}, pa_id a)
  | None => None
  end.

(** The batch lines 80-102 build for a game from the store. *)
Definition batch_of_game (game_id : Z) (d : DB) : list (PlayerAction * Z) :=
  omap (resolve_action (players_of_game game_id d) (tbl_players d))
       (pending_actions_of_game game_id d).

(** The limits of lines 36-40 of validation.py on an item. *)
Definition in_limits (kv : string * Z) : bool :=
  (STAT_MIN <=? kv.2) && (kv.2 <=? STAT_MAX).

(** The valid wizard of the quick test of test_cli.py. *)
Definition wizard_stats : StatDict :=
  [("STR", 8); ("DEX", 14); ("CON", 13); ("INT", 15); ("WIS", 12); ("CHA", 10)].

(** Python's [int] on the numerals made of ASCII digits, the strings the
    examples of the help text give for a stat; on other strings it is not
    read here. *)
Fixpoint digits_value (acc : Z) (s : string) : option Z :=
  match s with
  | EmptyString => Some acc
  | String c rest =>
      let n := Ascii.nat_of_ascii c in
      if (48 <=? n)%nat && (n <=? 57)%nat
      then digits_value (10 * acc + Z.of_nat (n - 48)) rest
      else None
  end.

Definition decimal_int (text : string) : option Z :=
  match text with
  | EmptyString => None
  | _ => digits_value 0 text
  end.

(** The arguments of [/create name:Elara class:Wizard str:8 dex:14 con:13
    int:15 wis:12 cha:10] (the quick test of test_cli.py), as
    [_parse_key_value_args] returns them. *)
Definition wizard_args : gmap string string :=
  list_to_map
    [("name", "Elara"); ("class", "Wizard"); ("str", "8"); ("dex", "14");
     ("con", "13"); ("int", "15"); ("wis", "12"); ("cha", "10")].

(** Two active games: game 1 as in [demo_db], and game 2 in round 4 with
    Mira and one pending action of hers. *)
Definition second_game : Game :=
  {| g_id := 2; g_name := Some "Game in #tavern"; g_status := ACTIVE;
     g_current_location := Some "The Tavern";
     g_campaign_name := Some "Side Quest" |}.

Definition spell : Action :=
  {| a_id := 2; a_game_id := 2; a_player_id := 2;
     a_action_text := "casts a spell"; a_timestamp := 1; processed := false |}.

Definition two_games_db : DB :=
  {| tbl_games := [game_with ACTIVE; second_game];
     tbl_game_sessions :=
       tbl_game_sessions demo_db
       ++ [{| s_game_id := 2; round_number := 4; current_turn := None;
              active_encounters := []; updated_at := 0 |}];
     tbl_players := [thorne; mira];
     tbl_game_players := [{| gp_game_id := 1; gp_player_id := 1 |};
                          {| gp_game_id := 2; gp_player_id := 2 |}];
     tbl_actions := [attack; spell];
     tbl_game_logs := [] |}.

(** The operations of a sequence that name a game. *)
Definition op_game (op : EngineOp) : Z :=
  match op with
  | OpProcessRound game_id _ _ => game_id
  | OpQueueAction game_id _ _ _ => game_id
  end.

(* ===================================================================== *)
(** * The engine among the other coroutines *)
(* ===================================================================== *)

(** [game.status = status] on the row of a game. *)
Definition set_status (game_id : Z) (st : GameStatus) (d : DB) : DB :=
  {| tbl_games :=
       update_first (fun g => g_id g =? game_id)
         (fun g => {| g_id := g_id g; g_name := g_name g;
                      g_status := st;
                      g_current_location := g_current_location g;
                      g_campaign_name := g_campaign_name g |})
         (tbl_games d);
     tbl_game_sessions := tbl_game_sessions d;
     tbl_players := tbl_players d;
     tbl_game_players := tbl_game_players d;
     tbl_actions := tbl_actions d;
     tbl_game_logs := tbl_game_logs d |}.

(** What [handle_dm_pause] (admin.py lines 105-121) commits: the status
    PAUSED on the active game it found in the channel, here given by its
    id; nothing when that game is not active. *)
Definition dm_pause (game_id : Z) (d : DB) : DB :=
  match find_game game_id d with
  | Some game =>
      match g_status game with
      | ACTIVE => set_status game_id PAUSED d
      | _ => d
      end
  | None => d
  end.

(** What the event loop runs: an event of the engine, or a write that
    another coroutine (a command handler) commits, which may come between
    the two pieces of a call of [process_round]. *)
Inductive LoopEvent :=
  | EvEngine (ev : Event)
  | EvCommit (write : DB -> DB).

Definition loop_step (ev : LoopEvent) (s : System) : System :=
  match ev with
  | EvEngine ev => step ev s
  | EvCommit write =>
      {| sys_world := set_db (write (db (sys_world s))) (sys_world s);
         in_flight := in_flight s |}
  end.

Definition loop_run (evs : list LoopEvent) (s : System) : System :=
  fold_left (fun s ev => loop_step ev s) evs s.

(** A game that has a row and is waiting, paused or ended. *)
Definition inactive (game_id : Z) (d : DB) : Prop :=
  exists game, find_game game_id d = Some game /\ g_status game <> ACTIVE.

(** A write of another coroutine that does not activate a game and does
    not touch its session. *)
Definition keeps_inactive (game_id : Z) (write : DB -> DB) : Prop :=
  forall d,
    inactive game_id d ->
    inactive game_id (write d)
    /\ find_session game_id (write d) = find_session game_id d.

Definition event_keeps_inactive (game_id : Z) (ev : LoopEvent) : Prop :=
  match ev with
  | EvEngine _ => True
  | EvCommit write => keeps_inactive game_id write
  end.

(** The calls of [process_round] for a game that await the narrator. *)
Definition calls_in_flight (game_id : Z) (s : System) : nat :=
  length (List.filter (fun k => aw_game_id k =? game_id) (in_flight s)).

(** The call of [racing_system] awaits the narrator, and the game is
    paused. *)
Definition paused_while_narrating : System :=
  loop_step (EvCommit (dm_pause 1)) racing_system.

(** Then: a forced call, the pause command again, and the narrator's answer
    to the first call. *)
Definition after_the_pause : list LoopEvent :=
  [EvEngine (EvStart 1 true (env_of no_fault (Some raising_callback)));
   EvCommit (dm_pause 1);
   EvEngine (EvResume 0 (env_of no_fault (Some raising_callback)))].

(* ===================================================================== *)
(** * Stat validation *)
(* ===================================================================== *)

Lemma example_stats_cost : total_points_from 0 example_stats = inl 32.
Proof. vm_compute. reflexivity. Qed.

(** C2.  On the allocation STR 15, DEX 12, CON 14, INT 10, WIS 13, CHA 13
    the validator answers [False]: every value is within 8..15, but the
    costs 9 + 4 + 7 + 2 + 5 + 5 = 32 exceed the budget of 27.  The all-18
    allocation is rejected at its first item, above [STAT_MAX]. *)
Theorem validate_stat_allocation_examples :
  validate_stat_allocation example_stats
  = (false,
     Some "Total points exceeded: 32/27. Please redistribute your stat points.")
  /\ validate_stat_allocation all_18_stats
     = (false, Some "STR exceeds maximum: 18 (max: 15)").
Proof. split; vm_compute; reflexivity. Qed.

(* ===================================================================== *)
(** * Strings: what a joined text contains *)
(* ===================================================================== *)

Lemma append_assoc3 (a b c : string) : (a +:+ b) +:+ c = a +:+ b +:+ c.
Proof.
  induction a as [|ch a IH]; [reflexivity|].
  exact (f_equal (String ch) IH).
Qed.

Lemma append_empty_r (a : string) : a +:+ "" = a.
Proof.
  induction a as [|ch a IH]; [reflexivity|].
  exact (f_equal (String ch) IH).
Qed.

Lemma prefix_append (s t : string) : String.prefix s (s +:+ t) = true.
Proof.
  induction s as [|ch s IH].
  - destruct t; reflexivity.
  - change (String ch s +:+ t) with (String ch (s +:+ t)). simpl.
    destruct (Ascii.ascii_dec ch ch) as [_|ne]; [exact IH | now destruct ne].
Qed.

Lemma str_contains_unfold (needle hay : string) :
  str_contains needle hay
  = if String.prefix needle hay then true
    else match hay with
         | EmptyString => false
         | String _ rest => str_contains needle rest
         end.
Proof. destruct hay; reflexivity. Qed.

Lemma str_contains_prefix (needle hay : string) :
  String.prefix needle hay = true -> str_contains needle hay = true.
Proof. intros H. rewrite str_contains_unfold, H. reflexivity. Qed.

Lemma str_contains_middle (needle pre post : string) :
  str_contains needle (pre +:+ needle +:+ post) = true.
Proof.
  induction pre as [|ch pre IH].
  - change ("" +:+ needle +:+ post) with (needle +:+ post).
    apply str_contains_prefix, prefix_append.
  - change (String ch pre +:+ needle +:+ post)
      with (String ch (pre +:+ needle +:+ post)).
    rewrite str_contains_unfold, IH. now destruct (String.prefix needle _).
Qed.

(** Every joined item stands in the joined text. *)
Lemma concat_splits {A} (f : A -> string) (sep : string) (l : list A) (x : A) :
  x ∈ l ->
  exists pre post, String.concat sep (map f l) = pre +:+ f x +:+ post.
Proof.
  induction l as [|y l IH]; intros Hin.
  - now apply elem_of_nil in Hin.
  - apply elem_of_cons in Hin as [->|Hin].
    + destruct l as [|z l]; simpl.
      * exists "", "". change (f y = f y +:+ ""). now rewrite append_empty_r.
      * exists "", (sep +:+ String.concat sep (f z :: map f l)). reflexivity.
    + destruct (IH Hin) as (pre & post & Heq).
      destruct l as [|z l]; [now apply elem_of_nil in Hin|].
      exists (f y +:+ sep +:+ pre), post.
      change (String.concat sep (map f (y :: z :: l)))
        with (f y +:+ sep +:+ String.concat sep (map f (z :: l))).
      rewrite Heq. now rewrite !append_assoc3.
Qed.

Lemma wrapped_concat_contains {A} (f : A -> string) (sep before after : string)
    (l : list A) :
  Forall (fun x =>
            str_contains (f x)
              (before +:+ String.concat sep (map f l) +:+ after) = true) l.
Proof.
  apply Forall_forall. intros x Hin.
  destruct (concat_splits f sep l x Hin) as (pre & post & ->).
  replace (before +:+ (pre +:+ f x +:+ post) +:+ after)
    with ((before +:+ pre) +:+ f x +:+ (post +:+ after))
    by now rewrite !append_assoc3.
  apply str_contains_middle.
Qed.

(* ===================================================================== *)
(** * The pieces of a round, run on a world *)
(* ===================================================================== *)

Ltac unfold_m :=
  unfold mbind, M_bind, bind, mret, M_ret, ret, ask, read_db, write_db,
    db_call, logger, read_active_rounds, write_active_rounds in *.

Lemma get_game_state_run (game_id : Z) (env : Env) (w : World) :
  get_game_state game_id env w =
  if faults env StLoad then (Raised (DbError StLoad), w)
  else
    match find_game game_id (db w) with
    | None => (Ok None, w)
    | Some game =>
        match find_session game_id (db w) with
        | Some session =>
            if faults env StSnapshot then (Raised (DbError StSnapshot), w)
            else (Ok (Some (make_state game_id game session (db w))), w)
        | None =>
            if faults env StCreateSession
            then (Raised (DbError StCreateSession), w)
            else
              let session := new_session game_id (utcnow_default env) in
              let w' := {| active_rounds := active_rounds w;
                           db := add_session session (db w);
                           logged := logged w |} in
              if faults env StSnapshot
              then (Raised (DbError StSnapshot), w')
              else (Ok (Some (make_state game_id game session (db w'))), w')
        end
    end.
Proof.
  unfold get_game_state. unfold_m.
  destruct (faults env StLoad); [reflexivity|].
  destruct (find_game game_id (db w)) as [game|]; [|reflexivity].
  destruct (find_session game_id (db w)) as [session|].
  - destruct (faults env StSnapshot); reflexivity.
  - destruct (faults env StCreateSession); [reflexivity|]. simpl.
    destruct (faults env StSnapshot); reflexivity.
Qed.

(** The loop of lines 80-102 writes nothing. *)
Lemma collect_actions_frame (players : list Player)
    (pending_actions : list PendingAction) :
  forall player_actions action_ids env w,
    db (collect_actions players pending_actions player_actions action_ids
          env w).2 = db w
    /\ active_rounds
         (collect_actions players pending_actions player_actions action_ids
            env w).2 = active_rounds w.
Proof.
  induction pending_actions as [|action_data rest IH]; intros; simpl.
  - split; reflexivity.
  - destruct (find_player _ players) as [player|]; [apply IH|].
    unfold_m. destruct (faults env StLookup); [split; reflexivity|].
    destruct (find_player _ (tbl_players (db w))) as [player_obj|];
      [apply IH|].
    simpl. destruct (IH player_actions action_ids env
      {| active_rounds := active_rounds w; db := db w;
         logged := logged w ++
           [LogPlayerNotFound (pa_player_id action_data) (pa_id action_data)]
      |}) as [H1 H2].
    split; assumption.
Qed.

Lemma generate_narrative_run (game_state : GameState)
    (player_actions : list PlayerAction) (env : Env) (w : World) :
  generate_narrative game_state player_actions env w =
  match player_actions, ai_callback env with
  | [], _ => (Ok None, w)
  | _ :: _, None =>
      (Ok (Some (actions_unfold_narrative player_actions)),
       with_logged [LogNoCallback] w)
  | _ :: _, Some callback =>
      match callback game_state player_actions with
      | CbRaise =>
          (Ok (Some (actions_unfold_narrative player_actions)),
           with_logged [LogAIError]
             (with_logged [LogGenerating (length player_actions)] w))
      | CbReturn narrative =>
          (Ok narrative,
           with_logged
             [if truthy narrative
              then LogGenerated (String.substring 0 100 (default "" narrative))
              else LogEmptyNarrative]
             (with_logged [LogGenerating (length player_actions)] w))
      end
  end.
Proof.
  unfold generate_narrative, after_callback. unfold_m.
  destruct player_actions as [|a rest]; [reflexivity|]. simpl.
  destruct (ai_callback env) as [callback|]; [|reflexivity].
  destruct (callback game_state (a :: rest)) as [narrative|]; [|reflexivity].
  destruct (truthy narrative); reflexivity.
Qed.

Lemma commit_round_run (game_id : Z) (game_state : GameState)
    (narrative : option string) (action_ids : list Z) (env : Env)
    (w : World) :
  commit_round game_id game_state narrative action_ids env w =
  let d1 := marked game_id action_ids (db w) in
  let d2 := advanced game_id (utcnow_update env) d1 in
  let d3 := narrated game_id game_state narrative (utcnow_default env) d2 in
  if nonempty action_ids && faults env StMark
  then (Raised (DbError StMark), w)
  else if faults env StSession then (Raised (DbError StSession), set_db d1 w)
  else if truthy narrative && faults env StLog
  then (Raised (DbError StLog), set_db d2 w)
  else (Ok narrative, set_db d3 w).
Proof.
  unfold commit_round, mark_actions_processed, log_game_event, marked,
    advanced, narrated, set_db.
  unfold_m.
  destruct (nonempty action_ids); simpl.
  - destruct (faults env StMark); [reflexivity|]. simpl.
    destruct (faults env StSession); [reflexivity|].
    destruct (find_session game_id _); simpl;
      destruct (truthy narrative); simpl; try reflexivity;
      destruct (faults env StLog); reflexivity.
  - destruct (faults env StSession); [reflexivity|].
    destruct (find_session game_id (db w)); simpl;
      destruct (truthy narrative); simpl; try reflexivity;
      destruct (faults env StLog); reflexivity.
Qed.

Lemma select_actions_run (game_id : Z) (force : bool) (env : Env) (w : World) :
  select_actions game_id force env w =
  match get_game_state game_id env w with
  | (Raised e, w1) => (Raised e, w1)
  | (Ok None, w1) => (Ok None, with_logged [LogNotActive game_id] w1)
  | (Ok (Some game_state), w1) =>
      let pending_actions := gs_pending_actions game_state in
      if negb (String.eqb (gs_status game_state) "active")
      then (Ok None, with_logged [LogNotActive game_id] w1)
      else if negb (nonempty pending_actions) && negb force
      then (Ok None, with_logged [LogNoPending game_id] w1)
      else if negb (_should_process_round (settings env) (utcnow_check env)
                      game_state pending_actions force)
      then (Ok None, w1)
      else
        match collect_actions (gs_players game_state) pending_actions [] []
                env w1 with
        | (Ok batch, w2) => (Ok (Some (game_state, batch.1, batch.2)), w2)
        | (Raised e, w2) => (Raised e, w2)
        end
  end.
Proof.
  unfold select_actions.
  change (mbind ?k ?m) with (bind m k).
  unfold bind at 1.
  destruct (get_game_state game_id env w) as [[[game_state|]|e] w1];
    try reflexivity.
  simpl.
  destruct (negb (String.eqb _ _)); [reflexivity|].
  destruct (negb (nonempty _) && negb force); [reflexivity|].
  unfold_m.
  destruct (negb (_should_process_round _ _ _ _ _)); [reflexivity|].
  destruct (collect_actions _ _ _ _ env w1) as [[batch|e] w2]; reflexivity.
Qed.

Lemma guarded_run (game_id : Z) (body : M (option string)) (env : Env)
    (w : World) :
  guarded game_id body env w =
  match body env w with
  | (Ok result, w1) => (Ok result, released game_id w1)
  | (Raised e, w1) =>
      (Ok None, released game_id (with_logged [LogRoundError game_id e] w1))
  end.
Proof.
  unfold guarded, try_finally, try_except. unfold_m.
  destruct (body env w) as [[result|e] w1]; reflexivity.
Qed.

Lemma process_round_run (game_id : Z) (force : bool) (env : Env) (w : World) :
  process_round game_id force env w =
  match active_rounds w !! game_id with
  | Some _ => (Ok None, with_logged [LogAlreadyProcessing game_id] w)
  | None => guarded game_id (round_body game_id force) env (acquire game_id w)
  end.
Proof.
  unfold process_round. unfold_m.
  destruct (active_rounds w !! game_id); reflexivity.
Qed.

Lemma round_body_run (game_id : Z) (force : bool) (env : Env) (w : World) :
  round_body game_id force env w =
  match select_actions game_id force env w with
  | (Ok (Some (game_state, player_actions, action_ids)), w1) =>
      match generate_narrative game_state player_actions env w1 with
      | (Ok narrative, w2) =>
          commit_round game_id game_state narrative action_ids env w2
      | (Raised e, w2) => (Raised e, w2)
      end
  | (Ok None, w1) => (Ok None, w1)
  | (Raised e, w1) => (Raised e, w1)
  end.
Proof.
  unfold round_body. unfold_m.
  destruct (select_actions game_id force env w)
    as [[[[[game_state player_actions] action_ids]|]|e] w1]; reflexivity.
Qed.

(* ===================================================================== *)
(** * The session row and the round number *)
(* ===================================================================== *)

Lemma find_session_add_session (game_id : Z) (s : GameSession) (d : DB) :
  find_session game_id (add_session s d) =
  match find_session game_id d with
  | Some x => Some x
  | None => if s_game_id s =? game_id then Some s else None
  end.
Proof.
  unfold find_session, add_session. simpl.
  induction (tbl_game_sessions d) as [|x l IH]; simpl; [reflexivity|].
  destruct (s_game_id x =? game_id); [reflexivity | exact IH].
Qed.

Lemma round_of_add_new_session (game_id g : Z) (now : Z) (d : DB) :
  find_session game_id d = None ->
  round_of g (add_session (new_session game_id now) d) = round_of g d.
Proof.
  intros Hnone. unfold round_of. rewrite find_session_add_session.
  destruct (find_session g d) as [x|] eqn:Hg; [reflexivity|].
  simpl. destruct (game_id =? g); reflexivity.
Qed.

Lemma find_update_first (game_id g : Z) (f : GameSession -> GameSession)
    (l : list GameSession) :
  (forall s, s_game_id (f s) = s_game_id s) ->
  List.find (fun s => s_game_id s =? g)
    (update_first (fun s => s_game_id s =? game_id) f l)
  = if game_id =? g
    then option_map f (List.find (fun s => s_game_id s =? g) l)
    else List.find (fun s => s_game_id s =? g) l.
Proof.
  intros Hf. induction l as [|x l IH]; simpl.
  - destruct (game_id =? g); reflexivity.
  - destruct (s_game_id x =? game_id) eqn:Hx; simpl.
    + rewrite Hf. apply Z.eqb_eq in Hx. rewrite Hx.
      destruct (game_id =? g); reflexivity.
    + rewrite IH. destruct (game_id =? g) eqn:Hg; [|reflexivity].
      apply Z.eqb_eq in Hg. subst g. rewrite Hx. reflexivity.
Qed.

Lemma find_session_advance_round (game_id g : Z) (now : Z) (d : DB) :
  find_session g (advance_round game_id now d) =
  if game_id =? g
  then option_map
         (fun s => {| s_game_id := s_game_id s;
                      round_number := round_number s + 1;
                      current_turn := None;
                      active_encounters := active_encounters s;
                      updated_at := now |})
         (find_session g d)
  else find_session g d.
Proof.
  unfold find_session, advance_round. simpl.
  now apply find_update_first.
Qed.

Lemma round_of_advanced (game_id g : Z) (now : Z) (d : DB) :
  round_of g (advanced game_id now d) =
  round_of g d
  + (if (game_id =? g) && bool_decide (is_Some (find_session game_id d))
     then 1 else 0).
Proof.
  unfold advanced, round_of.
  destruct (find_session game_id d) as [s|] eqn:Hs.
  - rewrite find_session_advance_round.
    destruct (game_id =? g) eqn:Hg; simpl.
    + apply Z.eqb_eq in Hg. subst g. rewrite Hs. simpl. lia.
    + destruct (find_session g d); lia.
  - rewrite andb_false_r. destruct (find_session g d); lia.
Qed.

Lemma round_of_marked (game_id g : Z) (action_ids : list Z) (d : DB) :
  round_of g (marked game_id action_ids d) = round_of g d.
Proof. unfold marked. destruct (nonempty action_ids); reflexivity. Qed.

Lemma round_of_narrated (game_id g : Z) (game_state : GameState)
    (narrative : option string) (now : Z) (d : DB) :
  round_of g (narrated game_id game_state narrative now d) = round_of g d.
Proof. unfold narrated. destruct (truthy narrative); reflexivity. Qed.

Lemma find_session_marked (game_id g : Z) (action_ids : list Z) (d : DB) :
  find_session g (marked game_id action_ids d) = find_session g d.
Proof. unfold marked. destruct (nonempty action_ids); reflexivity. Qed.

Ltac effect_cases :=
  split;
  [ first [assumption | reflexivity]
  | split;
    [ first [ left; first [assumption | reflexivity]
            | right; split; first [assumption | reflexivity]
            | assumption ]
    | intros ? ?; try discriminate ] ].

(** What [get_game_state] leaves in the store: nothing new, or the session
    of a game that had none. *)
Lemma get_game_state_effect (game_id : Z) (env : Env) (w : World) :
  let out := get_game_state game_id env w in
  active_rounds out.2 = active_rounds w
  /\ (db out.2 = db w
      \/ (find_session game_id (db w) = None
          /\ db out.2
             = add_session (new_session game_id (utcnow_default env)) (db w)))
  /\ (forall game_state, out.1 = Ok (Some game_state) ->
        is_Some (find_session game_id (db out.2))).
Proof.
  rewrite get_game_state_run.
  destruct (faults env StLoad); simpl; [effect_cases|].
  destruct (find_game game_id (db w)) as [game|]; simpl; [|effect_cases].
  destruct (find_session game_id (db w)) as [session|] eqn:Hs.
  - destruct (faults env StSnapshot); simpl; effect_cases.
    rewrite Hs. eauto.
  - destruct (faults env StCreateSession); simpl; [effect_cases|].
    destruct (faults env StSnapshot); simpl; effect_cases.
    rewrite find_session_add_session, Hs. simpl.
    rewrite Z.eqb_refl. eauto.
Qed.

(** Lines 52-102 leave in the store what [get_game_state] left. *)
Lemma select_actions_effect (game_id : Z) (force : bool) (env : Env)
    (w : World) :
  let out := select_actions game_id force env w in
  active_rounds out.2 = active_rounds w
  /\ (db out.2 = db w
      \/ (find_session game_id (db w) = None
          /\ db out.2
             = add_session (new_session game_id (utcnow_default env)) (db w)))
  /\ (forall plan, out.1 = Ok (Some plan) ->
        is_Some (find_session game_id (db out.2))).
Proof.
  rewrite select_actions_run.
  destruct (get_game_state_effect game_id env w) as (Ha & Hd & Hs).
  destruct (get_game_state game_id env w) as [[[game_state|]|e] w1];
    simpl in *; [|effect_cases..].
  specialize (Hs game_state eq_refl).
  destruct (negb (String.eqb _ _)); simpl; [effect_cases|].
  destruct (negb (nonempty _) && negb force); simpl; [effect_cases|].
  destruct (negb (_should_process_round _ _ _ _ _)); simpl; [effect_cases|].
  destruct (collect_actions_frame (gs_players game_state)
              (gs_pending_actions game_state) [] [] env w1) as [Hdb Hact].
  destruct (collect_actions _ _ _ _ env w1) as [[batch|e] w2]; simpl in *;
    rewrite ?Hdb, ?Hact; effect_cases.
  assumption.
Qed.

(* ===================================================================== *)
(** * The commit of a round *)
(* ===================================================================== *)

(** A call that holds the token, has selected a batch and has a narrative
    goes on with lines 121-147. *)
Lemma process_round_reaches_commit (game_id : Z) (force : bool) (env : Env)
    (w w1 w2 : World) (game_state : GameState)
    (player_actions : list PlayerAction) (action_ids : list Z)
    (narrative : option string) :
  active_rounds w !! game_id = None ->
  select_actions game_id force env (acquire game_id w)
  = (Ok (Some (game_state, player_actions, action_ids)), w1) ->
  generate_narrative game_state player_actions env w1 = (Ok narrative, w2) ->
  process_round game_id force env w
  = guarded game_id (commit_round game_id game_state narrative action_ids)
      env w2.
Proof.
  intros Hfree Hsel Hnar.
  rewrite process_round_run, Hfree, !guarded_run, round_body_run, Hsel, Hnar.
  reflexivity.
Qed.

(** C1, as the code has it.  The commit is three writes, each committed on
    its own and in this order: the actions of the batch are marked
    processed; the round number is incremented and the turn cleared; the
    narrative is logged.  When one of them fails the earlier ones stay
    applied and the later ones are not run; the error is logged, the token
    released and [None] returned. *)
Theorem commit_is_three_separate_writes (game_id : Z) (force : bool)
    (env : Env) (w w1 w2 : World) (game_state : GameState)
    (player_actions : list PlayerAction) (action_ids : list Z)
    (narrative : option string) :
  active_rounds w !! game_id = None ->
  select_actions game_id force env (acquire game_id w)
  = (Ok (Some (game_state, player_actions, action_ids)), w1) ->
  generate_narrative game_state player_actions env w1 = (Ok narrative, w2) ->
  let d1 := marked game_id action_ids (db w2) in
  let d2 := advanced game_id (utcnow_update env) d1 in
  let d3 := narrated game_id game_state narrative (utcnow_default env) d2 in
  let failed st d :=
    (Ok None,
     released game_id
       (with_logged [LogRoundError game_id (DbError st)] (set_db d w2))) in
  process_round game_id force env w =
  if nonempty action_ids && faults env StMark then failed StMark (db w2)
  else if faults env StSession then failed StSession d1
  else if truthy narrative && faults env StLog then failed StLog d2
  else (Ok narrative, released game_id (set_db d3 w2)).
Proof.
  intros Hfree Hsel Hnar.
  rewrite (process_round_reaches_commit _ _ _ _ _ _ _ _ _ _ Hfree Hsel Hnar).
  rewrite guarded_run, commit_round_run. simpl.
  destruct (nonempty action_ids && faults env StMark); [reflexivity|].
  destruct (faults env StSession); [reflexivity|].
  destruct (truthy narrative && faults env StLog); reflexivity.
Qed.

(** The session commit fails after the action has been marked: the action
    stays processed and the game stays in round 1. *)
Lemma commit_is_three_separate_writes_witness :
  process_round 1 false (env_of (fault_at StSession) None) (fresh demo_db)
  = (Ok None,
     {| active_rounds := ∅;
        db := set_processed 1 [1] demo_db;
        logged := [LogNoCallback; LogRoundError 1 (DbError StSession)] |}).
Proof.
  rewrite (commit_is_three_separate_writes 1 false
             (env_of (fault_at StSession) None) (fresh demo_db)
             (acquire 1 (fresh demo_db))
             (with_logged [LogNoCallback] (acquire 1 (fresh demo_db)))
             (make_state 1 (game_with ACTIVE)
                {| s_game_id := 1; round_number := 1; current_turn := Some 1;
                   active_encounters := []; updated_at := 0 |} demo_db)
             [{| player_name := "Thorne"; action_text := "attacks" |}] [1]
             (Some "*The actions unfold: attacks*")).
  - vm_compute. reflexivity.
  - vm_compute. reflexivity.
  - vm_compute. reflexivity.
  - vm_compute. reflexivity.
Defined.

(** Against C1 as stated: a commit that fails at its second write has
    durably applied its first; the action is processed in a game whose round
    number has not advanced. *)
Lemma commit_not_atomic :
  let out :=
    process_round 1 false (env_of (fault_at StSession) None) (fresh demo_db) in
  out.1 = Ok None
  /\ logged out.2 = [LogNoCallback; LogRoundError 1 (DbError StSession)]
  /\ map processed (tbl_actions (db out.2)) = [true]
  /\ map processed (tbl_actions demo_db) = [false]
  /\ round_of 1 (db out.2) = round_of 1 demo_db
  /\ db out.2 <> demo_db.
Proof.
  vm_compute. repeat split; try reflexivity. intros H. discriminate H.
Qed.

(* ===================================================================== *)
(** * The round number along the operations of the engine *)
(* ===================================================================== *)

Lemma generate_narrative_effect (game_state : GameState)
    (player_actions : list PlayerAction) (env : Env) (w : World) :
  exists narrative w2,
    generate_narrative game_state player_actions env w = (Ok narrative, w2)
    /\ db w2 = db w /\ active_rounds w2 = active_rounds w.
Proof.
  rewrite generate_narrative_run.
  destruct player_actions as [|a rest]; [eauto|].
  destruct (ai_callback env) as [callback|]; [|eauto].
  destruct (callback game_state (a :: rest)); eauto.
Qed.

Lemma select_actions_round_of (game_id g : Z) (force : bool) (env : Env)
    (w : World) :
  round_of g (db (select_actions game_id force env w).2) = round_of g (db w).
Proof.
  destruct (select_actions_effect game_id force env w)
    as (_ & [Hd | [Hnone Hd]] & _); rewrite Hd; [reflexivity|].
  now apply round_of_add_new_session.
Qed.

(** One call of [process_round]: the round number of a game grows by one
    when the call resolves a round of that game, and stays otherwise. *)
Lemma process_round_round_of (game_id g : Z) (force : bool) (env : Env)
    (w : World) :
  round_of g (db (process_round game_id force env w).2)
  = round_of g (db w)
    + (if (game_id =? g) && resolves_round game_id force env w then 1 else 0).
Proof.
  rewrite process_round_run. unfold resolves_round.
  destruct (active_rounds w !! game_id) as [held|].
  { rewrite andb_false_r. simpl. lia. }
  rewrite guarded_run, round_body_run.
  pose proof (select_actions_round_of game_id g force env (acquire game_id w))
    as Hround.
  destruct (select_actions_effect game_id force env (acquire game_id w))
    as (_ & _ & Hsome).
  destruct (select_actions game_id force env (acquire game_id w))
    as [[[[[game_state player_actions] action_ids]|]|e] w1]; simpl in *.
  - destruct (Hsome _ eq_refl) as [s Hs].
    destruct (generate_narrative_effect game_state player_actions env w1)
      as (narrative & w2 & -> & Hdb & _).
    rewrite commit_round_run. simpl. rewrite Hdb.
    destruct (nonempty action_ids && faults env StMark); simpl.
    { rewrite Hdb, Hround, andb_false_r. lia. }
    destruct (faults env StSession); simpl.
    { rewrite round_of_marked, Hround, andb_false_r. lia. }
    assert (Hadv : round_of g (advanced game_id (utcnow_update env)
                                 (marked game_id action_ids (db w1)))
                   = round_of g (db w) + (if game_id =? g then 1 else 0)).
    { rewrite round_of_advanced, round_of_marked, find_session_marked, Hs,
        Hround.
      rewrite bool_decide_eq_true_2 by eauto. now rewrite andb_true_r. }
    rewrite andb_true_r.
    destruct (truthy narrative && faults env StLog); simpl.
    + exact Hadv.
    + rewrite round_of_narrated. exact Hadv.
  - rewrite Hround, andb_false_r. lia.
  - rewrite Hround, andb_false_r. lia.
Qed.

Lemma queue_action_round_of (game_id player_id g : Z) (text : string)
    (env : Env) (w : World) :
  round_of g (db (queue_action game_id player_id text env w).2)
  = round_of g (db w).
Proof.
  unfold queue_action. unfold_m.
  destruct (faults env StQueue); reflexivity.
Qed.

Lemma resolved_rounds_bounds (g : Z) (ops : list EngineOp) :
  forall w, 0 <= resolved_rounds g ops w <= Z.of_nat (length ops).
Proof.
  induction ops as [|op ops IH]; intros w; simpl; [lia|].
  specialize (IH (run_op op w)).
  destruct op as [game_id force env|]; [|lia].
  destruct ((game_id =? g) && resolves_round game_id force env w); lia.
Qed.

Lemma run_ops_round_of (g : Z) (ops : list EngineOp) :
  forall w,
    round_of g (db (run_ops ops w))
    = round_of g (db w) + resolved_rounds g ops w.
Proof.
  induction ops as [|op ops IH]; intros w; simpl; [lia|].
  unfold run_ops in IH. rewrite IH.
  destruct op as [game_id force env|game_id player_id text env]; simpl.
  - rewrite process_round_round_of. lia.
  - rewrite queue_action_round_of. lia.
Qed.

(** C5.  The session a game is given has round number 1.  Along any
    sequence of [process_round] and [queue_action] calls (and so along
    [process_all_active_games], which is such a sequence) the round number
    of a game is its initial value plus the number of rounds of that game
    the sequence resolved: each resolved round adds exactly one, nothing
    else changes it, and it never decreases. *)
Theorem round_number_counts_resolved_rounds (g : Z) (ops : list EngineOp)
    (w : World) :
  (forall env s,
      find_session g (db w) = None ->
      find_session g (db (get_game_state g env w).2) = Some s ->
      round_number s = 1)
  /\ round_of g (db (run_ops ops w))
     = round_of g (db w) + resolved_rounds g ops w
  /\ 0 <= resolved_rounds g ops w <= Z.of_nat (length ops)
  /\ round_of g (db w) <= round_of g (db (run_ops ops w))
  /\ (forall envs,
        round_of g (db (process_all_active_games envs w))
        = round_of g (db w) + resolved_rounds g (process_all_ops envs w) w).
Proof.
  pose proof (resolved_rounds_bounds g ops w) as Hb.
  pose proof (run_ops_round_of g ops w) as Hr.
  split; [|split; [exact Hr | split; [exact Hb | split; [lia|]]]].
  - intros env s Hnone Hs.
    destruct (get_game_state_effect g env w) as (_ & [Hd | [_ Hd]] & _);
      rewrite Hd in Hs.
    + congruence.
    + rewrite find_session_add_session, Hnone in Hs. simpl in Hs.
      rewrite Z.eqb_refl in Hs. now inversion Hs.
  - intros envs. apply run_ops_round_of.
Qed.

Lemma round_number_counts_resolved_rounds_witness :
  round_number (new_session 1 7000000) = 1
  /\ round_of 1 (db (run_ops demo_ops (fresh new_game_db))) = 1 + 2.
Proof.
  destruct (round_number_counts_resolved_rounds 1 demo_ops (fresh new_game_db))
    as (Hstart & Hrun & _).
  split.
  - apply (Hstart (env_of no_fault None)); vm_compute; reflexivity.
  - rewrite Hrun. vm_compute. reflexivity.
Defined.

(* ===================================================================== *)
(** * A forced round without pending actions *)
(* ===================================================================== *)

(** C10.  For an active game without pending actions, [process_round] with
    [force] set, the token free and the database answering, increments the
    round number, clears [current_turn], returns [None] and appends no log
    entry. *)
Theorem forced_round_without_actions (game_id : Z) (env : Env) (w : World)
    (game : Game) :
  active_rounds w !! game_id = None ->
  find_game game_id (db w) = Some game ->
  g_status game = ACTIVE ->
  pending_actions_of_game game_id (db w) = [] ->
  (forall st, faults env st = false) ->
  let out := process_round game_id true env w in
  out.1 = Ok None
  /\ round_of game_id (db out.2) = round_of game_id (db w) + 1
  /\ (exists s, find_session game_id (db out.2) = Some s
                /\ round_number s = round_of game_id (db w) + 1
                /\ current_turn s = None)
  /\ tbl_game_logs (db out.2) = tbl_game_logs (db w)
  /\ tbl_actions (db out.2) = tbl_actions (db w)
  /\ active_rounds out.2 = active_rounds w.
Proof.
  intros Hfree Hgame Hactive Hpending Hok out.
  assert (Hsel : exists game_state w1,
             select_actions game_id true env (acquire game_id w)
             = (Ok (Some (game_state, [], [])), w1)
             /\ active_rounds w1 = <[game_id := true]> (active_rounds w)
             /\ tbl_game_logs (db w1) = tbl_game_logs (db w)
             /\ tbl_actions (db w1) = tbl_actions (db w)
             /\ round_of game_id (db w1) = round_of game_id (db w)
             /\ is_Some (find_session game_id (db w1))).
  { rewrite select_actions_run, get_game_state_run, !Hok. simpl.
    rewrite Hgame.
    destruct (find_session game_id (db w)) as [session|] eqn:Hs; simpl.
    - rewrite Hactive, Hpending. simpl.
      eexists _, _. split; [reflexivity|]. simpl.
      rewrite Hs. repeat split; eauto.
    - change (pending_actions_of_game game_id (add_session _ (db w)))
        with (pending_actions_of_game game_id (db w)).
      rewrite Hactive, Hpending. simpl.
      eexists _, _. split; [reflexivity|]. simpl.
      rewrite find_session_add_session, Hs. simpl. rewrite Z.eqb_refl.
      repeat split; eauto.
      now apply round_of_add_new_session. }
  destruct Hsel as (game_state & w1 & Hsel & Hact & Hlogs & Hacts & Hround & Hs).
  assert (Hnar : generate_narrative game_state [] env w1 = (Ok None, w1))
    by now rewrite generate_narrative_run.
  subst out.
  rewrite (process_round_reaches_commit _ _ _ _ _ _ _ _ _ _
             Hfree Hsel Hnar), guarded_run, commit_round_run.
  rewrite !Hok. simpl.
  unfold narrated, marked. simpl.
  destruct Hs as [s Hs].
  split; [reflexivity|].
  split; [|split; [|split; [|split]]].
  - rewrite round_of_advanced, Hs, Hround, Z.eqb_refl.
    rewrite bool_decide_eq_true_2 by eauto. reflexivity.
  - unfold advanced. rewrite Hs, find_session_advance_round, Z.eqb_refl, Hs.
    simpl. eexists. split; [reflexivity|]. simpl.
    split; [|reflexivity].
    assert (Hrs : round_of game_id (db w1) = round_number s)
      by (unfold round_of; now rewrite Hs).
    lia.
  - unfold advanced. rewrite Hs. exact Hlogs.
  - unfold advanced. rewrite Hs. exact Hacts.
  - rewrite Hact. now apply delete_insert_id.
Qed.

Lemma forced_round_without_actions_witness :
  let out :=
    process_round 1 true (env_of no_fault (Some raising_callback))
      (fresh idle_db) in
  out.1 = Ok None
  /\ round_of 1 (db out.2) = 2
  /\ tbl_game_logs (db out.2) = [].
Proof.
  destruct (forced_round_without_actions 1
              (env_of no_fault (Some raising_callback)) (fresh idle_db)
              (game_with ACTIVE))
    as (Hres & Hround & _ & Hlogs & _); try reflexivity.
  repeat split; assumption.
Defined.

(* ===================================================================== *)
(** * Games that are not active *)
(* ===================================================================== *)

Lemma status_value_active (st : GameStatus) :
  st <> ACTIVE -> String.eqb (status_value st) "active" = false.
Proof. destruct st; intros H; [reflexivity | now destruct H | reflexivity..]. Qed.

(** A call of [process_round] that begins on a game that is waiting, paused
    or ended. *)
Lemma process_round_inactive (game_id : Z) (force : bool) (env : Env)
    (w : World) (game : Game) :
  find_game game_id (db w) = Some game ->
  g_status game <> ACTIVE ->
  let out := process_round game_id force env w in
  out.1 = Ok None
  /\ active_rounds out.2 = active_rounds w
  /\ round_of game_id (db out.2) = round_of game_id (db w)
  /\ (db out.2 = db w
      \/ (find_session game_id (db w) = None
          /\ db out.2
             = add_session (new_session game_id (utcnow_default env)) (db w)))
  /\ (is_Some (find_session game_id (db w)) -> db out.2 = db w).
Proof.
  intros Hgame Hstatus out. subst out.
  apply status_value_active in Hstatus.
  rewrite process_round_run.
  destruct (active_rounds w !! game_id) as [held|] eqn:Hfree; simpl.
  { repeat split; auto. }
  rewrite guarded_run, round_body_run, select_actions_run, get_game_state_run.
  simpl. rewrite Hgame.
  assert (Hrel : delete game_id (<[game_id := true]> (active_rounds w))
                 = active_rounds w) by now apply delete_insert_id.
  destruct (faults env StLoad); simpl; [repeat split; auto|].
  destruct (find_session game_id (db w)) as [session|] eqn:Hs; simpl.
  - destruct (faults env StSnapshot); simpl; rewrite ?Hstatus; simpl;
      repeat split; auto.
  - destruct (faults env StCreateSession); simpl;
      [repeat split; auto; intros [? ?]; discriminate|].
    destruct (faults env StSnapshot); simpl; rewrite ?Hstatus; simpl;
      (split; [reflexivity|]; split; [exact Hrel|];
       split; [now apply round_of_add_new_session|];
       split; [right; split; reflexivity | intros [? ?]; discriminate]).
Qed.

(** Against C6 as stated: on a paused game that has no session yet,
    [process_round] writes one. *)
Lemma paused_game_gets_a_session :
  let out := process_round 1 false (env_of no_fault None) (fresh paused_db) in
  out.1 = Ok None
  /\ tbl_game_sessions paused_db = []
  /\ tbl_game_sessions (db out.2) = [new_session 1 7000000]
  /\ db out.2 <> paused_db.
Proof.
  vm_compute. repeat split; try reflexivity. intros H. discriminate H.
Qed.

(* ===================================================================== *)
(** * What reaches the caller of process_round *)
(* ===================================================================== *)

(** C9, as the code has it.  [process_round] returns in every case: the
    decisions of lines 44-74 return [None], the narrator never raises past
    lines 104-119, and an exception of the database raised in the body is
    caught at line 143: it is logged, the token is released and [None] is
    returned. *)
Theorem process_round_never_raises (game_id : Z) (force : bool) (env : Env)
    (w : World) :
  (exists result, (process_round game_id force env w).1 = Ok result)
  /\ (forall game_state player_actions w1,
        exists narrative,
          (generate_narrative game_state player_actions env w1).1
          = Ok narrative)
  /\ (forall e w1,
        active_rounds w !! game_id = None ->
        round_body game_id force env (acquire game_id w) = (Raised e, w1) ->
        process_round game_id force env w
        = (Ok None,
           released game_id (with_logged [LogRoundError game_id e] w1))).
Proof.
  split; [|split].
  - rewrite process_round_run.
    destruct (active_rounds w !! game_id); [simpl; eauto|].
    rewrite guarded_run.
    destruct (round_body game_id force env (acquire game_id w))
      as [[result|e] w1]; simpl; eauto.
  - intros game_state player_actions w1.
    destruct (generate_narrative_effect game_state player_actions env w1)
      as (narrative & w2 & -> & _). eauto.
  - intros e w1 Hfree Hbody.
    now rewrite process_round_run, Hfree, guarded_run, Hbody.
Qed.

Lemma process_round_never_raises_witness :
  process_round 1 false (env_of (fault_at StMark) None) (fresh demo_db)
  = (Ok None,
     {| active_rounds := ∅; db := demo_db;
        logged := [LogNoCallback; LogRoundError 1 (DbError StMark)] |}).
Proof.
  destruct (process_round_never_raises 1 false
              (env_of (fault_at StMark) None) (fresh demo_db))
    as (_ & _ & Hcaught).
  rewrite (Hcaught (DbError StMark)
             (with_logged [LogNoCallback] (acquire 1 (fresh demo_db))));
    vm_compute; reflexivity.
Defined.

(** Against C9 as stated: [mark_actions_processed] raises and the caller of
    [process_round] receives [None], not an error. *)
Lemma persistence_failure_is_swallowed :
  let out :=
    process_round 1 false (env_of (fault_at StMark) None) (fresh demo_db) in
  out.1 = Ok None
  /\ out.1 <> Raised (DbError StMark)
  /\ logged out.2 = [LogNoCallback; LogRoundError 1 (DbError StMark)]
  /\ db out.2 = demo_db.
Proof.
  vm_compute. repeat split; try reflexivity. intros H. discriminate H.
Qed.

(* ===================================================================== *)
(** * The narrative of a round *)
(* ===================================================================== *)

(** C3, as the code has it.  When the callback raises, or the engine has
    no callback, the narrative that [process_round] generates for a
    non-empty batch, and returns when the database answers, is
    ["*The actions unfold: "], the action texts joined with [", "], and
    ["*"]: every action text stands in it, and the names of the
    participants are not used, two batches with the same action texts
    giving the same narrative.  The rendering
    ["<participant> <action text>"] is that of
    [OllamaClient._fallback_narrative], which [generate_story] returns when
    its request is answered with a status other than 200 or raises; there
    every pair stands in the text. *)
Theorem fallback_narratives (game_state : GameState) (first : PlayerAction)
    (rest : list PlayerAction) (env : Env) (w : World) :
  let player_actions := first :: rest in
  ai_callback env = None
  \/ (exists callback,
        ai_callback env = Some callback
        /\ callback game_state player_actions = CbRaise) ->
  (generate_narrative game_state player_actions env w).1
  = Ok (Some (actions_unfold_narrative player_actions))
  /\ (forall game_id force w0 action_ids,
        active_rounds w0 !! game_id = None ->
        select_actions game_id force env (acquire game_id w0)
        = (Ok (Some (game_state, player_actions, action_ids)), w) ->
        (forall st, faults env st = false) ->
        (process_round game_id force env w0).1
        = Ok (Some (actions_unfold_narrative player_actions)))
  /\ actions_unfold_narrative player_actions
     = "*The actions unfold: "
       +:+ String.concat ", " (map action_text player_actions) +:+ "*"
  /\ Forall (fun a =>
               str_contains (action_text a)
                 (actions_unfold_narrative player_actions) = true)
            player_actions
  /\ (forall others,
        map action_text others = map action_text player_actions ->
        actions_unfold_narrative others
        = actions_unfold_narrative player_actions)
  /\ (forall status generated_text,
        status <> 200 ->
        generate_story (HttpResponse status generated_text) game_state
          player_actions
        = _fallback_narrative player_actions)
  /\ generate_story HttpClientError game_state player_actions
     = _fallback_narrative player_actions
  /\ generate_story HttpOtherError game_state player_actions
     = _fallback_narrative player_actions
  /\ _fallback_narrative player_actions
     = "*The party acts: "
       +:+ String.concat ", "
             (map (fun a => player_name a +:+ " " +:+ action_text a)
                  player_actions)
       +:+ ". The world responds...*"
  /\ Forall (fun a =>
               str_contains (player_name a +:+ " " +:+ action_text a)
                 (_fallback_narrative player_actions) = true)
            player_actions.
Proof.
  intros player_actions Hcase.
  assert (Hgen : exists w2,
             generate_narrative game_state player_actions env w
             = (Ok (Some (actions_unfold_narrative player_actions)), w2)).
  { rewrite generate_narrative_run. subst player_actions.
    destruct Hcase as [Hnone | (callback & Hcb & Hraise)].
    - rewrite Hnone. eauto.
    - rewrite Hcb, Hraise. eauto. }
  destruct Hgen as [w2 Hnar].
  split; [now rewrite Hnar|].
  split.
  { intros game_id force w0 action_ids Hfree Hsel Hok.
    rewrite (process_round_reaches_commit _ _ _ _ _ _ _ _ _ _ Hfree Hsel Hnar).
    rewrite guarded_run, commit_round_run. cbv zeta.
    rewrite !Hok, !andb_false_r. reflexivity. }
  split; [reflexivity|].
  split; [apply wrapped_concat_contains|].
  split.
  { intros others Heq. unfold actions_unfold_narrative. now rewrite Heq. }
  split.
  { intros status generated_text Hstatus. unfold generate_story.
    destruct (Z.eqb_spec status 200); [contradiction | reflexivity]. }
  split; [reflexivity|]. split; [reflexivity|]. split; [reflexivity|].
  apply (wrapped_concat_contains
           (fun a => player_name a +:+ " " +:+ action_text a)).
Qed.

Lemma fallback_narratives_witness :
  (generate_narrative (roster_state [thorne] [])
     [{| player_name := "Thorne"; action_text := "attacks" |}]
     (env_of no_fault (Some raising_callback)) (fresh demo_db)).1
  = Ok (Some "*The actions unfold: attacks*")
  /\ (generate_narrative (roster_state [thorne] [])
        [{| player_name := "Thorne"; action_text := "attacks" |}]
        (env_of no_fault None) (fresh demo_db)).1
     = Ok (Some "*The actions unfold: attacks*")
  /\ _fallback_narrative
       [{| player_name := "Thorne"; action_text := "attacks" |}]
     = "*The party acts: Thorne attacks. The world responds...*".
Proof.
  destruct (fallback_narratives (roster_state [thorne] [])
              {| player_name := "Thorne"; action_text := "attacks" |} []
              (env_of no_fault (Some raising_callback)) (fresh demo_db))
    as (Hnar & _ & _ & _ & _ & _ & _ & _ & Hfb & _).
  { right. exists raising_callback. split; reflexivity. }
  destruct (fallback_narratives (roster_state [thorne] [])
              {| player_name := "Thorne"; action_text := "attacks" |} []
              (env_of no_fault None) (fresh demo_db))
    as (Hnone & _).
  { left. reflexivity. }
  split; [exact Hnar|]. split; [exact Hnone | exact Hfb].
Defined.

(** Against C3 as stated: the callback raises on the batch
    [("Thorne", "attacks")] and the narrative of [process_round] does not
    name Thorne. *)
Lemma fallback_omits_the_participant :
  (process_round 1 false (env_of no_fault (Some raising_callback))
     (fresh demo_db)).1
  = Ok (Some "*The actions unfold: attacks*")
  /\ str_contains "Thorne" "*The actions unfold: attacks*" = false
  /\ str_contains "Thorne attacks" "*The actions unfold: attacks*" = false.
Proof. vm_compute. repeat split; reflexivity. Qed.

(** C4, as the code has it.  With a batch, a callback, the token free and
    the database answering: when the callback raises, the round is
    committed with the narrative of line 116; when it returns, the round is
    committed with what it returned, and if that is [None] or the empty
    string no fallback is made: the actions are marked, the round number
    advances, no log entry is appended and that empty result is returned.
    The round is resolved in every case. *)
Theorem narrator_answers (game_id : Z) (force : bool) (env : Env)
    (w w1 : World) (game_state : GameState) (first : PlayerAction)
    (rest : list PlayerAction) (action_ids : list Z)
    (callback : GameState -> list PlayerAction -> CallbackResult) :
  let player_actions := first :: rest in
  active_rounds w !! game_id = None ->
  select_actions game_id force env (acquire game_id w)
  = (Ok (Some (game_state, player_actions, action_ids)), w1) ->
  ai_callback env = Some callback ->
  (forall st, faults env st = false) ->
  let out := process_round game_id force env w in
  let d2 :=
    advanced game_id (utcnow_update env)
      (marked game_id action_ids (db w1)) in
  round_of game_id (db out.2) = round_of game_id (db w1) + 1
  /\ match callback game_state player_actions with
     | CbRaise =>
         out.1 = Ok (Some (actions_unfold_narrative player_actions))
         /\ db out.2
            = narrated game_id game_state
                (Some (actions_unfold_narrative player_actions))
                (utcnow_default env) d2
     | CbReturn narrative =>
         out.1 = Ok narrative
         /\ db out.2
            = narrated game_id game_state narrative (utcnow_default env) d2
         /\ (truthy narrative = false ->
             db out.2 = d2
             /\ tbl_game_logs (db out.2) = tbl_game_logs (db w1))
     end.
Proof.
  intros player_actions Hfree Hsel Hcb Hok out d2.
  destruct (select_actions_effect game_id force env (acquire game_id w))
    as (_ & _ & Hsome).
  rewrite Hsel in Hsome. destruct (Hsome _ eq_refl) as [s Hs]. simpl in Hs.
  assert (Hround : forall narrative,
             round_of game_id
               (narrated game_id game_state narrative (utcnow_default env) d2)
             = round_of game_id (db w1) + 1).
  { intros narrative. subst d2.
    rewrite round_of_narrated, round_of_advanced, round_of_marked,
      find_session_marked, Hs, Z.eqb_refl.
    rewrite bool_decide_eq_true_2 by eauto. reflexivity. }
  pose proof (generate_narrative_run game_state player_actions env w1) as Hnar.
  subst player_actions out. simpl in Hnar. rewrite Hcb in Hnar.
  destruct (callback game_state (first :: rest)) as [narrative|].
  - rewrite (process_round_reaches_commit _ _ _ _ _ _ _ _ _ _
               Hfree Hsel Hnar), guarded_run, commit_round_run.
    rewrite !Hok, !andb_false_r. simpl.
    split; [apply Hround|]. split; [reflexivity|]. split; [reflexivity|].
    intros Hempty. unfold narrated. rewrite Hempty.
    split; [reflexivity|].
    subst d2. unfold advanced, marked.
    destruct (nonempty action_ids); simpl;
      destruct (find_session game_id _); reflexivity.
  - rewrite (process_round_reaches_commit _ _ _ _ _ _ _ _ _ _
               Hfree Hsel Hnar), guarded_run, commit_round_run.
    rewrite !Hok, !andb_false_r. simpl.
    split; [apply Hround|]. split; reflexivity.
Qed.

Lemma narrator_answers_witness :
  let out :=
    process_round 1 false (env_of no_fault (Some silent_callback))
      (fresh demo_db) in
  out.1 = Ok None /\ round_of 1 (db out.2) = 2.
Proof.
  destruct (narrator_answers 1 false (env_of no_fault (Some silent_callback))
              (fresh demo_db) (acquire 1 (fresh demo_db))
              (make_state 1 (game_with ACTIVE)
                 {| s_game_id := 1; round_number := 1; current_turn := Some 1;
                    active_encounters := []; updated_at := 0 |} demo_db)
              {| player_name := "Thorne"; action_text := "attacks" |} [] [1]
              silent_callback)
    as (Hround & Hres & _); try reflexivity.
  split; [exact Hres | exact Hround].
Defined.

(** Against C4 as stated: the callback returns [None] on a batch of one
    action and the round is completed with no narrative at all: the action
    is marked, the round number advances, nothing is logged and [None] is
    returned. *)
Lemma empty_narrative_completes_the_round :
  let out :=
    process_round 1 false (env_of no_fault (Some silent_callback))
      (fresh demo_db) in
  out.1 = Ok None
  /\ map processed (tbl_actions (db out.2)) = [true]
  /\ round_of 1 (db out.2) = 2
  /\ tbl_game_logs (db out.2) = []
  /\ logged out.2 = [LogGenerating 1; LogEmptyNarrative].
Proof. vm_compute. repeat split; reflexivity. Qed.

(* ===================================================================== *)
(** * The round scheduler *)
(* ===================================================================== *)

Lemma fold_min_le (b : Z) (l : list Z) : fold_right Z.min b l <= b.
Proof. induction l as [|x l IH]; simpl; lia. Qed.

Lemma fold_min_swap (b c : Z) (l : list Z) :
  Z.min b (fold_right Z.min c l) = Z.min c (fold_right Z.min b l).
Proof. induction l as [|x l IH]; simpl; lia. Qed.

(** [min] with the timestamp as key returns an action of least timestamp. *)
Lemma min_by_timestamp_oldest (rest : list PendingAction) :
  forall best,
    pa_timestamp (min_by_timestamp best rest) = oldest_timestamp best rest.
Proof.
  unfold oldest_timestamp.
  induction rest as [|x rest IH]; intros best; simpl; [reflexivity|].
  pose proof (fold_min_le (pa_timestamp x) (map pa_timestamp rest)).
  pose proof (fold_min_le (pa_timestamp best) (map pa_timestamp rest)).
  pose proof (fold_min_swap (pa_timestamp x) (pa_timestamp best)
                (map pa_timestamp rest)).
  destruct (Z.ltb_spec (pa_timestamp x) (pa_timestamp best));
    rewrite IH; lia.
Qed.

(** The size of the set of the ids is the number of distinct ids. *)
Lemma size_set_of_list (l : list Z) :
  size (list_to_set l : gset Z) = length (remove_dups l).
Proof.
  rewrite <- (size_list_to_set (C := gset Z) (remove_dups l))
    by apply NoDup_remove_dups.
  f_equal. apply set_eq. intros x.
  now rewrite !elem_of_list_to_set, elem_of_remove_dups.
Qed.

Lemma leb_of_nat (a b : nat) : (Z.of_nat a <=? Z.of_nat b) = (a <=? b)%nat.
Proof.
  destruct (Z.leb_spec (Z.of_nat a) (Z.of_nat b));
    destruct (Nat.leb_spec a b); try reflexivity; lia.
Qed.

Lemma should_process_round_counted (cfg : Settings) (now : Z)
    (game_state : GameState) (pending_actions : list PendingAction)
    (force : bool) :
  _should_process_round cfg now game_state pending_actions force
  = counted_should_resolve cfg now (gs_players game_state) pending_actions
      force.
Proof.
  unfold _should_process_round, counted_should_resolve.
  destruct force; [reflexivity|]. simpl.
  destruct pending_actions as [|first rest]; [reflexivity|].
  cbv beta iota delta [nonempty negb].
  destruct (MIN_PLAYERS_FOR_ROUND cfg <=? _); [|reflexivity].
  rewrite size_set_of_list, leb_of_nat, min_by_timestamp_oldest. simpl.
  destruct (_ <=? _)%nat; [reflexivity|].
  destruct (_ <=? _); reflexivity.
Qed.

(** C7, as the code has it.  The scheduler resolves when forced; never
    without pending actions; and, once the number of pending actions
    reaches [MIN_PLAYERS_FOR_ROUND], when the pending actions come from at
    least as many distinct participants as the roster has members, or else
    when the age of the oldest pending action is at least
    [ROUND_TIMEOUT_SECONDS].  For a roster of two and one pending action
    (with a minimum of at most 1) it resolves exactly when that age has
    reached the timeout. *)
Theorem should_process_round_counts (cfg : Settings) (now : Z)
    (game_state : GameState) (pending_actions : list PendingAction)
    (force : bool) :
  _should_process_round cfg now game_state pending_actions force
  = counted_should_resolve cfg now (gs_players game_state) pending_actions
      force
  /\ (forall p1 p2 a,
        MIN_PLAYERS_FOR_ROUND cfg <= 1 ->
        gs_players game_state = [p1; p2] ->
        _should_process_round cfg now game_state [a] false
        = bool_decide (timedelta_seconds (ROUND_TIMEOUT_SECONDS cfg)
                       <= now - pa_timestamp a)).
Proof.
  split; [apply should_process_round_counted|].
  intros p1 p2 a Hmin Hroster.
  rewrite should_process_round_counted, Hroster.
  unfold counted_should_resolve, oldest_timestamp. simpl.
  change (Z.of_nat 1) with 1.
  destruct (Z.leb_spec (MIN_PLAYERS_FOR_ROUND cfg) 1); [|lia]. simpl.
  destruct (Z.leb_spec (timedelta_seconds (ROUND_TIMEOUT_SECONDS cfg))
              (now - pa_timestamp a)).
  - now rewrite bool_decide_eq_true_2.
  - rewrite bool_decide_eq_false_2; [reflexivity | lia].
Qed.

Lemma should_process_round_counts_witness :
  _should_process_round default_settings 299999999
    (roster_state [thorne; mira] [pending_attack 1 1])
    [pending_attack 1 1] false = false
  /\ _should_process_round default_settings 300000000
       (roster_state [thorne; mira] [pending_attack 1 1])
       [pending_attack 1 1] false = true.
Proof.
  split.
  - destruct (should_process_round_counts default_settings 299999999
                (roster_state [thorne; mira] [pending_attack 1 1])
                [pending_attack 1 1] false) as [_ H].
    rewrite (H thorne mira (pending_attack 1 1)); [reflexivity | | reflexivity].
    vm_compute. discriminate.
  - destruct (should_process_round_counts default_settings 300000000
                (roster_state [thorne; mira] [pending_attack 1 1])
                [pending_attack 1 1] false) as [_ H].
    rewrite (H thorne mira (pending_attack 1 1)); [reflexivity | | reflexivity].
    vm_compute. discriminate.
Defined.

(** Against C7 as stated.  With a roster of two and one pending action
    whose age is exactly the timeout, the scheduler resolves although the
    age does not exceed the timeout.  With the pending actions of Thorne and
    of a participant who is not in the roster, it resolves although Mira has
    no pending action and the timeout is far. *)
Lemma scheduler_differs_from_the_statement :
  _should_process_round default_settings 300000000
    (roster_state [thorne; mira] [pending_attack 1 1])
    [pending_attack 1 1] false = true
  /\ stated_should_resolve default_settings 300000000 [thorne; mira]
       [pending_attack 1 1] false = false
  /\ _should_process_round default_settings 5000000
       (roster_state [thorne; mira] [pending_attack 1 1; pending_attack 3 2])
       [pending_attack 1 1; pending_attack 3 2] false = true
  /\ stated_should_resolve default_settings 5000000 [thorne; mira]
       [pending_attack 1 1; pending_attack 3 2] false = false.
Proof. vm_compute. repeat split; reflexivity. Qed.

(* ===================================================================== *)
(** * The token of a game *)
(* ===================================================================== *)

Lemma start_round_run (game_id : Z) (force : bool) (env : Env) (w : World) :
  start_round game_id force env w =
  match active_rounds w !! game_id with
  | Some _ =>
      (Ok (Finished None), with_logged [LogAlreadyProcessing game_id] w)
  | None => start_guarded game_id force env (acquire game_id w)
  end.
Proof.
  unfold start_round. unfold_m.
  destruct (active_rounds w !! game_id); reflexivity.
Qed.

Lemma commit_round_active_rounds (game_id : Z) (game_state : GameState)
    (narrative : option string) (action_ids : list Z) (env : Env)
    (w : World) :
  active_rounds (commit_round game_id game_state narrative action_ids env w).2
  = active_rounds w.
Proof.
  rewrite commit_round_run. simpl.
  destruct (nonempty action_ids && faults env StMark); [reflexivity|].
  destruct (faults env StSession); [reflexivity|].
  destruct (truthy narrative && faults env StLog); reflexivity.
Qed.

Lemma finish_guarded_run (game_id : Z) (body : M (option string)) (env : Env)
    (w : World) :
  exists result,
    finish (guarded game_id body) env w
    = (Ok (Finished result), (guarded game_id body env w).2)
    /\ active_rounds (guarded game_id body env w).2
       = delete game_id (active_rounds (body env w).2).
Proof.
  unfold finish. unfold_m. rewrite guarded_run.
  destruct (body env w) as [[result|e] w1]; simpl; eauto.
Qed.

(** The rest of a round keeps the set of tokens. *)
Lemma narrate_commit_active_rounds (game_id : Z) (game_state : GameState)
    (player_actions : list PlayerAction) (action_ids : list Z) (env : Env)
    (w : World) :
  active_rounds
    ((narrative ← generate_narrative game_state player_actions;
      commit_round game_id game_state narrative action_ids) env w).2
  = active_rounds w.
Proof.
  unfold_m.
  destruct (generate_narrative_effect game_state player_actions env w)
    as (narrative & w2 & -> & _ & Hact).
  now rewrite commit_round_active_rounds.
Qed.

(** A call that took the token either finishes, and has released it, or is
    suspended at the [await], and holds it. *)
Lemma start_guarded_effect (game_id : Z) (force : bool) (env : Env)
    (w : World) :
  (exists result w',
      start_guarded game_id force env w = (Ok (Finished result), w')
      /\ active_rounds w' = delete game_id (active_rounds w))
  \/ (exists k w',
        start_guarded game_id force env w = (Ok (Suspended k), w')
        /\ aw_game_id k = game_id
        /\ active_rounds w' = active_rounds w).
Proof.
  unfold start_guarded.
  destruct (select_actions_effect game_id force env w) as (Hact & _ & _).
  destruct (select_actions game_id force env w)
    as [[[[[game_state player_actions] action_ids]|]|e] w1]; simpl in Hact.
  - destruct (nonempty player_actions) eqn:Hne;
      [destruct (ai_callback env) as [callback|]|].
    + right. unfold_m. simpl. eauto.
    + left.
      destruct (finish_guarded_run game_id
                  (narrative ← generate_narrative game_state player_actions;
                   commit_round game_id game_state narrative action_ids)
                  env w1) as (result & -> & Hrel).
      rewrite narrate_commit_active_rounds, Hact in Hrel.
      eexists _, _. split; [reflexivity | exact Hrel].
    + left.
      destruct (finish_guarded_run game_id
                  (narrative ← generate_narrative game_state player_actions;
                   commit_round game_id game_state narrative action_ids)
                  env w1) as (result & -> & Hrel).
      rewrite narrate_commit_active_rounds, Hact in Hrel.
      eexists _, _. split; [reflexivity | exact Hrel].
  - left.
    destruct (finish_guarded_run game_id (mret None) env w1)
      as (result & -> & Hrel).
    eexists _, _. split; [reflexivity|]. simpl. now rewrite Hact.
  - left.
    destruct (finish_guarded_run game_id (fun _ w' => (Raised e, w')) env w1)
      as (result & -> & Hrel).
    eexists _, _. split; [reflexivity|]. simpl. now rewrite Hact.
Qed.

Lemma resume_round_active_rounds (k : Awaiting) (env : Env) (w : World) :
  active_rounds (resume_round k env w).2
  = delete (aw_game_id k) (active_rounds w).
Proof.
  unfold resume_round. rewrite guarded_run. unfold_m.
  assert (Hafter : exists narrative w2,
             after_callback (aw_player_actions k) (aw_answer k) env w
             = (Ok narrative, w2) /\ active_rounds w2 = active_rounds w).
  { unfold after_callback. unfold_m.
    destruct (aw_answer k) as [narrative|]; [|simpl; eauto].
    destruct (truthy narrative); simpl; eauto. }
  destruct Hafter as (narrative & w2 & -> & Hact).
  pose proof (commit_round_active_rounds (aw_game_id k) (aw_game_state k)
                narrative (aw_action_ids k) env w2) as Hc.
  destruct (commit_round _ _ _ _ env w2) as [[result|e] w3]; simpl in *;
    now rewrite Hc, Hact.
Qed.

Lemma queue_action_active_rounds (game_id player_id : Z) (text : string)
    (env : Env) (w : World) :
  active_rounds (queue_action game_id player_id text env w).2
  = active_rounds w.
Proof.
  unfold queue_action. unfold_m.
  destruct (faults env StQueue); reflexivity.
Qed.

(** The two pieces of the coroutine, run one after the other, are the call
    run in one piece. *)
Lemma process_round_as_coroutine (game_id : Z) (force : bool) (env : Env)
    (w : World) :
  process_round game_id force env w =
  match start_round game_id force env w with
  | (Ok (Finished result), w') => (Ok result, w')
  | (Ok (Suspended k), w') => resume_round k env w'
  | (Raised e, w') => (Raised e, w')
  end.
Proof.
  rewrite process_round_run, start_round_run.
  destruct (active_rounds w !! game_id); [reflexivity|].
  rewrite guarded_run, round_body_run. unfold start_guarded.
  destruct (select_actions game_id force env (acquire game_id w))
    as [[[[[game_state player_actions] action_ids]|]|e] w1].
  - destruct player_actions as [|a rest]; simpl.
    + unfold finish. unfold_m. rewrite guarded_run. unfold_m.
      rewrite generate_narrative_run.
      destruct (commit_round _ _ _ _ env w1) as [[result|e] w3]; reflexivity.
    + destruct (ai_callback env) as [callback|] eqn:Hcb.
      * unfold_m. unfold resume_round. simpl.
        rewrite guarded_run. unfold_m.
        rewrite generate_narrative_run, Hcb.
        unfold after_callback. unfold_m.
        destruct (callback game_state (a :: rest)) as [narrative|]; simpl.
        -- destruct (truthy narrative); simpl;
             destruct (commit_round _ _ _ _ env _) as [[result|e] w3];
             reflexivity.
        -- destruct (commit_round _ _ _ _ env _) as [[result|e] w3];
             reflexivity.
      * unfold finish. unfold_m. rewrite guarded_run. unfold_m.
        rewrite generate_narrative_run, Hcb.
        destruct (commit_round _ _ _ _ env _) as [[result|e] w3]; reflexivity.
  - unfold finish. unfold_m. rewrite guarded_run. reflexivity.
  - unfold finish. unfold_m. rewrite guarded_run. reflexivity.
Qed.

Lemma map_delete_index {A B} (f : A -> B) (l : list A) :
  forall n, map f (delete n l) = delete n (map f l).
Proof.
  induction l as [|x l IH]; intros [|n]; simpl; try reflexivity.
  now rewrite <- IH.
Qed.

Lemma map_lookup_index {A B} (f : A -> B) (l : list A) :
  forall n x, l !! n = Some x -> map f l !! n = Some (f x).
Proof.
  induction l as [|y l IH]; intros [|n] x H; simpl in *; try discriminate.
  - now inversion H.
  - now apply IH.
Qed.

Lemma NoDup_delete_index (l : list Z) (n : nat) (x : Z) :
  NoDup l -> l !! n = Some x ->
  NoDup (delete n l) /\ (forall g, g ∈ delete n l <-> g ∈ l /\ g <> x).
Proof.
  intros Hnd Hx.
  rewrite delete_take_drop.
  rewrite <- (take_drop_middle l n x Hx) in Hnd at 1.
  apply NoDup_app in Hnd as (Hnd1 & Hdisj & Hnd2).
  apply NoDup_cons in Hnd2 as (Hx2 & Hnd2).
  split.
  - apply NoDup_app. split; [exact Hnd1|]. split; [|exact Hnd2].
    intros g Hg Hg'. apply (Hdisj g Hg). now right.
  - intros g.
    assert (Hl : g ∈ l <-> g ∈ take n l ++ x :: drop (S n) l)
      by now rewrite take_drop_middle.
    rewrite Hl, !elem_of_app, elem_of_cons. split.
    + intros [Hg|Hg]; (split; [tauto|]); intros ->.
      * apply (Hdisj x Hg). now left.
      * exact (Hx2 Hg).
    + intros [[Hg|[Hg|Hg]] Hne]; tauto.
Qed.

(** The tokens of the engine are the games of the calls in flight, one call
    for each. *)
Lemma tokens_are_the_calls_in_flight (s : System) :
  reachable s ->
  NoDup (map aw_game_id (in_flight s))
  /\ (forall g, is_Some (active_rounds (sys_world s) !! g)
                <-> g ∈ map aw_game_id (in_flight s)).
Proof.
  induction 1 as [d|ev s Hreach [Hnd Htok]]; simpl.
  { split; [constructor|]. intros g. rewrite lookup_empty. split.
    - intros [? ?]; discriminate.
    - intros Hin. now apply elem_of_nil in Hin. }
  destruct ev as [game_id force env|n env|game_id player_id text env]; simpl.
  - rewrite start_round_run.
    destruct (active_rounds (sys_world s) !! game_id) as [held|] eqn:Hfree.
    { simpl. split; [exact Hnd | exact Htok]. }
    assert (Hnotin : game_id ∉ map aw_game_id (in_flight s)).
    { intros Hin. apply Htok in Hin. rewrite Hfree in Hin.
      destruct Hin; discriminate. }
    destruct (start_guarded_effect game_id force env
                (acquire game_id (sys_world s)))
      as [(result & w' & -> & Hact) | (k & w' & -> & Hk & Hact)];
      simpl in *.
    + rewrite delete_insert_id in Hact by exact Hfree.
      rewrite Hact. split; [exact Hnd | exact Htok].
    + rewrite map_app. simpl. rewrite Hk, Hact. split.
      * apply NoDup_app. split; [exact Hnd|]. split.
        -- intros g Hg Hg'. apply list_elem_of_singleton in Hg'. now subst g.
        -- apply NoDup_singleton.
      * intros g. rewrite elem_of_app, list_elem_of_singleton, <- Htok.
        destruct (decide (game_id = g)) as [->|Hne].
        -- rewrite lookup_insert_eq. split; eauto.
        -- rewrite lookup_insert_ne by exact Hne. split; [tauto|].
           intros [Hg| ->]; [exact Hg | now destruct Hne].
  - destruct (in_flight s !! n) as [k|] eqn:Hk; simpl;
      [|split; [exact Hnd | exact Htok]].
    rewrite resume_round_active_rounds, map_delete_index.
    destruct (NoDup_delete_index (map aw_game_id (in_flight s)) n
                (aw_game_id k) Hnd (map_lookup_index _ _ _ _ Hk))
      as [Hnd' Hin'].
    split; [exact Hnd'|].
    intros g. rewrite Hin', <- Htok.
    destruct (decide (aw_game_id k = g)) as [->|Hne].
    + rewrite lookup_delete_eq. split.
      * intros [? ?]; discriminate.
      * intros [_ Hne]. now destruct Hne.
    + rewrite lookup_delete_ne by exact Hne. split; [|tauto].
      intros Hg. split; [exact Hg | congruence].
  - rewrite queue_action_active_rounds. split; [exact Hnd | exact Htok].
Qed.

(** C8.  One engine, its calls of [process_round] interleaved at the
    [await] of line 109, actions queued in between.  In every state the
    event loop can reach, each game has at most one call in flight and the
    tokens held are those of the games with a call in flight.  A call made
    for a game with a call in flight returns [None] at line 47, in the same
    piece of execution, having logged the warning and written nothing; a
    call made for a game with no call in flight passes the check and takes
    the token. *)
Theorem one_resolution_in_flight (s : System) :
  reachable s ->
  NoDup (map aw_game_id (in_flight s))
  /\ (forall g, is_Some (active_rounds (sys_world s) !! g)
                <-> g ∈ map aw_game_id (in_flight s))
  /\ (forall k force env,
        k ∈ in_flight s ->
        start_round (aw_game_id k) force env (sys_world s)
        = (Ok (Finished None),
           with_logged [LogAlreadyProcessing (aw_game_id k)] (sys_world s))
        /\ step (EvStart (aw_game_id k) force env) s
           = {| sys_world :=
                  with_logged [LogAlreadyProcessing (aw_game_id k)]
                    (sys_world s);
                in_flight := in_flight s |})
  /\ (forall g force env,
        g ∉ map aw_game_id (in_flight s) ->
        start_round g force env (sys_world s)
        = start_guarded g force env (acquire g (sys_world s))).
Proof.
  intros Hreach.
  destruct (tokens_are_the_calls_in_flight s Hreach) as [Hnd Htok].
  split; [exact Hnd|]. split; [exact Htok|]. split.
  - intros k force env Hk.
    assert (Hheld : is_Some (active_rounds (sys_world s) !! aw_game_id k)).
    { apply Htok. apply list_elem_of_In, in_map, list_elem_of_In, Hk. }
    destruct Hheld as [held Hheld].
    assert (Hstart : start_round (aw_game_id k) force env (sys_world s)
                     = (Ok (Finished None),
                        with_logged [LogAlreadyProcessing (aw_game_id k)]
                          (sys_world s)))
      by now rewrite start_round_run, Hheld.
    split; [exact Hstart|]. simpl. now rewrite Hstart.
  - intros g force env Hg. rewrite start_round_run.
    destruct (active_rounds (sys_world s) !! g) as [held|] eqn:Hheld;
      [|reflexivity].
    destruct Hg. apply Htok. eauto.
Qed.

Lemma racing_system_in_flight : in_flight racing_system = [first_call].
Proof. vm_compute. reflexivity. Qed.

Lemma one_resolution_in_flight_witness :
  in_flight racing_system = [first_call]
  /\ step (EvStart 1 true (env_of no_fault None)) racing_system
     = {| sys_world := with_logged [LogAlreadyProcessing 1]
                         (sys_world racing_system);
          in_flight := in_flight racing_system |}.
Proof.
  split; [exact racing_system_in_flight|].
  destruct (one_resolution_in_flight racing_system
              (reachable_step _ _ (reachable_init demo_db)))
    as (_ & _ & Hbusy & _).
  refine (proj2 (Hbusy first_call true (env_of no_fault None) _)).
  rewrite racing_system_in_flight. apply list_elem_of_singleton. reflexivity.
Defined.

(* ===================================================================== *)
(** * Stat validation: what is accepted and what is reported *)
(* ===================================================================== *)

Lemma first_missing_none (required : list string) (stats : StatDict) :
  first_missing required stats = None
  <-> forallb (fun s => dict_mem s stats) required = true.
Proof.
  induction required as [|s required IH]; simpl; [tauto|].
  destruct (dict_mem s stats); simpl; [exact IH|]. split; discriminate.
Qed.

Lemma first_missing_some (required : list string) (stats : StatDict) :
  forallb (fun s => dict_mem s stats) required = false ->
  exists msg, first_missing required stats = Some msg.
Proof.
  intros H. destruct (first_missing required stats) as [msg|] eqn:E; [eauto|].
  apply first_missing_none in E. congruence.
Qed.

Lemma first_out_of_limits_none (stats : StatDict) :
  first_out_of_limits stats = None <-> forallb in_limits stats = true.
Proof.
  induction stats as [|[k v] stats IH]; simpl; [tauto|].
  unfold in_limits at 1. simpl.
  destruct (Z.ltb_spec STAT_MAX v).
  { destruct (Z.leb_spec v STAT_MAX); [lia|].
    rewrite andb_false_r. simpl. split; discriminate. }
  destruct (Z.leb_spec v STAT_MAX); [|lia].
  destruct (Z.ltb_spec v STAT_MIN).
  { destruct (Z.leb_spec STAT_MIN v); [lia|]. simpl. split; discriminate. }
  destruct (Z.leb_spec STAT_MIN v); [|lia]. simpl. exact IH.
Qed.

Lemma cost_within_limits (v : Z) :
  STAT_MIN <= v <= STAT_MAX -> exists c, STAT_POINT_COSTS !! v = Some c.
Proof.
  unfold STAT_MIN, STAT_MAX. intros H.
  assert (Hv : v = 8 \/ v = 9 \/ v = 10 \/ v = 11 \/ v = 12 \/ v = 13
               \/ v = 14 \/ v = 15) by lia.
  repeat (destruct Hv as [-> | Hv]; [vm_compute; eauto|]).
  subst v. vm_compute. eauto.
Qed.

Lemma total_points_within_limits (stats : StatDict) :
  forallb in_limits stats = true ->
  forall total_points,
    total_points_from total_points stats
    = inl (total_points + points_used stats).
Proof.
  induction stats as [|[k v] stats IH]; simpl; intros Hl t.
  - f_equal. lia.
  - apply andb_true_iff in Hl as [Hv Hl].
    unfold in_limits in Hv. simpl in Hv. apply andb_true_iff in Hv as [H1 H2].
    apply Z.leb_le in H1, H2.
    destruct (cost_within_limits v (conj H1 H2)) as [c ->]. simpl.
    rewrite (IH Hl). f_equal. lia.
Qed.

Lemma validate_stat_allocation_run (stats : StatDict) :
  (validate_stat_allocation stats).1
  = forallb (fun s => dict_mem s stats) required_stats
    && forallb in_limits stats
    && (points_used stats <=? STAT_POINT_BUY_MAX)
  /\ ((validate_stat_allocation stats).1 = true ->
      (validate_stat_allocation stats).2 = None)
  /\ ((validate_stat_allocation stats).1 = false ->
      exists msg, (validate_stat_allocation stats).2 = Some msg).
Proof.
  unfold validate_stat_allocation.
  destruct (forallb (fun s => dict_mem s stats) required_stats) eqn:Hreq.
  - apply first_missing_none in Hreq. rewrite Hreq.
    destruct (forallb in_limits stats) eqn:Hlim.
    + pose proof (proj2 (first_out_of_limits_none stats) Hlim) as ->.
      rewrite (total_points_within_limits stats Hlim 0), Z.add_0_l.
      destruct (Z.ltb_spec STAT_POINT_BUY_MAX (points_used stats));
        destruct (Z.leb_spec (points_used stats) STAT_POINT_BUY_MAX);
        try lia; simpl;
        (split; [reflexivity|];
         split; intros Hv; first [reflexivity | discriminate Hv | eauto]).
    + destruct (first_out_of_limits stats) as [msg|] eqn:E.
      * simpl.
        (split; [reflexivity|];
         split; intros Hv; first [reflexivity | discriminate Hv | eauto]).
      * apply first_out_of_limits_none in E. congruence.
  - destruct (first_missing_some _ _ Hreq) as [msg ->]. simpl.
    (split; [reflexivity|];
         split; intros Hv; first [reflexivity | discriminate Hv | eauto]).
Qed.

(** X1.  [validate_stat_allocation] accepts exactly the dictionaries that
    hold the six stats, whose every value (of the six or of any other key)
    is within [STAT_MIN]..[STAT_MAX], and whose point costs sum to at most
    [STAT_POINT_BUY_MAX]; it gives no message when it accepts and one when
    it rejects. *)
Theorem validate_stat_allocation_accepts_exactly (stats : StatDict) :
  (validate_stat_allocation stats).1
  = forallb (fun s => dict_mem s stats) required_stats
    && forallb in_limits stats
    && (points_used stats <=? STAT_POINT_BUY_MAX)
  /\ ((validate_stat_allocation stats).1 = true ->
      (validate_stat_allocation stats).2 = None)
  /\ ((validate_stat_allocation stats).1 = false ->
      exists msg, (validate_stat_allocation stats).2 = Some msg).
Proof. exact (validate_stat_allocation_run stats). Qed.

Lemma validate_stat_allocation_accepts_exactly_witness :
  validate_stat_allocation wizard_stats = (true, None)
  /\ exists msg, (validate_stat_allocation example_stats).2 = Some msg.
Proof.
  split; [reflexivity|].
  destruct (validate_stat_allocation_accepts_exactly example_stats)
    as (_ & _ & Hmsg).
  apply Hmsg. reflexivity.
Defined.

(** X2.  Once the limits of lines 36-40 hold, every value has a cost: the
    rejection "has invalid value" of lines 47-49 is never produced, and the
    total is the sum of the costs shown by [handle_dm_validate]. *)
Theorem invalid_value_branch_is_dead (stats : StatDict) (total_points : Z) :
  first_out_of_limits stats = None ->
  total_points_from total_points stats
  = inl (total_points + points_used stats).
Proof.
  intros H. apply total_points_within_limits.
  now apply first_out_of_limits_none.
Qed.

Lemma invalid_value_branch_is_dead_witness :
  first_out_of_limits wizard_stats = None
  /\ total_points_from 0 wizard_stats = inl 27.
Proof.
  split; [reflexivity|].
  rewrite (invalid_value_branch_is_dead wizard_stats 0); reflexivity.
Defined.

(** X3.  A missing stat is reported before anything else: the message names
    the first of STR, DEX, CON, INT, WIS, CHA that the dictionary lacks,
    whatever the values of the others. *)
Theorem first_missing_stat_is_reported (stats : StatDict)
    (present : list string) (stat : string) (others : list string) :
  required_stats = present ++ stat :: others ->
  forallb (fun s => dict_mem s stats) present = true ->
  dict_mem stat stats = false ->
  validate_stat_allocation stats = (false, Some ("Missing stat: " +:+ stat)).
Proof.
  intros Hreq Hpresent Hmissing. unfold validate_stat_allocation.
  rewrite Hreq. clear Hreq.
  induction present as [|s present IH]; simpl in *.
  - now rewrite Hmissing.
  - apply andb_true_iff in Hpresent as [Hs Hpresent]. rewrite Hs. simpl.
    exact (IH Hpresent).
Qed.

Lemma first_missing_stat_is_reported_witness :
  validate_stat_allocation [("STR", 18); ("DEX", 3); ("WIS", 10)]
  = (false, Some "Missing stat: CON").
Proof.
  apply (first_missing_stat_is_reported _ ["STR"; "DEX"] "CON"
           ["INT"; "WIS"; "CHA"]); reflexivity.
Defined.

(** X4.  [get_stat_modifier] is (value - 10) / 2 rounded down, also below
    10; for every value of an accepted allocation it lies between -1 and
    2. *)
Theorem stat_modifier_of_accepted_stats (stats : StatDict) :
  (forall v, 2 * get_stat_modifier v <= v - 10 <= 2 * get_stat_modifier v + 1)
  /\ ((validate_stat_allocation stats).1 = true ->
      Forall (fun kv => -1 <= get_stat_modifier kv.2 <= 2) stats).
Proof.
  assert (Hmod : forall v,
             2 * get_stat_modifier v <= v - 10
             <= 2 * get_stat_modifier v + 1).
  { intros v. unfold get_stat_modifier.
    pose proof (Z.div_mod (v - 10) 2 ltac:(lia)).
    pose proof (Z.mod_pos_bound (v - 10) 2 ltac:(lia)). lia. }
  split; [exact Hmod|].
  intros Hok.
  destruct (validate_stat_allocation_run stats) as (Hrun & _ & _).
  rewrite Hok in Hrun. symmetry in Hrun.
  apply andb_true_iff in Hrun as [Hrun _].
  apply andb_true_iff in Hrun as [_ Hlim].
  apply Forall_forall. intros kv Hin.
  rewrite forallb_forall in Hlim.
  specialize (Hlim kv (proj1 (list_elem_of_In _ _) Hin)).
  unfold in_limits, STAT_MIN, STAT_MAX in Hlim.
  apply andb_true_iff in Hlim as [H1 H2]. apply Z.leb_le in H1, H2.
  specialize (Hmod kv.2). lia.
Qed.

Lemma stat_modifier_of_accepted_stats_witness :
  Forall (fun kv => -1 <= get_stat_modifier kv.2 <= 2) wizard_stats
  /\ get_stat_modifier 7 = -2.
Proof.
  split; [|reflexivity].
  apply (proj2 (stat_modifier_of_accepted_stats wizard_stats)). reflexivity.
Defined.

(* ===================================================================== *)
(** * Action and hit-point validation *)
(* ===================================================================== *)

Lemma dict_get_missing (key : string) (default : Z) (d : StatDict) :
  dict_mem key d = false -> dict_get key default d = default.
Proof.
  induction d as [|[k v] d IH]; simpl; [reflexivity|].
  destruct (String.eqb k key); simpl; [discriminate | exact IH].
Qed.

(** X5.  [validate_hp_change] subtracts a damage from the hit points: with
    [is_healing] false it accepts exactly when hp - change is at least
    -CON, CON being 10 when the stats have no such key, so a change that is
    zero or negative is accepted for every player at or above that
    threshold; with [is_healing] true it accepts exactly when hp + change is
    at most max_hp. *)
Theorem hp_change_accepted_exactly (player : Player) (change : Z) :
  (validate_hp_change player change true).1
  = (p_hp player + change <=? p_max_hp player)
  /\ (validate_hp_change player change false).1
     = (- dict_get "CON" 10 (p_stats player) <=? p_hp player - change)
  /\ (dict_mem "CON" (p_stats player) = false ->
      (validate_hp_change player change false).1
      = (-10 <=? p_hp player - change))
  /\ (change <= 0 ->
      - dict_get "CON" 10 (p_stats player) <= p_hp player ->
      validate_hp_change player change false = (true, None)).
Proof.
  unfold validate_hp_change.
  destruct (Z.ltb_spec (p_max_hp player) (p_hp player + change));
    destruct (Z.leb_spec (p_hp player + change) (p_max_hp player)); try lia;
    (split; [reflexivity|]).
  all: destruct (Z.ltb_spec (p_hp player - change)
                   (- dict_get "CON" 10 (p_stats player)));
    destruct (Z.leb_spec (- dict_get "CON" 10 (p_stats player))
                (p_hp player - change)); try lia;
    (split; [reflexivity|]; split;
     [intros Hm; rewrite (dict_get_missing _ _ _ Hm) in *;
      destruct (Z.leb_spec (-10) (p_hp player - change)); simpl; lia
     | intros; first [reflexivity | lia]]).
Qed.

Lemma hp_change_accepted_exactly_witness :
  validate_hp_change mira (-5) false = (true, None)
  /\ (validate_hp_change thorne 40 false).1 = false.
Proof.
  destruct (hp_change_accepted_exactly mira (-5)) as (_ & _ & _ & Hneg).
  destruct (hp_change_accepted_exactly thorne 40) as (_ & Hdmg & _).
  split; [apply Hneg; vm_compute; discriminate | rewrite Hdmg; reflexivity].
Defined.

(** X6.  [validate_action] rejects every player whose hit points are zero
    or less, before anything else.  It rejects for the turn only when a
    non-empty turn order is given and [current_turn] is set, is not 0 and is
    another player; [ValidationSystem.validate_player_action] gives no turn
    order, so through it a player is accepted exactly when the hit points
    are positive. *)
Theorem action_validation_cases (player : Player) (action_text : string)
    (current_turn : option Z) (turn_order : option (list Z)) :
  (p_hp player <= 0 ->
   validate_action player action_text current_turn turn_order
   = (false, Some "You are unconscious and cannot act!"))
  /\ (0 < p_hp player ->
      validate_action player action_text current_turn turn_order
      = (if match turn_order with Some (_ :: _) => true | _ => false end
            && match current_turn with
               | Some c => negb (c =? 0) && negb (p_id player =? c)
               | None => false
               end
         then (false, Some "It's not your turn!")
         else (true, None)))
  /\ (validate_player_action player action_text current_turn).1
     = (0 <? p_hp player)
  /\ (0 < p_hp player ->
      validate_action player action_text (Some (p_id player)) turn_order
      = (true, None)).
Proof.
  unfold validate_player_action, validate_action.
  destruct (Z.leb_spec (p_hp player) 0);
    destruct (Z.ltb_spec 0 (p_hp player)); try lia.
  - repeat split; intros; first [reflexivity | lia].
  - split; [intros; lia|]. split; [|split; [reflexivity|]].
    + intros _. destruct turn_order as [[|t order]|]; try reflexivity.
      destruct current_turn as [c|]; [|reflexivity].
      destruct (negb (c =? 0) && negb (p_id player =? c)); reflexivity.
    + intros _. destruct turn_order as [[|t order]|]; try reflexivity.
      rewrite Z.eqb_refl, andb_false_r. reflexivity.
Qed.

Lemma action_validation_cases_witness :
  validate_action thorne "attacks" (Some 2) (Some [2; 1])
  = (false, Some "It's not your turn!")
  /\ validate_action thorne "attacks" (Some 1) (Some [2; 1]) = (true, None).
Proof.
  destruct (action_validation_cases thorne "attacks" (Some 2) (Some [2; 1]))
    as (_ & Hturn & _).
  destruct (action_validation_cases thorne "attacks" (Some 1) (Some [2; 1]))
    as (_ & _ & _ & Hholder).
  split; [rewrite Hturn by (vm_compute; reflexivity); reflexivity
         | apply Hholder; vm_compute; reflexivity].
Defined.

(* ===================================================================== *)
(** * What a round writes, table by table *)
(* ===================================================================== *)

Lemma set_processed_nil (game_id : Z) (d : DB) :
  tbl_actions (set_processed game_id [] d) = tbl_actions d.
Proof.
  unfold set_processed. simpl.
  induction (tbl_actions d) as [|a l IH]; simpl; [reflexivity|].
  rewrite andb_false_r. now rewrite IH.
Qed.

Lemma find_session_other_add (game_id g : Z) (now : Z) (d : DB) :
  g <> game_id ->
  find_session g (add_session (new_session game_id now) d) = find_session g d.
Proof.
  intros Hne. rewrite find_session_add_session.
  destruct (find_session g d); [reflexivity|]. simpl.
  destruct (Z.eqb_spec game_id g); [congruence | reflexivity].
Qed.

Lemma find_session_other_advanced (game_id g : Z) (now : Z) (d : DB) :
  g <> game_id -> find_session g (advanced game_id now d) = find_session g d.
Proof.
  intros Hne. unfold advanced.
  destruct (find_session game_id d); [|reflexivity].
  rewrite find_session_advance_round.
  destruct (Z.eqb_spec game_id g); [congruence | reflexivity].
Qed.

(** The tables after the three writes of a commit, whichever are made. *)
Lemma commit_tables (game_id : Z) (game_state : GameState)
    (narrative : option string) (action_ids : list Z) (now now' : Z) (d : DB) :
  let d1 := marked game_id action_ids d in
  let d2 := advanced game_id now d1 in
  let d3 := narrated game_id game_state narrative now' d2 in
  (tbl_games d1 = tbl_games d /\ tbl_games d2 = tbl_games d
   /\ tbl_games d3 = tbl_games d)
  /\ (tbl_players d1 = tbl_players d /\ tbl_players d2 = tbl_players d
      /\ tbl_players d3 = tbl_players d)
  /\ (tbl_game_players d1 = tbl_game_players d
      /\ tbl_game_players d2 = tbl_game_players d
      /\ tbl_game_players d3 = tbl_game_players d)
  /\ (exists ids, tbl_actions d1 = tbl_actions (set_processed game_id ids d)
                  /\ tbl_actions d2 = tbl_actions d1
                  /\ tbl_actions d3 = tbl_actions d1)
  /\ (tbl_game_logs d1 = tbl_game_logs d /\ tbl_game_logs d2 = tbl_game_logs d
      /\ (tbl_game_logs d3 = tbl_game_logs d
          \/ tbl_game_logs d3
             = tbl_game_logs d
               ++ [{| l_game_id := game_id;
                      message := round_message game_state narrative;
                      l_timestamp := now'; log_type := NARRATIVE |}])).
Proof.
  unfold narrated, advanced, marked.
  destruct (nonempty action_ids); destruct (truthy narrative);
    destruct (find_session game_id _);
    (split; [repeat split; reflexivity|]);
    (split; [repeat split; reflexivity|]);
    (split; [repeat split; reflexivity|]);
    (split;
     [first [ exists action_ids; repeat split; reflexivity
            | exists []; rewrite set_processed_nil; repeat split; reflexivity ]
     |]);
    (split; [reflexivity|]); (split; [reflexivity|]);
    first [left; reflexivity | right; reflexivity].
Qed.

(** Lines 52-102 change no table but that of the sessions. *)
Lemma select_actions_tables (game_id : Z) (force : bool) (env : Env)
    (w : World) :
  let d' := db (select_actions game_id force env w).2 in
  tbl_games d' = tbl_games (db w) /\ tbl_players d' = tbl_players (db w)
  /\ tbl_game_players d' = tbl_game_players (db w)
  /\ tbl_actions d' = tbl_actions (db w)
  /\ tbl_game_logs d' = tbl_game_logs (db w)
  /\ (forall g, g <> game_id -> find_session g d' = find_session g (db w)).
Proof.
  destruct (select_actions_effect game_id force env w)
    as (_ & [Hd | [Hnone Hd]] & _); simpl; rewrite Hd.
  - repeat split; reflexivity.
  - repeat split; try reflexivity.
    intros g Hg. now apply find_session_other_add.
Qed.

(** What one call of [process_round] leaves in each table. *)
Lemma process_round_tables (game_id : Z) (force : bool) (env : Env)
    (w : World) :
  let d := db w in
  let d' := db (process_round game_id force env w).2 in
  tbl_games d' = tbl_games d /\ tbl_players d' = tbl_players d
  /\ tbl_game_players d' = tbl_game_players d
  /\ (exists ids, tbl_actions d' = tbl_actions (set_processed game_id ids d))
  /\ (tbl_game_logs d' = tbl_game_logs d
      \/ exists msg,
           tbl_game_logs d'
           = tbl_game_logs d
             ++ [{| l_game_id := game_id; message := msg;
                    l_timestamp := utcnow_default env;
                    log_type := NARRATIVE |}])
  /\ (forall g, g <> game_id -> find_session g d' = find_session g d).
Proof.
  cbv zeta. rewrite process_round_run.
  destruct (active_rounds w !! game_id) as [held|].
  { change (db (Ok None, with_logged [LogAlreadyProcessing game_id] w).2)
      with (db w).
    repeat split; eauto. exists []. now rewrite set_processed_nil. }
  rewrite guarded_run, round_body_run.
  destruct (select_actions_tables game_id force env (acquire game_id w))
    as (Hg & Hp & Hgp & Ha & Hl & Hs).
  simpl in Hg, Hp, Hgp, Ha, Hl, Hs.
  assert (Hbase : forall w1,
             db w1 = db (select_actions game_id force env
                          (acquire game_id w)).2 ->
             tbl_games (db w1) = tbl_games (db w)
             /\ tbl_players (db w1) = tbl_players (db w)
             /\ tbl_game_players (db w1) = tbl_game_players (db w)
             /\ (exists ids, tbl_actions (db w1)
                             = tbl_actions (set_processed game_id ids (db w)))
             /\ (tbl_game_logs (db w1) = tbl_game_logs (db w)
                 \/ exists msg,
                      tbl_game_logs (db w1)
                      = tbl_game_logs (db w)
                        ++ [{| l_game_id := game_id; message := msg;
                               l_timestamp := utcnow_default env;
                               log_type := NARRATIVE |}])
             /\ (forall g, g <> game_id ->
                   find_session g (db w1) = find_session g (db w))).
  { intros w1 ->. repeat split; eauto.
    exists []. now rewrite set_processed_nil. }
  destruct (select_actions game_id force env (acquire game_id w))
    as [[[[[game_state player_actions] action_ids]|]|e] w1]; simpl in *;
    [|now apply Hbase..].
  destruct (generate_narrative_effect game_state player_actions env w1)
    as (narrative & w2 & -> & Hdb & _).
  rewrite commit_round_run. simpl. rewrite Hdb.
  destruct (commit_tables game_id game_state narrative action_ids
              (utcnow_update env) (utcnow_default env) (db w1))
    as ((Hg1 & Hg2 & Hg3) & (Hp1 & Hp2 & Hp3) & (Hq1 & Hq2 & Hq3)
        & (ids & Ha1 & Ha2 & Ha3) & (Hl1 & Hl2 & Hl3)).
  assert (Hact : forall ids',
             tbl_actions (set_processed game_id ids' (db w1))
             = tbl_actions (set_processed game_id ids' (db w)))
    by (intros ids'; unfold set_processed; simpl; now rewrite Ha).
  assert (Hfs : forall g, g <> game_id ->
             find_session g (advanced game_id (utcnow_update env)
                               (marked game_id action_ids (db w1)))
             = find_session g (db w)).
  { intros g Hne. rewrite find_session_other_advanced by exact Hne.
    rewrite find_session_marked. now apply Hs. }
  destruct (nonempty action_ids && faults env StMark); simpl.
  { rewrite Hdb. now apply Hbase. }
  destruct (faults env StSession); simpl.
  { rewrite Hg1, Hp1, Hq1, Hl1, Ha1, Hact, Hg, Hp, Hgp, Hl.
    repeat split; eauto.
    intros g Hne. rewrite find_session_marked. now apply Hs. }
  destruct (truthy narrative && faults env StLog); simpl.
  { rewrite Hg2, Hp2, Hq2, Hl2, Ha2, Ha1, Hact, Hg, Hp, Hgp, Hl.
    repeat split; eauto. }
  rewrite Hg3, Hp3, Hq3, Ha3, Ha1, Hact, Hg, Hp, Hgp.
  repeat split; eauto.
  - destruct Hl3 as [-> | ->]; rewrite Hl; eauto.
  - intros g Hne. unfold narrated.
    destruct (truthy narrative); [|now apply Hfs].
    exact (Hfs g Hne).
Qed.

(* ===================================================================== *)
(** * Invariants of the engine's operations *)
(* ===================================================================== *)

Lemma run_ops_cons (op : EngineOp) (ops : list EngineOp) (w : World) :
  run_ops (op :: ops) w = run_ops ops (run_op op w).
Proof. reflexivity. Qed.

Lemma round_body_active_rounds (game_id : Z) (force : bool) (env : Env)
    (w : World) :
  active_rounds (round_body game_id force env w).2 = active_rounds w.
Proof.
  rewrite round_body_run.
  destruct (select_actions_effect game_id force env w) as (Hact & _ & _).
  destruct (select_actions game_id force env w)
    as [[[[[game_state player_actions] action_ids]|]|e] w1]; simpl in *;
    try exact Hact.
  destruct (generate_narrative_effect game_state player_actions env w1)
    as (narrative & w2 & -> & _ & Hact2).
  now rewrite commit_round_active_rounds, Hact2.
Qed.

Lemma process_round_active_rounds (game_id : Z) (force : bool) (env : Env)
    (w : World) :
  active_rounds (process_round game_id force env w).2 = active_rounds w.
Proof.
  rewrite process_round_run.
  destruct (active_rounds w !! game_id) as [held|] eqn:Hfree; [reflexivity|].
  rewrite guarded_run.
  pose proof (round_body_active_rounds game_id force env (acquire game_id w))
    as Hact.
  destruct (round_body game_id force env (acquire game_id w))
    as [[result|e] w1]; simpl in *; rewrite Hact;
    now apply delete_insert_id.
Qed.

(** X7.  [process_round] never keeps the token: whatever it returns and
    whichever call of the database raises, [active_rounds] is after the call
    what it was before, and so after any sequence of calls. *)
Theorem process_round_releases_the_token (game_id : Z) (force : bool)
    (env : Env) (w : World) (ops : list EngineOp) :
  active_rounds (process_round game_id force env w).2 = active_rounds w
  /\ active_rounds (run_ops ops w) = active_rounds w.
Proof.
  split; [apply process_round_active_rounds|].
  revert w. induction ops as [|op ops IH]; intros w; [reflexivity|].
  rewrite run_ops_cons, IH.
  destruct op; simpl;
    [apply process_round_active_rounds | apply queue_action_active_rounds].
Qed.

Lemma queue_action_db (game_id player_id : Z) (text : string) (env : Env)
    (w : World) :
  db (queue_action game_id player_id text env w).2
  = if faults env StQueue then db w
    else add_action
           {| a_id := next_action_id (db w); a_game_id := game_id;
              a_player_id := player_id; a_action_text := text;
              a_timestamp := utcnow_default env; processed := false |}
           (db w).
Proof.
  unfold queue_action. unfold_m. destruct (faults env StQueue); reflexivity.
Qed.

(** X8.  No operation of the engine writes to the tables of the games, of
    the players or of the rosters: statuses, locations, stats and hit
    points are after any sequence of calls what they were before. *)
Theorem engine_keeps_games_and_players (ops : list EngineOp) (w : World) :
  tbl_games (db (run_ops ops w)) = tbl_games (db w)
  /\ tbl_players (db (run_ops ops w)) = tbl_players (db w)
  /\ tbl_game_players (db (run_ops ops w)) = tbl_game_players (db w).
Proof.
  revert w. induction ops as [|op ops IH]; intros w;
    [repeat split; reflexivity|].
  rewrite run_ops_cons.
  destruct (IH (run_op op w)) as (-> & -> & ->).
  destruct op as [game_id force env|game_id player_id text env]; simpl.
  - destruct (process_round_tables game_id force env w)
      as (Hg & Hp & Hgp & _). auto.
  - rewrite queue_action_db. destruct (faults env StQueue); auto.
Qed.

(** X9.  The log is append-only under the engine: after any sequence of
    calls the former entries are there, in place and unchanged; the new
    ones are of type NARRATIVE and at most one for each call of
    [process_round]. *)
Theorem engine_appends_to_the_log (ops : list EngineOp) (w : World) :
  exists new,
    tbl_game_logs (db (run_ops ops w)) = tbl_game_logs (db w) ++ new
    /\ Forall (fun l => log_type l = NARRATIVE) new
    /\ (length new <= count_rounds ops)%nat.
Proof.
  revert w. induction ops as [|op ops IH]; intros w.
  { exists []. simpl. rewrite app_nil_r. repeat split; [constructor | lia]. }
  rewrite run_ops_cons.
  destruct (IH (run_op op w)) as (new & -> & Hty & Hlen).
  destruct op as [game_id force env|game_id player_id text env];
    unfold count_rounds in *; simpl.
  - destruct (process_round_tables game_id force env w)
      as (_ & _ & _ & _ & [-> | [msg ->]] & _).
    + exists new. repeat split; [exact Hty | lia].
    + eexists (_ :: new). rewrite <- app_assoc. simpl.
      repeat split; [constructor; [reflexivity | exact Hty] | lia].
  - rewrite queue_action_db.
    exists new. destruct (faults env StQueue); repeat split; auto.
Qed.

Lemma same_action_later_refl (a : Action) : same_action_later a a.
Proof. repeat split; auto. Qed.

Lemma same_action_later_trans (a b c : Action) :
  same_action_later a b -> same_action_later b c -> same_action_later a c.
Proof.
  intros (H1 & H2 & H3 & H4 & H5 & H6) (K1 & K2 & K3 & K4 & K5 & K6).
  repeat split; try congruence. auto.
Qed.

Lemma actions_extend_refl (l : list Action) : actions_extend l l.
Proof.
  exists l, []. split; [now rewrite app_nil_r|].
  apply Forall2_same_length_lookup. split; [reflexivity|].
  intros i x y Hx Hy. rewrite Hx in Hy. inversion Hy.
  apply same_action_later_refl.
Qed.

Lemma actions_extend_trans (l1 l2 l3 : list Action) :
  actions_extend l1 l2 -> actions_extend l2 l3 -> actions_extend l1 l3.
Proof.
  intros (kept1 & added1 & -> & H1) (kept2 & added2 & -> & H2).
  apply Forall2_app_inv_l in H2 as (k2a & k2b & Ha & Hb & ->).
  exists k2a, (k2b ++ added2). split; [now rewrite app_assoc|].
  clear Hb. revert k2a Ha.
  induction H1 as [|x y l k Hxy H1 IH]; intros k2a Ha.
  - inversion Ha. constructor.
  - inversion Ha as [|? z ? k' Hyz Ha']; subst. constructor.
    + exact (same_action_later_trans _ _ _ Hxy Hyz).
    + now apply IH.
Qed.

Lemma actions_extend_set_processed (game_id : Z) (ids : list Z) (d : DB) :
  actions_extend (tbl_actions d) (tbl_actions (set_processed game_id ids d)).
Proof.
  exists (tbl_actions (set_processed game_id ids d)), [].
  split; [now rewrite app_nil_r|].
  unfold set_processed. simpl.
  induction (tbl_actions d) as [|a l IH]; simpl; constructor; [|exact IH].
  destruct ((a_game_id a =? game_id) && in_list (a_id a) ids);
    repeat split; auto.
Qed.

(** X10.  Under the engine an action is never deleted, never changed and
    never unprocessed: after any sequence of calls the table of actions
    holds, in place, every former row with the same id, game, player, text
    and timestamp, processed if it was, followed by the rows queued since. *)
Theorem actions_are_kept_and_stay_processed (ops : list EngineOp) (w : World) :
  actions_extend (tbl_actions (db w)) (tbl_actions (db (run_ops ops w))).
Proof.
  revert w. induction ops as [|op ops IH]; intros w;
    [apply actions_extend_refl|].
  rewrite run_ops_cons.
  apply (actions_extend_trans _ (tbl_actions (db (run_op op w)))); [|apply IH].
  destruct op as [game_id force env|game_id player_id text env]; simpl.
  - destruct (process_round_tables game_id force env w)
      as (_ & _ & _ & (ids & ->) & _).
    apply actions_extend_set_processed.
  - rewrite queue_action_db. destruct (faults env StQueue);
      [apply actions_extend_refl|].
    simpl. eexists _, [_]. split; [reflexivity|].
    destruct (actions_extend_refl (tbl_actions (db w)))
      as (kept & added & Heq & Hall).
    apply Forall2_same_length_lookup. split; [reflexivity|].
    intros i x y Hx Hy. rewrite Hx in Hy. inversion Hy.
    apply same_action_later_refl.
Qed.

Lemma fold_max_bound (l : list Z) (x : Z) :
  x ∈ l -> x <= fold_right Z.max 0 l.
Proof.
  induction l as [|y l IH]; intros Hin; [now apply elem_of_nil in Hin|].
  apply elem_of_cons in Hin as [->|Hin]; simpl; [lia|].
  specialize (IH Hin). lia.
Qed.

Lemma set_processed_ids (game_id : Z) (ids : list Z) (d : DB) :
  map a_id (tbl_actions (set_processed game_id ids d))
  = map a_id (tbl_actions d).
Proof.
  unfold set_processed. simpl.
  induction (tbl_actions d) as [|a l IH]; simpl; [reflexivity|].
  rewrite IH.
  destruct ((a_game_id a =? game_id) && in_list (a_id a) ids); reflexivity.
Qed.

(** X11.  The ids of the actions stay pairwise distinct: [queue_action]
    gives a new action an id above every id of the table, and no call of
    [process_round] changes an id. *)
Theorem action_ids_stay_distinct (ops : list EngineOp) (w : World) :
  NoDup (map a_id (tbl_actions (db w))) ->
  NoDup (map a_id (tbl_actions (db (run_ops ops w)))).
Proof.
  revert w. induction ops as [|op ops IH]; intros w Hnd; [exact Hnd|].
  rewrite run_ops_cons. apply IH.
  destruct op as [game_id force env|game_id player_id text env]; simpl.
  - destruct (process_round_tables game_id force env w)
      as (_ & _ & _ & (ids & ->) & _).
    now rewrite set_processed_ids.
  - rewrite queue_action_db. destruct (faults env StQueue); [exact Hnd|].
    simpl. rewrite map_app. simpl. apply NoDup_app.
    split; [exact Hnd|]. split; [|apply NoDup_singleton].
    intros x Hx Hx'. apply list_elem_of_singleton in Hx'. subst x.
    apply fold_max_bound in Hx. unfold next_action_id in Hx. lia.
Qed.

Lemma action_ids_stay_distinct_witness :
  NoDup (map a_id (tbl_actions (db (run_ops demo_ops (fresh demo_db))))).
Proof.
  apply (action_ids_stay_distinct demo_ops (fresh demo_db)).
  simpl. apply NoDup_singleton.
Defined.

(* ===================================================================== *)
(** * The pending actions of a snapshot *)
(* ===================================================================== *)

Lemma elem_of_bool_filter {A} (p : A -> bool) (l : list A) (x : A) :
  x ∈ List.filter p l <-> x ∈ l /\ p x = true.
Proof. rewrite !list_elem_of_In. apply filter_In. Qed.

Lemma elem_of_list_map {A B} (f : A -> B) (l : list A) (y : B) :
  y ∈ map f l <-> exists x, y = f x /\ x ∈ l.
Proof.
  rewrite list_elem_of_In, in_map_iff. split.
  - intros (x & <- & Hx). exists x. split; [reflexivity|].
    now apply list_elem_of_In.
  - intros (x & -> & Hx). exists x. split; [reflexivity|].
    now apply list_elem_of_In.
Qed.

Lemma Permutation_map_list {A B} (f : A -> B) (l l' : list A) :
  l ≡ₚ l' -> map f l ≡ₚ map f l'.
Proof. intros H. now apply Permutation_map. Qed.

Lemma StronglySorted_map_list {A B} (f : A -> B) (R1 : relation A)
    (R2 : relation B) (l : list A) :
  (forall x y, R1 x y -> R2 (f x) (f y)) ->
  StronglySorted R1 l -> StronglySorted R2 (map f l).
Proof.
  intros HR. induction 1 as [|x l Hs IH Hall]; simpl; constructor.
  - exact IH.
  - clear Hs IH. induction Hall; simpl; constructor; auto.
Qed.

Lemma older_first_total : Total older_first.
Proof. intros a b. unfold older_first. lia. Qed.

Lemma older_first_trans : Transitive older_first.
Proof. intros a b c. unfold older_first. lia. Qed.

Lemma pending_actions_view (game_id : Z) (d : DB) :
  pending_actions_of_game game_id d
  ≡ₚ map pending_of
       (List.filter (fun a => (a_game_id a =? game_id) && negb (processed a))
                    (tbl_actions d))
  /\ StronglySorted (fun x y => pa_timestamp x <= pa_timestamp y)
       (pending_actions_of_game game_id d).
Proof.
  unfold pending_actions_of_game. split.
  - apply (Permutation_map_list pending_of), merge_sort_Permutation.
  - apply (StronglySorted_map_list pending_of older_first);
      [intros x y H; exact H|].
    apply (@StronglySorted_merge_sort _ older_first _ older_first_trans
             older_first_total).
Qed.

Lemma elem_of_pending (game_id : Z) (d : DB) (x : PendingAction) :
  x ∈ pending_actions_of_game game_id d
  <-> exists a, a ∈ tbl_actions d /\ a_game_id a = game_id
                /\ processed a = false /\ x = pending_of a.
Proof.
  destruct (pending_actions_view game_id d) as [Hperm _].
  rewrite Hperm, elem_of_list_map. split.
  - intros (a & -> & Ha). apply elem_of_bool_filter in Ha as [Ha Hp].
    apply andb_true_iff in Hp as [Hg Hn]. apply Z.eqb_eq in Hg.
    exists a. repeat split; auto. now destruct (processed a).
  - intros (a & Ha & Hg & Hn & ->). exists a. split; [reflexivity|].
    apply elem_of_bool_filter. split; [exact Ha|].
    rewrite Hn. simpl. rewrite andb_true_r. now apply Z.eqb_eq.
Qed.

(** X12.  The pending actions of a snapshot are the actions of the game
    that are not processed, each once, with their id, player, text and
    timestamp, and in the order of their timestamps, oldest first. *)
Theorem pending_actions_are_the_unprocessed_oldest_first (game_id : Z)
    (d : DB) :
  pending_actions_of_game game_id d
  ≡ₚ map pending_of
       (List.filter (fun a => (a_game_id a =? game_id) && negb (processed a))
                    (tbl_actions d))
  /\ StronglySorted (fun x y => pa_timestamp x <= pa_timestamp y)
       (pending_actions_of_game game_id d)
  /\ (forall x,
        x ∈ pending_actions_of_game game_id d
        <-> exists a, a ∈ tbl_actions d /\ a_game_id a = game_id
                      /\ processed a = false /\ x = pending_of a).
Proof.
  destruct (pending_actions_view game_id d) as [Hperm Hsorted].
  split; [exact Hperm|]. split; [exact Hsorted|].
  intros x. apply elem_of_pending.
Qed.

Lemma pending_of_other_game_set_processed (game_id g : Z) (ids : list Z)
    (d : DB) :
  g <> game_id ->
  pending_actions_of_game g (set_processed game_id ids d)
  = pending_actions_of_game g d.
Proof.
  intros Hne. unfold pending_actions_of_game, set_processed. simpl.
  do 2 f_equal.
  induction (tbl_actions d) as [|a l IH]; simpl; [reflexivity|].
  rewrite IH.
  destruct (Z.eqb_spec (a_game_id a) game_id) as [Hg|Hg]; simpl;
    [|reflexivity].
  destruct (in_list (a_id a) ids); simpl; [|reflexivity].
  destruct (Z.eqb_spec (a_game_id a) g); [congruence|]. reflexivity.
Qed.

(** X13.  After [mark_actions_processed] has committed, the pending actions
    of the game are those that were pending and whose id is not in the
    list: a marked action does not come back in a snapshot.  The pending
    actions of every other game are as they were. *)
Theorem marked_actions_leave_the_pending_list (game_id : Z) (ids : list Z)
    (env : Env) (w : World) :
  faults env StMark = false ->
  let d' := db (mark_actions_processed game_id ids env w).2 in
  (forall x,
      x ∈ pending_actions_of_game game_id d'
      <-> x ∈ pending_actions_of_game game_id (db w)
          /\ in_list (pa_id x) ids = false)
  /\ (forall g, g <> game_id ->
        pending_actions_of_game g d' = pending_actions_of_game g (db w)).
Proof.
  intros Hok d'.
  assert (Hd : d' = set_processed game_id ids (db w)).
  { subst d'. unfold mark_actions_processed. unfold_m. now rewrite Hok. }
  rewrite Hd. clear Hd d'. split.
  - intros x. rewrite !elem_of_pending. split.
    + intros (a' & Ha' & Hg & Hn & ->).
      unfold set_processed in Ha'. simpl in Ha'.
      apply elem_of_list_map in Ha' as (a & -> & Ha).
      destruct ((a_game_id a =? game_id) && in_list (a_id a) ids) eqn:Hmark;
        simpl in *; [discriminate|].
      split; [exists a; auto|].
      apply Z.eqb_eq in Hg. now rewrite Hg in Hmark.
    + intros [(a & Ha & Hg & Hn & ->) Hx]. exists a.
      repeat split; auto.
      unfold set_processed. simpl. apply elem_of_list_map. exists a.
      split; [|exact Ha]. simpl in Hx. rewrite Hx, andb_false_r. reflexivity.
  - intros g Hne. now apply pending_of_other_game_set_processed.
Qed.

Lemma marked_actions_leave_the_pending_list_witness :
  pending_of attack ∈ pending_actions_of_game 1 demo_db
  /\ pending_of attack
     ∉ pending_actions_of_game 1
         (db (mark_actions_processed 1 [1] (env_of no_fault None)
                (fresh demo_db)).2).
Proof.
  destruct (marked_actions_leave_the_pending_list 1 [1]
              (env_of no_fault None) (fresh demo_db) eq_refl) as [Hin _].
  split; [left|].
  intros Hafter. apply Hin in Hafter as [_ Hid]. discriminate Hid.
Defined.

(* ===================================================================== *)
(** * Queueing an action and building the batch *)
(* ===================================================================== *)

(** X14.  [queue_action] checks neither the game nor the player: for any
    ids, when its commit succeeds, it appends one unprocessed action whose
    id is new in the table, which is then among the pending actions of that
    game; what was pending stays pending and the pending actions of the
    other games are as they were. *)
Theorem queued_action_is_pending (game_id player_id : Z) (text : string)
    (env : Env) (w : World) :
  faults env StQueue = false ->
  let out := queue_action game_id player_id text env w in
  exists a,
    out.1 = Ok a
    /\ tbl_actions (db out.2) = tbl_actions (db w) ++ [a]
    /\ (a_id a ∉ map a_id (tbl_actions (db w)))
    /\ (a_game_id a, a_player_id a, a_action_text a, processed a)
       = (game_id, player_id, text, false)
    /\ pending_of a ∈ pending_actions_of_game game_id (db out.2)
    /\ (forall x, x ∈ pending_actions_of_game game_id (db w) ->
                  x ∈ pending_actions_of_game game_id (db out.2))
    /\ (forall g, g <> game_id ->
          pending_actions_of_game g (db out.2)
          = pending_actions_of_game g (db w)).
Proof.
  intros Hok out. subst out. unfold queue_action. unfold_m. rewrite Hok.
  simpl. eexists. split; [reflexivity|]. split; [reflexivity|].
  split.
  { simpl. intros Hin. apply fold_max_bound in Hin.
    unfold next_action_id in Hin. lia. }
  split; [reflexivity|]. split; [|split].
  - apply elem_of_pending. eexists. split; [|repeat split; reflexivity].
    simpl. apply elem_of_app. right. left.
  - intros x Hx. apply elem_of_pending in Hx as (a & Ha & Hg & Hn & ->).
    apply elem_of_pending. exists a. repeat split; auto.
    simpl. apply elem_of_app. now left.
  - intros g Hne. unfold pending_actions_of_game. simpl.
    rewrite List.filter_app. simpl.
    destruct (Z.eqb_spec game_id g); [congruence|]. simpl.
    now rewrite app_nil_r.
Qed.

Lemma queued_action_is_pending_witness :
  (queue_action 7 9 "waits" (env_of no_fault None) (fresh demo_db)).1
  = Ok {| a_id := 2; a_game_id := 7; a_player_id := 9;
          a_action_text := "waits"; a_timestamp := 7000000;
          processed := false |}.
Proof.
  destruct (queued_action_is_pending 7 9 "waits" (env_of no_fault None)
              (fresh demo_db) eq_refl) as (a & Hres & _).
  rewrite Hres. vm_compute in Hres. now inversion Hres.
Defined.

Lemma collect_actions_ok (roster : list Player)
    (pending_actions : list PendingAction) :
  forall player_actions action_ids env w result w',
    collect_actions roster pending_actions player_actions action_ids env w
    = (Ok result, w') ->
    let batch :=
      omap (resolve_action roster (tbl_players (db w))) pending_actions in
    result = (player_actions ++ map fst batch, action_ids ++ map snd batch)
    /\ db w' = db w.
Proof.
  induction pending_actions as [|a rest IH];
    intros player_actions action_ids env w result w' Hrun; simpl in *.
  - inversion Hrun. now rewrite !app_nil_r.
  - unfold resolve_action, player_of.
    destruct (find_player (pa_player_id a) roster) as [player|] eqn:Hroster.
    + apply IH in Hrun as [-> Hdb]. simpl.
      rewrite <- !app_assoc. split; [reflexivity | exact Hdb].
    + revert Hrun. unfold_m.
      destruct (faults env StLookup); [discriminate|].
      destruct (find_player (pa_player_id a) (tbl_players (db w)))
        as [player_obj|] eqn:Hall; intros Hrun.
      * apply IH in Hrun as [-> Hdb]. simpl.
        rewrite <- !app_assoc. split; [reflexivity | exact Hdb].
      * apply IH in Hrun as [-> Hdb]. simpl in *.
        split; [reflexivity | exact Hdb].
Qed.

Lemma collect_actions_returns (roster : list Player)
    (pending_actions : list PendingAction) :
  forall player_actions action_ids env w,
    faults env StLookup = false
    \/ Forall (fun a => is_Some (find_player (pa_player_id a) roster))
              pending_actions ->
    exists result w',
      collect_actions roster pending_actions player_actions action_ids env w
      = (Ok result, w').
Proof.
  induction pending_actions as [|a rest IH];
    intros player_actions action_ids env w Hcase; simpl.
  - unfold_m. eauto.
  - assert (Hrest : faults env StLookup = false
                    \/ Forall (fun a => is_Some
                                 (find_player (pa_player_id a) roster)) rest).
    { destruct Hcase as [H|H]; [now left|]. right. now inversion H. }
    destruct (find_player (pa_player_id a) roster) as [player|] eqn:Hroster;
      [now apply IH|].
    destruct Hcase as [Hok|Hall].
    + unfold_m. rewrite Hok.
      destruct (find_player (pa_player_id a) (tbl_players (db w)));
        now apply IH.
    + inversion Hall as [|? ? [p Hp] ?]; subst. congruence.
Qed.

(** X15.  The loop of lines 80-102 is a filter: when the player query does
    not fail, or is not needed because every acting player is in the
    roster, it returns, for the pending actions whose player is found (in
    the roster, else in the table of players), their player actions and
    their ids, in the order of the pending actions; the two lists have one
    length, and the actions whose player is not found are left out of
    both.  It writes nothing. *)
Theorem collect_actions_is_a_filter (roster : list Player)
    (pending_actions : list PendingAction) (env : Env) (w : World) :
  faults env StLookup = false
  \/ Forall (fun a => is_Some (find_player (pa_player_id a) roster))
            pending_actions ->
  let batch :=
    omap (resolve_action roster (tbl_players (db w))) pending_actions in
  let out := collect_actions roster pending_actions [] [] env w in
  out.1 = Ok (map fst batch, map snd batch)
  /\ length (map fst batch) = length (map snd batch)
  /\ db out.2 = db w.
Proof.
  intros Hcase batch out.
  destruct (collect_actions_returns roster pending_actions [] [] env w Hcase)
    as (result & w' & Hrun).
  destruct (collect_actions_ok _ _ _ _ _ _ _ _ Hrun) as [-> Hdb].
  subst out. rewrite Hrun. simpl.
  split; [reflexivity|]. split; [now rewrite !length_map | exact Hdb].
Qed.

Lemma collect_actions_is_a_filter_witness :
  (collect_actions [thorne] [pending_attack 1 1; pending_attack 3 2] [] []
     (env_of no_fault None) (fresh demo_db)).1
  = Ok ([{| player_name := "Thorne"; action_text := "attacks" |}], [1]).
Proof.
  destruct (collect_actions_is_a_filter [thorne]
              [pending_attack 1 1; pending_attack 3 2]
              (env_of no_fault None) (fresh demo_db) (or_introl eq_refl))
    as (Hres & _).
  exact Hres.
Defined.

Lemma status_value_is_active (st : GameStatus) :
  String.eqb (status_value st) "active" = true -> st = ACTIVE.
Proof. destruct st; simpl; intros H; try discriminate H; reflexivity. Qed.

(** What lines 52-102 have selected when they select: the snapshot of an
    active game and of its session, and the batch of the game. *)
Lemma select_actions_plan (game_id : Z) (force : bool) (env : Env)
    (w w1 : World) (game_state : GameState)
    (player_actions : list PlayerAction) (action_ids : list Z) :
  select_actions game_id force env w
  = (Ok (Some (game_state, player_actions, action_ids)), w1) ->
  exists game session,
    find_game game_id (db w) = Some game
    /\ g_status game = ACTIVE
    /\ find_session game_id (db w1) = Some session
    /\ round_number session = round_of game_id (db w)
    /\ game_state = make_state game_id game session (db w1)
    /\ player_actions = map fst (batch_of_game game_id (db w))
    /\ action_ids = map snd (batch_of_game game_id (db w))
    /\ tbl_actions (db w1) = tbl_actions (db w)
    /\ tbl_game_logs (db w1) = tbl_game_logs (db w).
Proof.
  rewrite select_actions_run.
  assert (Hgs : forall game session w0 (Hw0 : tbl_actions (db w0)
                                          = tbl_actions (db w)
                                        /\ tbl_game_logs (db w0)
                                           = tbl_game_logs (db w)
                                        /\ tbl_players (db w0)
                                           = tbl_players (db w)
                                        /\ tbl_game_players (db w0)
                                           = tbl_game_players (db w)),
             find_game game_id (db w) = Some game ->
             find_session game_id (db w0) = Some session ->
             round_number session = round_of game_id (db w) ->
             (let game_state0 := make_state game_id game session (db w0) in
              let pending_actions := gs_pending_actions game_state0 in
              if negb (String.eqb (gs_status game_state0) "active")
              then (Ok None, with_logged [LogNotActive game_id] w0)
              else if negb (nonempty pending_actions) && negb force
              then (Ok None, with_logged [LogNoPending game_id] w0)
              else if negb (_should_process_round (settings env)
                              (utcnow_check env) game_state0 pending_actions
                              force)
              then (Ok None, w0)
              else
                match collect_actions (gs_players game_state0)
                        pending_actions [] [] env w0 with
                | (Ok batch, w2) =>
                    (Ok (Some (game_state0, batch.1, batch.2)), w2)
                | (Raised e, w2) => (Raised e, w2)
                end)
             = (Ok (Some (game_state, player_actions, action_ids)), w1) ->
             exists game session,
               find_game game_id (db w) = Some game
               /\ g_status game = ACTIVE
               /\ find_session game_id (db w1) = Some session
               /\ round_number session = round_of game_id (db w)
               /\ game_state = make_state game_id game session (db w1)
               /\ player_actions = map fst (batch_of_game game_id (db w))
               /\ action_ids = map snd (batch_of_game game_id (db w))
               /\ tbl_actions (db w1) = tbl_actions (db w)
               /\ tbl_game_logs (db w1) = tbl_game_logs (db w)).
  { intros game session w0 (Ha & Hl & Hp & Hgp) Hgame Hsession Hround.
    cbv zeta.
    destruct (String.eqb (gs_status _) "active") eqn:Hst; simpl;
      [|discriminate].
    apply status_value_is_active in Hst.
    destruct (negb (nonempty _) && negb force); [discriminate|].
    destruct (negb (_should_process_round _ _ _ _ _)); [discriminate|].
    destruct (collect_actions _ _ [] [] env w0) as [[batch|e] w2] eqn:Hrun;
      [|discriminate].
    intros Heq. inversion Heq; subst. clear Heq.
    apply collect_actions_ok in Hrun as [-> Hdb]. simpl.
    assert (Hbatch :
      omap (resolve_action (players_of_game game_id (db w0))
              (tbl_players (db w0)))
           (pending_actions_of_game game_id (db w0))
      = batch_of_game game_id (db w)).
    { unfold batch_of_game, players_of_game, pending_actions_of_game.
      now rewrite Ha, Hp, Hgp. }
    rewrite Hbatch, Hdb.
    exists game, session. repeat split; auto. }
  rewrite get_game_state_run.
  destruct (faults env StLoad); [discriminate|].
  destruct (find_game game_id (db w)) as [game|] eqn:Hgame; [|discriminate].
  destruct (find_session game_id (db w)) as [session|] eqn:Hs.
  - destruct (faults env StSnapshot); [discriminate|].
    apply (Hgs game session w); auto.
    unfold round_of. now rewrite Hs.
  - destruct (faults env StCreateSession); [discriminate|]. cbv zeta.
    destruct (faults env StSnapshot); [discriminate|].
    apply (Hgs game (new_session game_id (utcnow_default env))); auto.
    + simpl. rewrite find_session_add_session, Hs. simpl.
      now rewrite Z.eqb_refl.
    + unfold round_of. now rewrite Hs.
Qed.

(* ===================================================================== *)
(** * The actions a round marks *)
(* ===================================================================== *)

(** The ids a call of [process_round] marks are none, or those of the batch
    of the game. *)
Lemma process_round_marks (game_id : Z) (force : bool) (env : Env)
    (w : World) :
  exists ids,
    tbl_actions (db (process_round game_id force env w).2)
    = tbl_actions (set_processed game_id ids (db w))
    /\ (ids = [] \/ ids = map snd (batch_of_game game_id (db w))).
Proof.
  rewrite process_round_run.
  destruct (active_rounds w !! game_id) as [held|].
  { exists []. split; [now rewrite set_processed_nil | now left]. }
  rewrite guarded_run, round_body_run.
  destruct (select_actions_tables game_id force env (acquire game_id w))
    as (_ & _ & _ & Ha & _).
  destruct (select_actions game_id force env (acquire game_id w))
    as [[[[[game_state player_actions] action_ids]|]|e] w1] eqn:Hsel;
    simpl in Ha;
    [|exists []; split; [now rewrite set_processed_nil | now left]..].
  apply select_actions_plan in Hsel
    as (game & session & _ & _ & _ & _ & _ & _ & Hids & _ & _).
  simpl in Hids.
  destruct (generate_narrative_effect game_state player_actions env w1)
    as (narrative & w2 & -> & Hdb & _).
  rewrite commit_round_run. cbv zeta. rewrite Hdb.
  destruct (commit_tables game_id game_state narrative action_ids
              (utcnow_update env) (utcnow_default env) (db w1))
    as (_ & _ & _ & (ids' & _ & Ha2 & Ha3) & _).
  assert (Hmarked : exists ids,
             tbl_actions (marked game_id action_ids (db w1))
             = tbl_actions (set_processed game_id ids (db w))
             /\ (ids = [] \/ ids = map snd (batch_of_game game_id (db w)))).
  { unfold marked. destruct (nonempty action_ids).
    - exists action_ids. split; [|now right].
      unfold set_processed. simpl. now rewrite Ha.
    - exists []. split; [now rewrite set_processed_nil | now left]. }
  destruct (nonempty action_ids && faults env StMark).
  { exists []. split; [|now left]. rewrite set_processed_nil.
    change (tbl_actions (db w2) = tbl_actions (db w)).
    now rewrite Hdb. }
  destruct (faults env StSession); [exact Hmarked|].
  destruct (truthy narrative && faults env StLog).
  - destruct Hmarked as (ids & Hm & Hcase). exists ids.
    split; [|exact Hcase]. etransitivity; [exact Ha2 | exact Hm].
  - destruct Hmarked as (ids & Hm & Hcase). exists ids.
    split; [|exact Hcase]. etransitivity; [exact Ha3 | exact Hm].
Qed.

Lemma in_list_elem_of (x : Z) (l : list Z) : in_list x l = true <-> x ∈ l.
Proof.
  unfold in_list. rewrite existsb_exists, list_elem_of_In. split.
  - intros (y & Hy & Hxy). apply Z.eqb_eq in Hxy. now subst.
  - intros Hx. exists x. split; [exact Hx | apply Z.eqb_refl].
Qed.

Lemma NoDup_ids_same_row (l : list Action) (a a' : Action) :
  NoDup (map a_id l) -> a ∈ l -> a' ∈ l -> a_id a = a_id a' -> a = a'.
Proof.
  induction l as [|x l IH]; intros Hnd Ha Ha' Hid;
    [now apply elem_of_nil in Ha|].
  simpl in Hnd. apply NoDup_cons in Hnd as [Hx Hnd].
  apply elem_of_cons in Ha as [->|Ha]; apply elem_of_cons in Ha' as [->|Ha'].
  - reflexivity.
  - destruct Hx. rewrite Hid. apply elem_of_list_map. eauto.
  - destruct Hx. rewrite <- Hid. apply elem_of_list_map. eauto.
  - now apply IH.
Qed.

Lemma roster_player_is_a_player (game_id player_id : Z) (d : DB) (p : Player) :
  find_player player_id (players_of_game game_id d) = Some p ->
  exists p', find_player player_id (tbl_players d) = Some p'.
Proof.
  unfold find_player, players_of_game. intros Hfind.
  apply find_some in Hfind as [Hin Hid].
  destruct (map gp_player_id _) as [|i ids]; [destruct Hin|].
  apply filter_In in Hin as [Hin _].
  destruct (List.find (fun q => p_id q =? player_id) (tbl_players d))
    as [p'|] eqn:E; [eauto|].
  rewrite (find_none _ _ E p Hin) in Hid. discriminate.
Qed.

(** An action whose player has no row is in no batch. *)
Lemma orphan_not_in_batch (game_id : Z) (d : DB) (a : Action) :
  NoDup (map a_id (tbl_actions d)) ->
  a ∈ tbl_actions d ->
  find_player (a_player_id a) (tbl_players d) = None ->
  in_list (a_id a) (map snd (batch_of_game game_id d)) = false.
Proof.
  intros Hnd Ha Horphan.
  destruct (in_list (a_id a) _) eqn:Hin; [|reflexivity]. exfalso.
  apply in_list_elem_of, elem_of_list_map in Hin as ([pa i] & Hi & Hin).
  simpl in Hi. subst i.
  apply list_elem_of_omap in Hin as (x & Hx & Hres).
  apply elem_of_pending in Hx as (a' & Ha' & _ & _ & ->).
  unfold resolve_action, player_of in Hres. simpl in Hres.
  assert (Hfound : exists p,
             find_player (a_player_id a') (tbl_players d) = Some p).
  { destruct (find_player (a_player_id a') (players_of_game game_id d))
      as [p|] eqn:Hroster.
    - exact (roster_player_is_a_player _ _ _ _ Hroster).
    - destruct (find_player (a_player_id a') (tbl_players d)); [eauto|].
      discriminate. }
  assert (Hid : a_id a = a_id a').
  { destruct (find_player (a_player_id a') (players_of_game game_id d));
      [|destruct (find_player (a_player_id a') (tbl_players d))];
      inversion Hres; reflexivity. }
  rewrite <- (NoDup_ids_same_row _ _ _ Hnd Ha Ha' Hid) in Hfound.
  destruct Hfound as [p Hp]. congruence.
Qed.

Lemma run_op_keeps_orphan (op : EngineOp) (w : World) (a : Action) :
  NoDup (map a_id (tbl_actions (db w))) ->
  a ∈ tbl_actions (db w) ->
  find_player (a_player_id a) (tbl_players (db w)) = None ->
  NoDup (map a_id (tbl_actions (db (run_op op w))))
  /\ a ∈ tbl_actions (db (run_op op w))
  /\ tbl_players (db (run_op op w)) = tbl_players (db w).
Proof.
  intros Hnd Ha Horphan.
  destruct op as [game_id force env|game_id player_id text env]; simpl.
  - destruct (process_round_tables game_id force env w)
      as (_ & Hp & _).
    destruct (process_round_marks game_id force env w)
      as (ids & -> & Hcase).
    rewrite set_processed_ids. split; [exact Hnd|]. split; [|exact Hp].
    unfold set_processed. simpl. apply elem_of_list_map. exists a.
    split; [|exact Ha].
    assert (Hnot : in_list (a_id a) ids = false).
    { destruct Hcase as [-> | ->]; [reflexivity|].
      now apply orphan_not_in_batch. }
    now rewrite Hnot, andb_false_r.
  - rewrite queue_action_db. destruct (faults env StQueue); [auto|].
    simpl. split; [|split; [apply elem_of_app; now left | reflexivity]].
    rewrite map_app. simpl. apply NoDup_app.
    split; [exact Hnd|]. split; [|apply NoDup_singleton].
    intros x Hx Hx'. apply list_elem_of_singleton in Hx'. subst x.
    apply fold_max_bound in Hx. unfold next_action_id in Hx. lia.
Qed.

(** X16.  An action whose player has no row in the table of players is
    skipped by the loop of lines 80-102 and so is never marked: with
    distinct action ids, after any sequence of calls of the engine its row
    is unchanged; an unprocessed one stays pending in every later
    snapshot. *)
Theorem orphan_action_is_never_processed (a : Action) (ops : list EngineOp)
    (w : World) :
  NoDup (map a_id (tbl_actions (db w))) ->
  a ∈ tbl_actions (db w) ->
  find_player (a_player_id a) (tbl_players (db w)) = None ->
  a ∈ tbl_actions (db (run_ops ops w))
  /\ (processed a = false ->
      pending_of a
      ∈ pending_actions_of_game (a_game_id a) (db (run_ops ops w))).
Proof.
  revert w. induction ops as [|op ops IH]; intros w Hnd Ha Horphan.
  - split; [exact Ha|]. intros Hn. apply elem_of_pending. eauto.
  - rewrite run_ops_cons.
    destruct (run_op_keeps_orphan op w a Hnd Ha Horphan)
      as (Hnd' & Ha' & Hp).
    apply IH; auto. now rewrite Hp.
Qed.

Lemma orphan_action_is_never_processed_witness :
  let ghost :=
    {| a_id := 1; a_game_id := 1; a_player_id := 9;
       a_action_text := "haunts"; a_timestamp := 0; processed := false |} in
  let d :=
    {| tbl_games := [game_with ACTIVE];
       tbl_game_sessions := tbl_game_sessions demo_db;
       tbl_players := [thorne];
       tbl_game_players := [{| gp_game_id := 1; gp_player_id := 1 |}];
       tbl_actions := [ghost]; tbl_game_logs := [] |} in
  ghost ∈ tbl_actions (db (run_ops demo_ops (fresh d)))
  /\ round_of 1 (db (run_ops demo_ops (fresh d))) = 3.
Proof.
  intros ghost d. split; [|vm_compute; reflexivity].
  apply (orphan_action_is_never_processed ghost demo_ops (fresh d)).
  - simpl. apply NoDup_singleton.
  - left.
  - reflexivity.
Defined.

(* ===================================================================== *)
(** * The scheduler: time and quorum *)
(* ===================================================================== *)

(** X17.  The scheduler never goes back with time: with the same snapshot
    and pending actions, a round that is to be resolved at one instant is to
    be resolved at every later instant. *)
Theorem scheduler_is_monotone_in_time (cfg : Settings) (now now' : Z)
    (game_state : GameState) (pending_actions : list PendingAction)
    (force : bool) :
  now <= now' ->
  _should_process_round cfg now game_state pending_actions force = true ->
  _should_process_round cfg now' game_state pending_actions force = true.
Proof.
  intros Hle. rewrite !should_process_round_counted.
  unfold counted_should_resolve.
  destruct force; [reflexivity|]. simpl.
  destruct pending_actions as [|first rest]; [discriminate|].
  destruct (MIN_PLAYERS_FOR_ROUND cfg <=? _); [|discriminate]. simpl.
  destruct (_ <=? _)%nat; [reflexivity|]. simpl.
  intros H. apply Z.leb_le in H. apply Z.leb_le. lia.
Qed.

Lemma scheduler_is_monotone_in_time_witness :
  _should_process_round default_settings 400000000
    (roster_state [thorne; mira] [pending_attack 1 1])
    [pending_attack 1 1] false = true.
Proof.
  apply (scheduler_is_monotone_in_time default_settings 300000000 400000000);
    [vm_compute; discriminate | reflexivity].
Defined.

Lemma quorum_has_every_id (roster : list Player)
    (pending : list PendingAction) :
  quorum_complete roster pending = true ->
  forall i, i ∈ map p_id roster -> i ∈ map pa_player_id pending.
Proof.
  unfold quorum_complete. rewrite forallb_forall. intros Hq i Hi.
  apply elem_of_list_map in Hi as (p & -> & Hp).
  apply list_elem_of_In in Hp. specialize (Hq p Hp).
  apply existsb_exists in Hq as (a & Ha & Hid). apply Z.eqb_eq in Hid.
  apply elem_of_list_map. exists a. split; [now symmetry|].
  now apply list_elem_of_In.
Qed.

(** X18.  Without [force], once at least [MIN_PLAYERS_FOR_ROUND] actions are
    pending, the round is resolved at once, whatever the clock, when the
    roster has at most one member, and when every member of the roster (the
    ids of the players being distinct) has a pending action. *)
Theorem quorum_resolves_the_round (cfg : Settings) (now : Z)
    (game_state : GameState) (first : PendingAction)
    (rest : list PendingAction) :
  let pending_actions := first :: rest in
  MIN_PLAYERS_FOR_ROUND cfg <= Z.of_nat (length pending_actions) ->
  (length (gs_players game_state) <= 1)%nat
  \/ (NoDup (map p_id (gs_players game_state))
      /\ quorum_complete (gs_players game_state) pending_actions = true) ->
  _should_process_round cfg now game_state pending_actions false = true.
Proof.
  intros pending_actions Hmin Hcase.
  rewrite should_process_round_counted. unfold counted_should_resolve.
  subst pending_actions.
  assert (Hlen : (length (gs_players game_state)
                  <= length (remove_dups
                               (map pa_player_id (first :: rest))))%nat).
  { destruct Hcase as [Hone | [Hnd Hq]].
    - assert (Hin : pa_player_id first
                    ∈ remove_dups (map pa_player_id (first :: rest)))
        by (apply elem_of_remove_dups; left).
      destruct (remove_dups _); [now apply elem_of_nil in Hin | simpl; lia].
    - rewrite <- (length_map p_id (gs_players game_state)).
      apply submseteq_length, NoDup_submseteq; [exact Hnd|].
      intros i Hi. apply elem_of_remove_dups.
      exact (quorum_has_every_id _ _ Hq i Hi). }
  apply andb_true_intro. split; [now apply Z.leb_le|].
  apply orb_true_iff. left. now apply Nat.leb_le.
Qed.

Lemma quorum_resolves_the_round_witness :
  _should_process_round default_settings 0
    (roster_state [thorne] [pending_attack 1 1]) [pending_attack 1 1] false
  = true
  /\ _should_process_round default_settings 0
       (roster_state [thorne; mira] [pending_attack 1 1; pending_attack 2 2])
       [pending_attack 1 1; pending_attack 2 2] false = true.
Proof.
  split.
  - apply (quorum_resolves_the_round default_settings 0
             (roster_state [thorne] [pending_attack 1 1])
             (pending_attack 1 1) []);
      [vm_compute; discriminate | left; simpl; lia].
  - apply (quorum_resolves_the_round default_settings 0
             (roster_state [thorne; mira]
                [pending_attack 1 1; pending_attack 2 2])
             (pending_attack 1 1) [pending_attack 2 2]);
      [vm_compute; discriminate|].
    right. split; [|reflexivity].
    simpl. apply NoDup_cons. split; [|apply NoDup_singleton].
    intros H. apply list_elem_of_singleton in H. discriminate H.
Defined.

(* ===================================================================== *)
(** * The stats of a command *)
(* ===================================================================== *)

Lemma extract_stats_loop_spec (int : string -> option Z)
    (names : list string) (args : gmap string string) :
  forall acc stats,
    extract_stats_loop int names args acc = Some stats ->
    exists new,
      stats = acc ++ new
      /\ sublist (map fst new) (map str_upper names)
      /\ (forall k v, (k, v) ∈ new ->
            exists name text,
              name ∈ names /\ k = str_upper name
              /\ args !! name = Some text /\ int text = Some v)
      /\ (forall name text, name ∈ names -> args !! name = Some text ->
            exists v, int text = Some v /\ (str_upper name, v) ∈ new).
Proof.
  induction names as [|stat rest IH]; intros acc stats H; simpl in H.
  - inversion H; subst. exists []. rewrite app_nil_r.
    split; [reflexivity|]. split; [constructor|].
    split; [intros k v Hin | intros name text Hin];
      now apply elem_of_nil in Hin.
  - destruct (args !! stat) as [text|] eqn:Ha.
    + destruct (int text) as [value|] eqn:Hi; [|discriminate H].
      apply IH in H as (new & -> & Hsub & Hfrom & Hall).
      exists ((str_upper stat, value) :: new). rewrite <- app_assoc.
      split; [reflexivity|]. split; [simpl; now apply sublist_skip|].
      split.
      * intros k v Hin. apply elem_of_cons in Hin as [Heq|Hin].
        -- inversion Heq; subst. exists stat, text.
           repeat split; [left | assumption | assumption].
        -- destruct (Hfrom k v Hin) as (name & text' & Hn & Hk & Ht & Hv).
           exists name, text'. repeat split; [now right | assumption..].
      * intros name text' Hin Hl. apply elem_of_cons in Hin as [->|Hin].
        -- rewrite Ha in Hl. inversion Hl; subst. exists value.
           split; [assumption | left].
        -- destruct (Hall name text' Hin Hl) as (v & Hv & Hmem).
           exists v. split; [assumption | now right].
    + apply IH in H as (new & -> & Hsub & Hfrom & Hall).
      exists new. split; [reflexivity|].
      split; [simpl; now apply sublist_cons|]. split.
      * intros k v Hin.
        destruct (Hfrom k v Hin) as (name & text' & Hn & Hk & Ht & Hv).
        exists name, text'. repeat split; [now right | assumption..].
      * intros name text' Hin Hl. apply elem_of_cons in Hin as [->|Hin].
        -- rewrite Ha in Hl. discriminate Hl.
        -- exact (Hall name text' Hin Hl).
Qed.

Lemma extract_stats_from_args_some (int : string -> option Z)
    (args : gmap string string) (stats : StatDict) :
  extract_stats_from_args int args = Some stats ->
  stats <> [] /\ extract_stats_loop int stat_names args [] = Some stats.
Proof.
  unfold extract_stats_from_args.
  destruct (extract_stats_loop int stat_names args []) as [[|kv l]|];
    intros H; inversion H; subst. split; [discriminate | reflexivity].
Qed.

(** X19.  What [extract_stats_from_args] returns, when it returns stats: a
    non-empty dictionary whose keys are upper-case names of stats, each
    once and in the order STR, DEX, CON, INT, WIS, CHA; every value is the
    integer read from the argument of that stat, and every stat given in
    the arguments is in it. *)
Theorem extracted_stats_are_the_arguments (int : string -> option Z)
    (args : gmap string string) (stats : StatDict) :
  extract_stats_from_args int args = Some stats ->
  stats <> []
  /\ sublist (map fst stats) required_stats
  /\ (forall k v, (k, v) ∈ stats ->
        exists name text,
          name ∈ stat_names /\ k = str_upper name
          /\ args !! name = Some text /\ int text = Some v)
  /\ (forall name text, name ∈ stat_names -> args !! name = Some text ->
        exists v, int text = Some v /\ (str_upper name, v) ∈ stats).
Proof.
  intros H. apply extract_stats_from_args_some in H as [Hne H].
  apply extract_stats_loop_spec in H as (new & -> & Hsub & Hfrom & Hall).
  simpl. repeat split; assumption.
Qed.

Lemma extracted_stats_are_the_arguments_witness :
  extract_stats_from_args decimal_int wizard_args = Some wizard_stats
  /\ sublist (map fst wizard_stats) required_stats.
Proof.
  split; [reflexivity|].
  apply (extracted_stats_are_the_arguments decimal_int wizard_args
           wizard_stats eq_refl).
Defined.

(** X20.  [extract_stats_from_args] returns [None] exactly when no stat is
    among the arguments or the argument of some stat is not read as an
    integer. *)
Theorem no_stats_extracted_iff (int : string -> option Z)
    (args : gmap string string) :
  extract_stats_from_args int args = None
  <-> (forall name, name ∈ stat_names -> args !! name = None)
      \/ (exists name text,
            name ∈ stat_names /\ args !! name = Some text
            /\ int text = None).
Proof.
  split.
  - intros H.
    destruct (extract_stats_loop int stat_names args []) as [stats|] eqn:E.
    + left. intros name Hin. destruct (args !! name) as [text|] eqn:Ha;
        [|reflexivity].
      pose proof E as E'.
      apply extract_stats_loop_spec in E' as (new & -> & _ & _ & Hall).
      destruct (Hall name text Hin Ha) as (v & _ & Hmem).
      unfold extract_stats_from_args in H. rewrite E in H. simpl in *.
      destruct new; [now apply elem_of_nil in Hmem | discriminate H].
    + right. clear H. revert E. generalize (@nil (string * Z)).
      induction stat_names as [|stat rest IH]; intros acc E; simpl in E;
        [discriminate E|].
      destruct (args !! stat) as [text|] eqn:Ha.
      * destruct (int text) as [value|] eqn:Hi.
        -- destruct (IH _ E) as (name & text' & Hin & Hl & Hn).
           exists name, text'. repeat split; [now right | assumption..].
        -- exists stat, text. repeat split; [left | assumption..].
      * destruct (IH _ E) as (name & text' & Hin & Hl & Hn).
        exists name, text'. repeat split; [now right | assumption..].
  - intros [Hnone | (name & text & Hin & Hl & Hn)].
    + destruct (extract_stats_from_args int args) as [stats|] eqn:E;
        [|reflexivity].
      apply extract_stats_from_args_some in E as [Hne E].
      apply extract_stats_loop_spec in E as (new & -> & _ & Hfrom & _).
      simpl in *. destruct new as [|[k v] new]; [now destruct Hne|].
      destruct (Hfrom k v) as (name & text & Hin & _ & Hl & _); [left|].
      rewrite (Hnone name Hin) in Hl. discriminate Hl.
    + destruct (extract_stats_from_args int args) as [stats|] eqn:E;
        [|reflexivity].
      apply extract_stats_from_args_some in E as [Hne E].
      apply extract_stats_loop_spec in E as (new & -> & _ & _ & Hall).
      destruct (Hall name text Hin Hl) as (v & Hv & _). congruence.
Qed.

Lemma dict_mem_elem_of (key : string) (stats : StatDict) :
  dict_mem key stats = true -> exists v, (key, v) ∈ stats.
Proof.
  unfold dict_mem. intros H. apply existsb_exists in H as ([k v] & Hin & Hk).
  simpl in Hk. apply String.eqb_eq in Hk. subst k.
  exists v. now apply list_elem_of_In.
Qed.

Lemma str_upper_stat_names (name name' : string) :
  name ∈ stat_names -> name' ∈ stat_names ->
  str_upper name = str_upper name' -> name = name'.
Proof.
  unfold stat_names. intros H H'.
  repeat (apply elem_of_cons in H as [->|H]);
    try (now apply elem_of_nil in H);
    repeat (apply elem_of_cons in H' as [->|H']);
    try (now apply elem_of_nil in H');
    intros Heq; first [reflexivity | discriminate Heq].
Qed.

(** X21.  The stats of a [/create] command pass the validation of character
    creation only if each of the six stats was given in the command, was
    read as an integer, and lies between [STAT_MIN] and [STAT_MAX]; the
    costs of the six values are then within the budget. *)
Theorem creation_needs_the_six_stats (int : string -> option Z)
    (args : gmap string string) (stats : StatDict) :
  extract_stats_from_args int args = Some stats ->
  (validate_stat_allocation stats).1 = true ->
  (forall name, name ∈ stat_names ->
     exists text v,
       args !! name = Some text /\ int text = Some v
       /\ (str_upper name, v) ∈ stats /\ STAT_MIN <= v <= STAT_MAX)
  /\ length stats = 6%nat
  /\ points_used stats <= STAT_POINT_BUY_MAX.
Proof.
  intros Hex Hval.
  destruct (validate_stat_allocation_run stats) as (Hrun & _).
  rewrite Hval in Hrun. symmetry in Hrun.
  apply andb_true_iff in Hrun as [Hrun Hpts].
  apply andb_true_iff in Hrun as [Hreq Hlim].
  apply extract_stats_from_args_some in Hex as [Hne Hex].
  apply extract_stats_loop_spec in Hex as (new & -> & Hsub & Hfrom & Hall).
  change ([] ++ new) with new in *.
  assert (Hsix : forall name, name ∈ stat_names ->
            exists text v,
              args !! name = Some text /\ int text = Some v
              /\ (str_upper name, v) ∈ new /\ STAT_MIN <= v <= STAT_MAX).
  { intros name Hin.
    assert (Hup : str_upper name ∈ required_stats).
    { change required_stats with (map str_upper stat_names).
      apply elem_of_list_map. now exists name. }
    rewrite forallb_forall in Hreq.
    apply list_elem_of_In, Hreq, dict_mem_elem_of in Hup as [v Hmem].
    destruct (Hfrom _ _ Hmem) as (name' & text & Hin' & Hk & Hl & Hv).
    apply (str_upper_stat_names _ _ Hin Hin') in Hk. subst name'.
    exists text, v. repeat split; try assumption.
    - rewrite forallb_forall in Hlim.
      apply list_elem_of_In, Hlim in Hmem. unfold in_limits in Hmem.
      simpl in Hmem. apply andb_true_iff in Hmem as [Hlo _].
      now apply Z.leb_le.
    - rewrite forallb_forall in Hlim.
      apply list_elem_of_In, Hlim in Hmem. unfold in_limits in Hmem.
      simpl in Hmem. apply andb_true_iff in Hmem as [_ Hhi].
      now apply Z.leb_le. }
  split; [exact Hsix|]. split; [|now apply Z.leb_le].
  apply Nat.le_antisymm.
  - rewrite <- (length_map fst new).
    apply sublist_length in Hsub. exact Hsub.
  - assert (Hincl : map str_upper stat_names ⊆ map fst new).
    { intros k Hk. apply elem_of_list_map in Hk as (name & -> & Hin).
      destruct (Hsix name Hin) as (text & v & _ & _ & Hmem & _).
      apply elem_of_list_map. now exists (str_upper name, v). }
    assert (Hnd : NoDup (map str_upper stat_names)).
    { vm_compute. repeat constructor; rewrite ?elem_of_cons, ?elem_of_nil;
        intros H; repeat destruct H as [H|H]; try discriminate H; exact H. }
    pose proof (submseteq_length _ _ (NoDup_submseteq _ _ Hnd Hincl)) as Hl.
    rewrite !length_map in Hl. exact Hl.
Qed.

Lemma creation_needs_the_six_stats_witness :
  length wizard_stats = 6%nat /\ points_used wizard_stats <= STAT_POINT_BUY_MAX.
Proof.
  apply (creation_needs_the_six_stats decimal_int wizard_args wizard_stats);
    reflexivity.
Defined.

(* ===================================================================== *)
(** * One game and the others *)
(* ===================================================================== *)

Lemma other_game_views (g : Z) (d d' : DB) :
  tbl_games d' = tbl_games d ->
  tbl_players d' = tbl_players d ->
  tbl_game_players d' = tbl_game_players d ->
  find_game g d' = find_game g d
  /\ players_of_game g d' = players_of_game g d.
Proof.
  intros Hg Hp Hgp. unfold find_game, players_of_game.
  now rewrite Hg, Hp, Hgp.
Qed.

Lemma pending_of_same_actions (g : Z) (d d' : DB) :
  tbl_actions d' = tbl_actions d ->
  pending_actions_of_game g d' = pending_actions_of_game g d.
Proof. intros H. unfold pending_actions_of_game. now rewrite H. Qed.

Lemma recent_logs_of_other_game (game_id g : Z) (msg : string) (now : Z)
    (t : LogType) (d d' : DB) :
  g <> game_id ->
  tbl_game_logs d' = tbl_game_logs d
  \/ tbl_game_logs d'
     = tbl_game_logs d
       ++ [{| l_game_id := game_id; message := msg; l_timestamp := now;
              log_type := t |}] ->
  recent_logs_of_game g d' = recent_logs_of_game g d.
Proof.
  intros Hne [H | H]; unfold recent_logs_of_game; rewrite H; [reflexivity|].
  rewrite List.filter_app. simpl.
  destruct (Z.eqb_spec game_id g); [congruence|]. now rewrite app_nil_r.
Qed.

(** What a call of [process_round] for one game leaves of another. *)
Lemma process_round_other_game (game_id g : Z) (force : bool) (env : Env)
    (w : World) :
  g <> game_id ->
  let d' := db (process_round game_id force env w).2 in
  find_game g d' = find_game g (db w)
  /\ find_session g d' = find_session g (db w)
  /\ players_of_game g d' = players_of_game g (db w)
  /\ pending_actions_of_game g d' = pending_actions_of_game g (db w)
  /\ recent_logs_of_game g d' = recent_logs_of_game g (db w).
Proof.
  intros Hne d'. subst d'.
  destruct (process_round_tables game_id force env w)
    as (Hg & Hp & Hgp & (ids & Ha) & Hl & Hs).
  destruct (other_game_views g _ _ Hg Hp Hgp) as [Hfg Hpl].
  split; [exact Hfg|]. split; [exact (Hs g Hne)|]. split; [exact Hpl|].
  split.
  - rewrite (pending_of_same_actions g _ _ Ha).
    now apply pending_of_other_game_set_processed.
  - destruct Hl as [Hl | [msg Hl]].
    + apply (recent_logs_of_other_game game_id g "" 0 NARRATIVE);
        [exact Hne | now left].
    + apply (recent_logs_of_other_game game_id g msg (utcnow_default env)
               NARRATIVE); [exact Hne | now right].
Qed.

Lemma queue_action_other_game (game_id player_id g : Z) (text : string)
    (env : Env) (w : World) :
  g <> game_id ->
  let d' := db (queue_action game_id player_id text env w).2 in
  find_game g d' = find_game g (db w)
  /\ find_session g d' = find_session g (db w)
  /\ players_of_game g d' = players_of_game g (db w)
  /\ pending_actions_of_game g d' = pending_actions_of_game g (db w)
  /\ recent_logs_of_game g d' = recent_logs_of_game g (db w).
Proof.
  intros Hne d'. subst d'. rewrite queue_action_db.
  destruct (faults env StQueue); [repeat split; reflexivity|].
  repeat split; try reflexivity.
  unfold pending_actions_of_game, add_action. simpl.
  rewrite List.filter_app. simpl.
  destruct (Z.eqb_spec game_id g); [congruence|]. simpl.
  now rewrite app_nil_r.
Qed.

Lemma run_ops_other_game (g : Z) (ops : list EngineOp) :
  forall w,
    Forall (fun op => op_game op <> g) ops ->
    find_game g (db (run_ops ops w)) = find_game g (db w)
    /\ find_session g (db (run_ops ops w)) = find_session g (db w)
    /\ players_of_game g (db (run_ops ops w)) = players_of_game g (db w)
    /\ pending_actions_of_game g (db (run_ops ops w))
       = pending_actions_of_game g (db w)
    /\ recent_logs_of_game g (db (run_ops ops w))
       = recent_logs_of_game g (db w).
Proof.
  induction ops as [|op ops IH]; intros w Hall; [repeat split; reflexivity|].
  apply Forall_cons in Hall as [Hop Hall].
  rewrite run_ops_cons.
  destruct (IH (run_op op w) Hall) as (-> & -> & -> & -> & ->).
  destruct op as [game_id force env|game_id player_id text env];
    simpl in Hop |- *.
  - apply process_round_other_game. congruence.
  - apply queue_action_other_game. congruence.
Qed.

(** X22.  The games do not touch one another: a sequence of calls of
    [process_round] and [queue_action], none of them for game [g], leaves
    the row of [g], its session and round number, its roster, its pending
    actions and its recent log entries what they were. *)
Theorem other_games_are_left_alone (g : Z) (ops : list EngineOp) (w : World) :
  Forall (fun op => op_game op <> g) ops ->
  find_game g (db (run_ops ops w)) = find_game g (db w)
  /\ find_session g (db (run_ops ops w)) = find_session g (db w)
  /\ players_of_game g (db (run_ops ops w)) = players_of_game g (db w)
  /\ pending_actions_of_game g (db (run_ops ops w))
     = pending_actions_of_game g (db w)
  /\ recent_logs_of_game g (db (run_ops ops w))
     = recent_logs_of_game g (db w).
Proof. apply run_ops_other_game. Qed.

Lemma other_games_are_left_alone_witness :
  round_of 1 (db (run_ops demo_ops (fresh two_games_db))) = 3
  /\ find_session 2 (db (run_ops demo_ops (fresh two_games_db)))
     = find_session 2 two_games_db
  /\ pending_actions_of_game 2 (db (run_ops demo_ops (fresh two_games_db)))
     = [pending_of spell].
Proof.
  split; [vm_compute; reflexivity|].
  destruct (other_games_are_left_alone 2 demo_ops (fresh two_games_db))
    as (_ & Hs & _ & Hp & _).
  - repeat constructor; simpl; discriminate.
  - split; [exact Hs|]. rewrite Hp. reflexivity.
Defined.

Lemma active_games_ids (envs : Z -> Env) (w : World) (g : Z) :
  (forall game, game ∈ tbl_games (db w) -> g_id game = g ->
                g_status game <> ACTIVE) ->
  Forall (fun op => op_game op <> g) (process_all_ops envs w).
Proof.
  intros Hin. unfold process_all_ops, get_all_active_games.
  apply Forall_forall. intros op Hop.
  apply elem_of_list_map in Hop as (game & -> & Hgame).
  apply elem_of_bool_filter in Hgame as [Hgame Hst]. simpl.
  intros Hid. apply (Hin game Hgame Hid).
  destruct (g_status game); first [reflexivity | discriminate Hst].
Qed.

(** X23.  A pass of [process_all_active_games] leaves a game that is not
    active as it is: no session is created for it, its round number does
    not move, its pending actions stay pending and its recent log entries
    are what they were. *)
Theorem scheduler_pass_skips_inactive_games (envs : Z -> Env) (w : World)
    (g : Z) :
  (forall game, game ∈ tbl_games (db w) -> g_id game = g ->
                g_status game <> ACTIVE) ->
  let w' := process_all_active_games envs w in
  find_session g (db w') = find_session g (db w)
  /\ round_of g (db w') = round_of g (db w)
  /\ pending_actions_of_game g (db w') = pending_actions_of_game g (db w)
  /\ recent_logs_of_game g (db w') = recent_logs_of_game g (db w).
Proof.
  intros Hin w'. subst w'. unfold process_all_active_games.
  destruct (run_ops_other_game g (process_all_ops envs w) w
              (active_games_ids envs w g Hin)) as (_ & Hs & _ & Hp & Hl).
  unfold round_of. rewrite Hs. auto.
Qed.

Lemma scheduler_pass_skips_inactive_games_witness :
  find_session 1
    (db (process_all_active_games (fun _ => env_of no_fault None)
           (fresh paused_db)))
  = None.
Proof.
  apply (scheduler_pass_skips_inactive_games
           (fun _ => env_of no_fault None) (fresh paused_db) 1).
  intros game Hgame _.
  apply list_elem_of_singleton in Hgame. subst game. discriminate.
Defined.

(* ===================================================================== *)
(** * The other operations of the state manager *)
(* ===================================================================== *)

Lemma find_game_set_location (game_id g : Z) (location : string) (d : DB) :
  find_game g (set_location game_id location d)
  = if game_id =? g
    then option_map
           (fun game => {| g_id := g_id game; g_name := g_name game;
                           g_status := g_status game;
                           g_current_location := Some location;
                           g_campaign_name := g_campaign_name game |})
           (find_game g d)
    else find_game g d.
Proof.
  unfold find_game, set_location. simpl.
  induction (tbl_games d) as [|x l IH]; simpl.
  - destruct (game_id =? g); reflexivity.
  - destruct (g_id x =? game_id) eqn:Hx; simpl.
    + apply Z.eqb_eq in Hx. rewrite <- Hx.
      destruct (g_id x =? g); reflexivity.
    + rewrite IH. destruct (game_id =? g) eqn:Hg; [|reflexivity].
      apply Z.eqb_eq in Hg. subst g. rewrite Hx. reflexivity.
Qed.

(** What a snapshot that was returned tells of the store it leaves. *)
Lemma get_game_state_returned (game_id : Z) (env : Env) (w w1 : World)
    (game_state : GameState) :
  get_game_state game_id env w = (Ok (Some game_state), w1) ->
  exists game session,
    faults env StLoad = false /\ faults env StSnapshot = false
    /\ find_game game_id (db w) = Some game
    /\ find_game game_id (db w1) = Some game
    /\ find_session game_id (db w1) = Some session
    /\ round_number session = round_of game_id (db w)
    /\ game_state = make_state game_id game session (db w1)
    /\ tbl_actions (db w1) = tbl_actions (db w)
    /\ tbl_game_logs (db w1) = tbl_game_logs (db w).
Proof.
  rewrite get_game_state_run. unfold round_of.
  destruct (faults env StLoad) eqn:HL; [discriminate|].
  destruct (find_game game_id (db w)) as [game|] eqn:Hg; [|discriminate].
  destruct (find_session game_id (db w)) as [session|] eqn:Hs.
  - destruct (faults env StSnapshot) eqn:HS; [discriminate|].
    intros H. inversion H; subst. exists game, session.
    rewrite Hs. repeat split; auto.
  - destruct (faults env StCreateSession); [discriminate|]. cbv zeta.
    destruct (faults env StSnapshot) eqn:HS; [discriminate|].
    intros H. inversion H; subst.
    exists game, (new_session game_id (utcnow_default env)).
    repeat split; auto.
    simpl. rewrite find_session_add_session, Hs. simpl.
    now rewrite Z.eqb_refl.
Qed.

(** X24.  A location set by [update_game_location] is the one the next
    snapshot of the game shows, every other entry of the snapshot being
    what it was; the rows of the other games are not changed. *)
Theorem location_update_shows_in_the_snapshot (game_id : Z)
    (location : string) (env : Env) (w w1 : World) (game_state : GameState) :
  get_game_state game_id env w = (Ok (Some game_state), w1) ->
  exists d',
    update_game_location game_id location false (db w1) = Returned tt d'
    /\ get_game_state game_id env (set_db d' w1)
       = (Ok (Some {| gs_game_id := gs_game_id game_state;
                      gs_name := gs_name game_state;
                      gs_status := gs_status game_state;
                      gs_current_location := Some location;
                      gs_campaign_name := gs_campaign_name game_state;
                      gs_round_number := gs_round_number game_state;
                      gs_current_turn := gs_current_turn game_state;
                      gs_active_encounters := gs_active_encounters game_state;
                      gs_players := gs_players game_state;
                      gs_pending_actions := gs_pending_actions game_state;
                      gs_recent_logs := gs_recent_logs game_state |}),
          set_db d' w1)
    /\ (forall g, g <> game_id -> find_game g d' = find_game g (db w1)).
Proof.
  intros H.
  apply get_game_state_returned in H
    as (game & session & HL & HS & _ & Hg & Hs & _ & -> & _ & _).
  unfold update_game_location. rewrite Hg.
  eexists. split; [reflexivity|]. split.
  - rewrite get_game_state_run, HL. simpl db.
    rewrite find_game_set_location, Z.eqb_refl, Hg. simpl option_map.
    cbv iota beta.
    change (find_session game_id (set_location game_id location (db w1)))
      with (find_session game_id (db w1)).
    rewrite Hs, HS. reflexivity.
  - intros g Hne. rewrite find_game_set_location.
    destruct (Z.eqb_spec game_id g); [congruence | reflexivity].
Qed.

Lemma location_update_shows_in_the_snapshot_witness :
  exists d',
    update_game_location 1 "The Crypt" false demo_db = Returned tt d'
    /\ option_map gs_current_location
         match (get_game_state 1 (env_of no_fault None) (fresh d')).1 with
         | Ok r => r
         | Raised _ => None
         end
       = Some (Some "The Crypt").
Proof.
  destruct (location_update_shows_in_the_snapshot 1 "The Crypt"
              (env_of no_fault None) (fresh demo_db) (fresh demo_db)
              (make_state 1 (game_with ACTIVE)
                 {| s_game_id := 1; round_number := 1; current_turn := Some 1;
                    active_encounters := []; updated_at := 0 |} demo_db)
              eq_refl) as (d' & Hup & Hget & _).
  exists d'. split; [exact Hup|].
  change (set_db d' (fresh demo_db)) with (fresh d') in Hget.
  rewrite Hget. reflexivity.
Defined.

(** X25.  [update_game_session] writes the fields it is given and keeps the
    others: the round number and the encounters given replace the former
    ones, a turn given replaces the former one, and a turn of [None] leaves
    the former turn in place, so the turn cannot be cleared through it.  A
    game without a session gets one, in round 1 unless a round number is
    given.  The sessions of the other games and the other tables are not
    changed. *)
Theorem update_game_session_writes_what_is_given (game_id : Z)
    (round_number' current_turn' : option Z)
    (active_encounters' : option (list string)) (now : Z) (d : DB) :
  exists d' session',
    update_game_session game_id round_number' current_turn'
      active_encounters' now false d = Returned tt d'
    /\ find_session game_id d' = Some session'
    /\ round_number session' = default (round_of game_id d) round_number'
    /\ current_turn session'
       = match current_turn' with
         | Some t => Some t
         | None => find_session game_id d ≫= current_turn
         end
    /\ active_encounters session'
       = default (default [] (active_encounters <$> find_session game_id d))
           active_encounters'
    /\ updated_at session' = now
    /\ (forall g, g <> game_id -> find_session g d' = find_session g d)
    /\ tbl_games d' = tbl_games d /\ tbl_players d' = tbl_players d
    /\ tbl_game_players d' = tbl_game_players d
    /\ tbl_actions d' = tbl_actions d /\ tbl_game_logs d' = tbl_game_logs d.
Proof.
  unfold update_game_session, round_of.
  destruct (find_session game_id d) as [session|] eqn:Hs.
  - eexists _, (assign_session round_number' current_turn'
                  active_encounters' now session).
    split; [reflexivity|]. split.
    { unfold find_session, set_sessions. simpl.
      rewrite find_update_first by reflexivity.
      rewrite Z.eqb_refl. unfold find_session in Hs. now rewrite Hs. }
    split; [reflexivity|]. split; [reflexivity|]. split; [reflexivity|].
    split; [reflexivity|]. split; [|repeat split; reflexivity].
    intros g Hne. unfold find_session, set_sessions. simpl.
    rewrite find_update_first by reflexivity.
    destruct (Z.eqb_spec game_id g); [congruence | reflexivity].
  - eexists _, (assign_session round_number' current_turn'
                  active_encounters' now (new_session game_id now)).
    split; [reflexivity|]. split.
    { rewrite find_session_add_session, Hs. simpl. now rewrite Z.eqb_refl. }
    split; [reflexivity|]. split; [reflexivity|]. split; [reflexivity|].
    split; [reflexivity|]. split; [|repeat split; reflexivity].
    intros g Hne. rewrite find_session_add_session.
    destruct (find_session g d); [reflexivity|]. simpl.
    destruct (Z.eqb_spec game_id g); [congruence | reflexivity].
Qed.

Lemma find_last_added {A} (p : A -> bool) (l : list A) (x : A) :
  p x = true -> exists y, List.find p (l ++ [x]) = Some y.
Proof.
  intros Hp. destruct (List.find p (l ++ [x])) as [y|] eqn:E; [eauto|].
  rewrite (find_none _ _ E x) in Hp; [discriminate|].
  apply in_or_app. right. now left.
Qed.

Lemma roster_of_member (game_id player_id : Z) (player : Player) (d : DB) :
  find_player player_id (tbl_players d) = Some player ->
  player_id ∈ map gp_player_id
                (List.filter (fun gp => gp_game_id gp =? game_id)
                             (tbl_game_players d)) ->
  player ∈ players_of_game game_id d.
Proof.
  unfold find_player, players_of_game. intros Hfind Hmem.
  apply find_some in Hfind as [Hin Hid]. apply Z.eqb_eq in Hid.
  destruct (map gp_player_id _) as [|i ids] eqn:E;
    [now apply elem_of_nil in Hmem|].
  apply elem_of_bool_filter. split; [now apply list_elem_of_In|].
  apply in_list_elem_of. now rewrite Hid.
Qed.

(** X26.  [add_player_to_game] puts a player on the roster once: after the
    call the player is among the players of the game, whether the call
    added the row or found it; a second call adds nothing and answers
    [False]; and the rosters of the other games are what they were. *)
Theorem add_player_to_game_joins_once (game_id player_id : Z)
    (player : Player) (d : DB) :
  find_player player_id (tbl_players d) = Some player ->
  exists joined d',
    add_player_to_game game_id player_id false d = Returned joined d'
    /\ (joined = false -> d' = d)
    /\ player ∈ players_of_game game_id d'
    /\ add_player_to_game game_id player_id false d' = Returned false d'
    /\ (forall g, g <> game_id ->
          players_of_game g d' = players_of_game g d).
Proof.
  intros Hfind. unfold add_player_to_game.
  destruct (List.find _ (tbl_game_players d)) as [gp|] eqn:E.
  - exists false, d. split; [reflexivity|]. split; [reflexivity|].
    split; [|split; [now rewrite E | reflexivity]].
    apply (roster_of_member game_id player_id player d Hfind).
    apply find_some in E as [Hin Hp].
    apply andb_true_iff in Hp as [Hg Hpl]. apply Z.eqb_eq in Hpl.
    apply elem_of_list_map. exists gp. split; [now symmetry|].
    apply elem_of_bool_filter. split; [now apply list_elem_of_In | exact Hg].
  - eexists true, _. split; [reflexivity|]. split; [discriminate|].
    split; [|split].
    + apply (roster_of_member game_id player_id player); [exact Hfind|].
      simpl. rewrite List.filter_app, map_app. simpl.
      rewrite Z.eqb_refl. simpl. apply elem_of_app. right. left.
    + simpl.
      destruct (find_last_added
                  (fun gp => (gp_game_id gp =? game_id)
                             && (gp_player_id gp =? player_id))
                  (tbl_game_players d)
                  {| gp_game_id := game_id; gp_player_id := player_id |})
        as [y ->]; [simpl; now rewrite !Z.eqb_refl | reflexivity].
    + intros g Hne. unfold players_of_game, add_game_player. simpl.
      rewrite List.filter_app. simpl.
      destruct (Z.eqb_spec game_id g); [congruence|].
      now rewrite app_nil_r.
Qed.

Lemma add_player_to_game_joins_once_witness :
  exists joined d',
    add_player_to_game 1 2 false two_games_db = Returned joined d'
    /\ mira ∈ players_of_game 1 d'
    /\ players_of_game 2 d' = [mira].
Proof.
  destruct (add_player_to_game_joins_once 1 2 mira two_games_db eq_refl)
    as (joined & d' & Hadd & _ & Hin & _ & Hother).
  exists joined, d'. split; [exact Hadd|]. split; [exact Hin|].
  rewrite (Hother 2); [reflexivity | discriminate].
Defined.

(* ===================================================================== *)
(** * The snapshot and the round it is resolved in *)
(* ===================================================================== *)

(** X27.  A snapshot that was returned is stable: asked again at once,
    [get_game_state] returns the same snapshot and writes nothing.  The
    snapshot is that of the game asked for, in the round the store has for
    it, with the pending actions of the store. *)
Theorem snapshot_is_stable (game_id : Z) (env : Env) (w w1 : World)
    (game_state : GameState) :
  get_game_state game_id env w = (Ok (Some game_state), w1) ->
  get_game_state game_id env w1 = (Ok (Some game_state), w1)
  /\ gs_game_id game_state = game_id
  /\ gs_round_number game_state = round_of game_id (db w)
  /\ gs_round_number game_state = round_of game_id (db w1)
  /\ gs_pending_actions game_state = pending_actions_of_game game_id (db w).
Proof.
  intros H.
  apply get_game_state_returned in H
    as (game & session & HL & HS & Hg & Hg1 & Hs & Hrn & -> & Ha & _).
  split; [|split; [|split; [|split]]].
  - rewrite get_game_state_run, HL, Hg1, Hs, HS. reflexivity.
  - simpl. unfold find_game in Hg. apply find_some in Hg as [_ Hid].
    now apply Z.eqb_eq.
  - exact Hrn.
  - simpl. unfold round_of. now rewrite Hs.
  - simpl. now apply pending_of_same_actions.
Qed.

Lemma snapshot_is_stable_witness :
  (get_game_state 1 (env_of no_fault None)
     (get_game_state 1 (env_of no_fault None) (fresh new_game_db)).2).2
  = (get_game_state 1 (env_of no_fault None) (fresh new_game_db)).2.
Proof.
  destruct (snapshot_is_stable 1 (env_of no_fault None) (fresh new_game_db)
              (get_game_state 1 (env_of no_fault None) (fresh new_game_db)).2
              (make_state 1 (game_with ACTIVE) (new_session 1 7000000)
                 (add_session (new_session 1 7000000) new_game_db))
              eq_refl) as (Hagain & _).
  now rewrite Hagain.
Defined.

Lemma newer_first_total : Total newer_first.
Proof. intros a b. unfold newer_first. lia. Qed.

Lemma newer_first_trans : Transitive newer_first.
Proof. intros a b c. unfold newer_first. lia. Qed.

(** X28.  The recent log entries of a snapshot are the ten newest of the
    game: at most ten entries of the log of the game, newest first, and no
    entry of the game left out is newer than one that is shown. *)
Theorem recent_logs_are_the_ten_newest (game_id : Z) (d : DB) :
  exists shown hidden,
    recent_logs_of_game game_id d
    = map (fun l => {| rl_message := message l;
                       rl_type := log_type_value (log_type l);
                       rl_timestamp := l_timestamp l |}) shown
    /\ shown ++ hidden
       ≡ₚ List.filter (fun l => l_game_id l =? game_id) (tbl_game_logs d)
    /\ length shown = Nat.min 10 (length (shown ++ hidden))
    /\ StronglySorted newer_first shown
    /\ (forall x y, x ∈ shown -> y ∈ hidden ->
                    l_timestamp y <= l_timestamp x).
Proof.
  set (sorted := merge_sort newer_first
                   (List.filter (fun l => l_game_id l =? game_id)
                                (tbl_game_logs d))).
  exists (take 10 sorted), (drop 10 sorted).
  assert (Hsorted : StronglySorted newer_first
                      (take 10 sorted ++ drop 10 sorted)).
  { rewrite take_drop.
    apply (@StronglySorted_merge_sort _ newer_first _ newer_first_trans
             newer_first_total). }
  apply StronglySorted_app in Hsorted as (Hcross & Hshown & _).
  split; [reflexivity|]. split.
  { rewrite take_drop. apply merge_sort_Permutation. }
  split; [rewrite take_drop; apply length_take|].
  split; [exact Hshown|].
  intros x y Hx Hy. exact (Hcross x y Hx Hy).
Qed.

(** X29.  A narrative that [process_round] returns belongs to a round that
    was committed: the round number of the game is one more than before,
    the turn is cleared, the actions of the batch are marked, and the
    narrative, unless it is the empty string, is the last entry of the log,
    of type NARRATIVE and headed by the number of the round it resolves,
    the one before the increment. *)
Theorem returned_narrative_is_logged_under_its_round (game_id : Z)
    (force : bool) (env : Env) (w w' : World) (narrative : string) :
  process_round game_id force env w = (Ok (Some narrative), w') ->
  round_of game_id (db w') = round_of game_id (db w) + 1
  /\ find_session game_id (db w') ≫= current_turn = None
  /\ tbl_actions (db w')
     = tbl_actions
         (set_processed game_id (map snd (batch_of_game game_id (db w)))
            (db w))
  /\ tbl_game_logs (db w')
     = tbl_game_logs (db w)
       ++ (if truthy (Some narrative)
           then [{| l_game_id := game_id;
                    message :=
                      "**Round " +:+ str_of_int (round_of game_id (db w))
                      +:+ "**" +:+ newline +:+ narrative;
                    l_timestamp := utcnow_default env;
                    log_type := NARRATIVE |}]
           else []).
Proof.
  intros H. rewrite process_round_run in H.
  destruct (active_rounds w !! game_id) as [held|] eqn:Hfree;
    [discriminate H|].
  rewrite guarded_run, round_body_run in H.
  destruct (select_actions game_id force env (acquire game_id w))
    as [[[[[game_state player_actions] action_ids]|]|e] w1] eqn:Hsel;
    try discriminate H.
  destruct (generate_narrative_effect game_state player_actions env w1)
    as (nar & w2 & Hn & Hdb & _).
  rewrite Hn, commit_round_run in H. cbv zeta in H.
  destruct (nonempty action_ids && faults env StMark); [discriminate H|].
  destruct (faults env StSession); [discriminate H|].
  destruct (truthy nar && faults env StLog); [discriminate H|].
  inversion H; subst nar w'. clear H.
  apply select_actions_plan in Hsel
    as (game & session & _ & _ & Hs & Hrn & -> & _ & Hids & Ha & Hl).
  change (db (acquire game_id w)) with (db w) in *.
  change (db (released game_id
                (set_db
                   (narrated game_id
                      (make_state game_id game session (db w1))
                      (Some narrative) (utcnow_default env)
                      (advanced game_id (utcnow_update env)
                         (marked game_id action_ids (db w2)))) w2)))
    with (narrated game_id (make_state game_id game session (db w1))
            (Some narrative) (utcnow_default env)
            (advanced game_id (utcnow_update env)
               (marked game_id action_ids (db w2)))).
  rewrite Hdb.
  assert (Hs1 : find_session game_id (marked game_id action_ids (db w1))
                = Some session) by now rewrite find_session_marked.
  assert (Hadv : advanced game_id (utcnow_update env)
                   (marked game_id action_ids (db w1))
                 = advance_round game_id (utcnow_update env)
                     (marked game_id action_ids (db w1))).
  { unfold advanced. now rewrite Hs1. }
  assert (Hmarked : tbl_actions (marked game_id action_ids (db w1))
                    = tbl_actions (set_processed game_id action_ids (db w))).
  { unfold marked. destruct action_ids as [|i ids]; simpl nonempty; cbv iota.
    - now rewrite set_processed_nil.
    - unfold set_processed. simpl. now rewrite Ha. }
  split; [|split; [|split]].
  - rewrite round_of_narrated, round_of_advanced, round_of_marked,
      find_session_marked, Z.eqb_refl, Hs. simpl.
    unfold round_of at 1. rewrite Hs, Hrn. reflexivity.
  - assert (Hturn : find_session game_id
                      (advance_round game_id (utcnow_update env)
                         (marked game_id action_ids (db w1)))
                    ≫= current_turn = None).
    { rewrite find_session_advance_round, Z.eqb_refl, Hs1. reflexivity. }
    rewrite Hadv. unfold narrated.
    destruct (truthy (Some narrative)); exact Hturn.
  - rewrite <- Hids, <- Hmarked, Hadv. unfold narrated.
    destruct (truthy (Some narrative)); reflexivity.
  - rewrite Hadv. unfold narrated, round_message.
    destruct (truthy (Some narrative)); simpl.
    + rewrite Hrn. f_equal.
      unfold marked. destruct (nonempty action_ids); simpl; exact Hl.
    + rewrite app_nil_r.
      unfold marked. destruct (nonempty action_ids); simpl; exact Hl.
Qed.

Lemma returned_narrative_is_logged_under_its_round_witness :
  let w' := (process_round 1 false (env_of no_fault None)
               (fresh demo_db)).2 in
  round_of 1 (db w') = 2
  /\ map message (tbl_game_logs (db w'))
     = ["**Round 1**" +:+ newline +:+ "*The actions unfold: attacks*"].
Proof.
  intros w'.
  destruct (returned_narrative_is_logged_under_its_round 1 false
              (env_of no_fault None) (fresh demo_db) w'
              "*The actions unfold: attacks*") as (Hr & _ & _ & Hl).
  - vm_compute. reflexivity.
  - rewrite Hr, Hl. split; vm_compute; reflexivity.
Defined.

(* ===================================================================== *)
(** * A game that is not active, along a schedule *)
(* ===================================================================== *)

Lemma inactive_same_games (g : Z) (d d' : DB) :
  tbl_games d' = tbl_games d -> inactive g d -> inactive g d'.
Proof.
  intros Hg (game & Hgame & Hst). exists game. split; [|exact Hst].
  unfold find_game in *. now rewrite Hg.
Qed.

Lemma after_callback_db (player_actions : list PlayerAction)
    (answer : CallbackResult) (env : Env) (w : World) :
  exists narrative w1,
    after_callback player_actions answer env w = (Ok narrative, w1)
    /\ db w1 = db w.
Proof.
  unfold after_callback. destruct answer as [narrative|].
  - destruct (truthy narrative); unfold_m; simpl; eauto.
  - unfold_m. simpl. eauto.
Qed.

(** What the second piece of a call leaves in the store: nothing, or the
    writes of the commit up to the one that failed. *)
Lemma resume_round_db (k : Awaiting) (env : Env) (w : World) :
  exists narrative,
    let d1 := marked (aw_game_id k) (aw_action_ids k) (db w) in
    let d2 := advanced (aw_game_id k) (utcnow_update env) d1 in
    let d3 := narrated (aw_game_id k) (aw_game_state k) narrative
                (utcnow_default env) d2 in
    db (resume_round k env w).2 = db w
    \/ db (resume_round k env w).2 = d1
    \/ db (resume_round k env w).2 = d2
    \/ db (resume_round k env w).2 = d3.
Proof.
  unfold resume_round. rewrite guarded_run.
  change (mbind ?f ?m) with (bind m f). unfold bind.
  destruct (after_callback_db (aw_player_actions k) (aw_answer k) env w)
    as (narrative & w1 & -> & Hdb).
  exists narrative. rewrite commit_round_run. cbv zeta. rewrite Hdb.
  destruct (nonempty (aw_action_ids k) && faults env StMark);
    [left; exact Hdb|].
  destruct (faults env StSession); [right; left; reflexivity|].
  destruct (truthy narrative && faults env StLog);
    [right; right; left; reflexivity | right; right; right; reflexivity].
Qed.

Lemma resume_round_games (k : Awaiting) (env : Env) (w : World) :
  tbl_games (db (resume_round k env w).2) = tbl_games (db w).
Proof.
  destruct (resume_round_db k env w) as (narrative & H). cbv zeta in H.
  destruct (commit_tables (aw_game_id k) (aw_game_state k) narrative
              (aw_action_ids k) (utcnow_update env) (utcnow_default env)
              (db w)) as ((H1 & H2 & H3) & _).
  destruct H as [-> | [-> | [-> | ->]]]; auto.
Qed.

Lemma resume_round_round_of (k : Awaiting) (g : Z) (env : Env) (w : World) :
  round_of g (db w) <= round_of g (db (resume_round k env w).2)
  <= round_of g (db w) + (if aw_game_id k =? g then 1 else 0).
Proof.
  destruct (resume_round_db k env w) as (narrative & H). cbv zeta in H.
  destruct H as [-> | [-> | [-> | ->]]];
    rewrite ?round_of_narrated, ?round_of_advanced, ?round_of_marked;
    destruct (aw_game_id k =? g); simpl; try lia;
    destruct (bool_decide _); lia.
Qed.

(** The second piece of a call does not read the status of the game: when
    the database answers and the game has a session, it advances the
    round. *)
Lemma resume_round_advances (k : Awaiting) (env : Env) (w : World) :
  (forall st, faults env st = false) ->
  is_Some (find_session (aw_game_id k) (db w)) ->
  round_of (aw_game_id k) (db (resume_round k env w).2)
  = round_of (aw_game_id k) (db w) + 1.
Proof.
  intros Hok Hs. unfold resume_round. rewrite guarded_run.
  change (mbind ?f ?m) with (bind m f). unfold bind.
  destruct (after_callback_db (aw_player_actions k) (aw_answer k) env w)
    as (narrative & w1 & -> & Hdb).
  rewrite commit_round_run. cbv zeta. rewrite !Hok, !andb_false_r, Hdb.
  simpl.
  rewrite round_of_narrated, round_of_advanced, round_of_marked,
    find_session_marked, Z.eqb_refl.
  now rewrite bool_decide_eq_true_2.
Qed.

Lemma start_guarded_suspended (g : Z) (force : bool) (env : Env)
    (w w' : World) (k : Awaiting) :
  start_guarded g force env w = (Ok (Suspended k), w') ->
  db w' = db (select_actions g force env w).2
  /\ exists plan w1, select_actions g force env w = (Ok (Some plan), w1).
Proof.
  unfold start_guarded.
  destruct (select_actions g force env w)
    as [[[[[game_state player_actions] action_ids]|]|e] w1].
  - destruct (nonempty player_actions);
      [destruct (ai_callback env) as [callback|]|].
    + unfold_m. simpl. intros H. inversion H; subst. simpl. eauto.
    + destruct (finish_guarded_run g
                  (narrative ← generate_narrative game_state player_actions;
                   commit_round g game_state narrative action_ids)
                  env w1) as (r & -> & _). discriminate.
    + destruct (finish_guarded_run g
                  (narrative ← generate_narrative game_state player_actions;
                   commit_round g game_state narrative action_ids)
                  env w1) as (r & -> & _). discriminate.
  - destruct (finish_guarded_run g (mret None) env w1) as (r & -> & _).
    discriminate.
  - destruct (finish_guarded_run g (fun _ w' => (Raised e, w')) env w1)
      as (r & -> & _). discriminate.
Qed.

(** The first piece of a call ends the call, as [process_round] does, or
    stops at the [await] with what lines 52-102 selected. *)
Lemma start_round_finished_or_suspended (g : Z) (force : bool) (env : Env)
    (w : World) :
  (exists result,
      start_round g force env w
      = (Ok (Finished result), (process_round g force env w).2))
  \/ (exists k w',
        start_round g force env w = (Ok (Suspended k), w')
        /\ aw_game_id k = g
        /\ db w' = db (select_actions g force env (acquire g w)).2
        /\ exists plan w1,
             select_actions g force env (acquire g w)
             = (Ok (Some plan), w1)).
Proof.
  pose proof (process_round_as_coroutine g force env w) as Hco.
  rewrite start_round_run in *.
  destruct (active_rounds w !! g) as [held|] eqn:Hfree.
  - left. exists None. now rewrite Hco.
  - destruct (start_guarded_effect g force env (acquire g w))
      as [(result & w' & Hst & _) | (k & w' & Hst & Hk & _)].
    + left. exists result. rewrite Hst in Hco |- *. now rewrite Hco.
    + right. exists k, w'. split; [exact Hst|]. split; [exact Hk|].
      now apply (start_guarded_suspended g force env _ w' k).
Qed.

(** A call that begins on a game that is not active ends in its first
    piece. *)
Lemma start_round_inactive (g : Z) (force : bool) (env : Env) (w : World) :
  inactive g (db w) ->
  start_round g force env w
  = (Ok (Finished None), (process_round g force env w).2).
Proof.
  intros (game & Hgame & Hst).
  pose proof (process_round_inactive g force env w game Hgame Hst) as Hin.
  cbv zeta in Hin. destruct Hin as (Hres & _).
  destruct (start_round_finished_or_suspended g force env w)
    as [(result & H) | (k & w' & _ & _ & _ & plan & w1 & Hsel)].
  - pose proof (process_round_as_coroutine g force env w) as Hco.
    rewrite H in Hco. rewrite Hco in Hres. simpl in Hres.
    inversion Hres; subst. exact H.
  - destruct plan as [[game_state player_actions] action_ids].
    apply select_actions_plan in Hsel
      as (game' & session & Hg' & Hact & _).
    change (db (acquire g w)) with (db w) in Hg'.
    rewrite Hgame in Hg'. inversion Hg'; subst. contradiction.
Qed.

Lemma start_round_effect (g' g : Z) (force : bool) (env : Env) (w : World) :
  tbl_games (db (start_round g' force env w).2) = tbl_games (db w)
  /\ round_of g (db w) <= round_of g (db (start_round g' force env w).2)
     <= round_of g (db w) + (if g' =? g then 1 else 0)
  /\ (forall k, (start_round g' force env w).1 = Ok (Suspended k) ->
                aw_game_id k = g').
Proof.
  destruct (start_round_finished_or_suspended g' force env w)
    as [(result & ->) | (k & w' & -> & Hk & Hdb & _)]; simpl.
  - destruct (process_round_tables g' force env w) as (Hg & _).
    split; [exact Hg|]. split; [|discriminate].
    rewrite process_round_round_of.
    destruct (g' =? g); simpl; [destruct (resolves_round _ _ _ _)|]; lia.
  - rewrite Hdb.
    destruct (select_actions_tables g' force env (acquire g' w)) as (Hg & _).
    split; [exact Hg|]. split.
    + rewrite select_actions_round_of.
      change (db (acquire g' w)) with (db w). destruct (g' =? g); lia.
    + intros k' H. inversion H as [Hkk]. rewrite <- Hkk. exact Hk.
Qed.

Lemma count_delete {A} (p : A -> bool) (l : list A) :
  forall n k,
    l !! n = Some k ->
    length (List.filter p l)
    = ((if p k then 1 else 0) + length (List.filter p (delete n l)))%nat.
Proof.
  induction l as [|x l IH]; intros [|n] k H; simpl in *; try discriminate.
  - inversion H; subst. destruct (p k); reflexivity.
  - destruct (p x); simpl; rewrite (IH n k H); destruct (p k); lia.
Qed.

(** One event on a game that is not active: the game stays so, its round
    number does not decrease, and it grows only as the calls of the game
    that await the narrator get fewer. *)
Lemma loop_step_inactive (g : Z) (ev : LoopEvent) (s : System) :
  inactive g (db (sys_world s)) ->
  event_keeps_inactive g ev ->
  inactive g (db (sys_world (loop_step ev s)))
  /\ round_of g (db (sys_world s))
     <= round_of g (db (sys_world (loop_step ev s)))
  /\ round_of g (db (sys_world (loop_step ev s)))
     + Z.of_nat (calls_in_flight g (loop_step ev s))
     <= round_of g (db (sys_world s)) + Z.of_nat (calls_in_flight g s).
Proof.
  intros Hin Hev.
  destruct ev as [[g' force env | n env | g' player_id text env] | write];
    unfold calls_in_flight; simpl.
  - destruct (Z.eqb_spec g' g) as [->|Hne].
    + rewrite (start_round_inactive g force env (sys_world s) Hin). simpl.
      destruct (process_round_tables g force env (sys_world s)) as (Hg & _).
      split; [exact (inactive_same_games g _ _ Hg Hin)|].
      destruct Hin as (game & Hgame & Hst).
      pose proof (process_round_inactive g force env (sys_world s) game
                    Hgame Hst) as H.
      cbv zeta in H. destruct H as (_ & _ & -> & _). lia.
    + destruct (start_round_effect g' g force env (sys_world s))
        as (Hg & Hround & Hk).
      destruct (Z.eqb_spec g' g); [contradiction|].
      destruct (start_round g' force env (sys_world s))
        as [[[result|k]|e] w'] eqn:Hst; simpl in *;
        (split; [exact (inactive_same_games g _ _ Hg Hin)|]);
        (split; [lia|]); try lia.
      rewrite List.filter_app, length_app. simpl.
      rewrite (Hk k eq_refl).
      destruct (Z.eqb_spec g' g); [contradiction|]. simpl. lia.
  - destruct (in_flight s !! n) as [k|] eqn:Hk; simpl.
    + pose proof (resume_round_games k env (sys_world s)) as Hg.
      pose proof (resume_round_round_of k g env (sys_world s)) as Hround.
      split; [exact (inactive_same_games g _ _ Hg Hin)|].
      rewrite (count_delete (fun k => aw_game_id k =? g) _ n k Hk).
      destruct (aw_game_id k =? g); lia.
    + split; [exact Hin | lia].
  - rewrite queue_action_round_of.
    split; [|lia].
    apply (inactive_same_games g (db (sys_world s))); [|exact Hin].
    rewrite queue_action_db. destruct (faults env StQueue); reflexivity.
  - destruct (Hev _ Hin) as [Hin' Hs].
    split; [exact Hin'|]. unfold round_of. rewrite Hs. lia.
Qed.

Lemma loop_run_inactive (g : Z) (evs : list LoopEvent) :
  forall s,
    inactive g (db (sys_world s)) ->
    Forall (event_keeps_inactive g) evs ->
    inactive g (db (sys_world (loop_run evs s)))
    /\ round_of g (db (sys_world s))
       <= round_of g (db (sys_world (loop_run evs s)))
    /\ round_of g (db (sys_world (loop_run evs s)))
       + Z.of_nat (calls_in_flight g (loop_run evs s))
       <= round_of g (db (sys_world s)) + Z.of_nat (calls_in_flight g s).
Proof.
  induction evs as [|ev evs IH]; intros s Hin Hall.
  - simpl. split; [exact Hin | lia].
  - apply Forall_cons in Hall as [Hev Hall].
    destruct (loop_step_inactive g ev s Hin Hev) as (Hin1 & Hlo1 & Hhi1).
    destruct (IH (loop_step ev s) Hin1 Hall) as (Hin2 & Hlo2 & Hhi2).
    change (loop_run (ev :: evs) s) with (loop_run evs (loop_step ev s)).
    split; [exact Hin2 | lia].
Qed.

Lemma dm_pause_keeps_inactive (g : Z) : keeps_inactive g (dm_pause g).
Proof.
  intros d (game & Hgame & Hst).
  assert (Hd : dm_pause g d = d).
  { unfold dm_pause. rewrite Hgame.
    destruct (g_status game); first [reflexivity | now destruct Hst]. }
  rewrite Hd. split; [exists game; auto | reflexivity].
Qed.

(** C6, as the code has it.  The status of the game is read once, at the
    start of a call of [process_round] (line 55), and not again after the
    narrator has answered.  A call that begins while the game is waiting,
    paused or ended returns [None], whatever [force], the pending actions
    and the clock are, without reaching the narrator; it leaves the token,
    the actions, the logs and an existing session as they were, and the one
    write it can make is the session row, with round number 1, of a game
    that had none.  A call of the game that awaits the narrator when the
    game is not active commits when it resumes: with the database answering
    and a session, it advances the round.  So along any schedule of the
    event loop in which the other coroutines leave the game inactive and do
    not write its session, the game stays inactive, its round number never
    decreases, it advances by at most the number of calls of the game that
    awaited the narrator at the start, and no further call of the game
    comes to await. *)
Theorem inactive_game_is_not_advanced (game_id : Z) (s : System)
    (game : Game) (evs : list LoopEvent) :
  find_game game_id (db (sys_world s)) = Some game ->
  g_status game <> ACTIVE ->
  Forall (event_keeps_inactive game_id) evs ->
  (forall force env,
     let w := sys_world s in
     let out := process_round game_id force env w in
     out.1 = Ok None
     /\ active_rounds out.2 = active_rounds w
     /\ round_of game_id (db out.2) = round_of game_id (db w)
     /\ (db out.2 = db w
         \/ (find_session game_id (db w) = None
             /\ db out.2
                = add_session (new_session game_id (utcnow_default env))
                    (db w)))
     /\ (is_Some (find_session game_id (db w)) -> db out.2 = db w)
     /\ start_round game_id force env w = (Ok (Finished None), out.2))
  /\ (forall k env,
        aw_game_id k = game_id ->
        (forall st, faults env st = false) ->
        is_Some (find_session game_id (db (sys_world s))) ->
        round_of game_id (db (resume_round k env (sys_world s)).2)
        = round_of game_id (db (sys_world s)) + 1)
  /\ inactive game_id (db (sys_world (loop_run evs s)))
  /\ round_of game_id (db (sys_world s))
     <= round_of game_id (db (sys_world (loop_run evs s)))
     <= round_of game_id (db (sys_world s))
        + Z.of_nat (calls_in_flight game_id s)
  /\ (calls_in_flight game_id (loop_run evs s)
      <= calls_in_flight game_id s)%nat.
Proof.
  intros Hgame Hst Hall.
  assert (Hin : inactive game_id (db (sys_world s))) by (exists game; auto).
  split; [|split].
  - intros force env w out. subst w out.
    pose proof (process_round_inactive game_id force env (sys_world s) game
                  Hgame Hst) as H.
    cbv zeta in H. destruct H as (H1 & H2 & H3 & H4 & H5).
    repeat (split; [assumption|]).
    now apply start_round_inactive.
  - intros k env Hk Hok Hs. subst game_id.
    now apply resume_round_advances.
  - destruct (loop_run_inactive game_id evs s Hin Hall) as (Hin' & Hlo & Hhi).
    split; [exact Hin'|]. split; lia.
Qed.

(** The call of [racing_system] awaits the narrator when game 1 is paused;
    a forced call is then refused, and the answer of the narrator lets the
    first call commit round 1 of the paused game. *)
Lemma inactive_game_is_not_advanced_witness :
  let s := paused_while_narrating in
  let s' := loop_run after_the_pause s in
  g_status <$> find_game 1 (db (sys_world s)) = Some PAUSED
  /\ (process_round 1 true (env_of no_fault None) (sys_world s)).1 = Ok None
  /\ round_of 1 (db (sys_world s))
     <= round_of 1 (db (sys_world s'))
     <= round_of 1 (db (sys_world s)) + Z.of_nat (calls_in_flight 1 s)
  /\ calls_in_flight 1 s = 1%nat
  /\ round_of 1 (db (sys_world s)) = 1
  /\ round_of 1 (db (sys_world s')) = 2.
Proof.
  intros s s'. subst s s'.
  destruct (inactive_game_is_not_advanced 1 paused_while_narrating
              (game_with PAUSED) after_the_pause)
    as (Hcall & _ & _ & Hbound & _).
  - reflexivity.
  - discriminate.
  - apply Forall_cons; split; [exact I|].
    apply Forall_cons; split; [apply dm_pause_keeps_inactive|].
    apply Forall_cons; split; [exact I | constructor].
  - split; [reflexivity|].
    split; [exact (proj1 (Hcall true (env_of no_fault None)))|].
    split; [exact Hbound|]. vm_compute. repeat split; reflexivity.
Defined.

(** Against C6 as stated, also: game 1 is paused while a call awaits the
    narrator; when the narrator answers, the action of the paused game is
    marked and its round number goes from 1 to 2. *)
Lemma paused_during_the_await_is_advanced :
  let s := paused_while_narrating in
  let s' :=
    loop_step
      (EvEngine (EvResume 0 (env_of no_fault (Some raising_callback)))) s in
  g_status <$> find_game 1 (db (sys_world s)) = Some PAUSED
  /\ round_of 1 (db (sys_world s)) = 1
  /\ map processed (tbl_actions (db (sys_world s))) = [false]
  /\ g_status <$> find_game 1 (db (sys_world s')) = Some PAUSED
  /\ round_of 1 (db (sys_world s')) = 2
  /\ map processed (tbl_actions (db (sys_world s'))) = [true].
Proof. vm_compute. repeat split; reflexivity. Qed.
